(** * The flash-write engine of the flasher stub ([stub_write_flash.c])

    A shallow embedding of the session state [fs], the erase-ahead
    scheduler [start_next_erase], the three data operations and the
    begin / end handlers, followed by the properties of the session
    state machine.

    The C code talks to the SPI controller through memory-mapped registers
    and ROM routines and spins on status bits.  Here the controller is an
    oracle that answers every read from the history of everything that
    happened so far; that history (the trace) is part of the machine state,
    so every command the code issues can be observed.  Busy-wait loops take
    fuel: a run that spins longer than the fuel allows yields [None]. *)

From Stdlib Require Import ZArith List Bool Lia.
Import ListNotations.
Open Scope Z_scope.

(** ** Machine integers *)

(** [uint32_t] arithmetic wraps modulo 2^32. *)
Definition u32 (z : Z) : Z := z mod 4294967296.

(** Conversion to [int] (two's complement, 32 bits). *)
Definition i32 (z : Z) : Z := (z + 2147483648) mod 4294967296 - 2147483648.

(** ** Error codes ([esp_command_error], the values this file uses) *)

Inductive esp_command_error :=
| ESP_OK
| ESP_FAILED_SPI_OP
| ESP_FAILED_SPI_UNLOCK
| ESP_NOT_IN_FLASH_MODE
| ESP_INFLATE_ERROR
| ESP_NOT_ENOUGH_DATA
| ESP_TOO_MUCH_DATA.

(** ** The SPI controller as seen from the stub *)

Inductive reg :=
| SPI_EXT2_REG
| SPI0_EXT2_REG
| SPI_RD_STATUS_REG
| SPI_CMD_REG
| SPI_ADDR_REG
| SPI_CTRL_REG.

(** ROM routines called by this file, with their arguments.  A data
    pointer is modelled by the bytes it points to. *)
Inductive rom_call :=
| ROM_SPIUnlock
| SPI_read_status_high
| SPI_write_status (status : Z)
| SPIWrite (addr : Z) (data : list Z) (len : Z)
| esp_rom_spiflash_write_encrypted (addr : Z) (data : list Z) (len : Z)
| SPI_Encrypt_Write (addr : Z) (data : list Z) (len : Z)
| SPI_Write_Encrypt_Enable
| SPI_Write_Encrypt_Disable.

(** One interaction with the hardware.  [Rom c ret out]: the routine
    returned [ret] and stored [out] through its result pointer (only
    [SPI_read_status_high] has one). *)
Inductive event :=
| RdReg (r : reg) (v : Z)
| WrReg (r : reg) (v : Z)
| Rom (c : rom_call) (ret : Z) (out : Z).

(** Newest event first. *)
Definition trace := list event.

(** What one call of [tinfl_decompress] hands back: its status, the
    number of input bytes consumed and of output bytes produced (the
    values left in [*pIn_buf_size] and [*pOut_buf_size]), the output
    buffer and the decompressor context. *)
Record tinfl_result (D : Type) := mk_tinfl_result {
  t_status : Z;
  t_in : Z;
  t_out : Z;
  t_buf : list Z;
  t_inflator : D
}.
Arguments mk_tinfl_result {D}.
Arguments t_status {D}.
Arguments t_in {D}.
Arguments t_out {D}.
Arguments t_buf {D}.
Arguments t_inflator {D}.

(** Everything the file takes from its absent headers and from the
    hardware: the build switches, the constants of [soc_support.h],
    [rom_functions.h] and [miniz.h], the inflate engine and the answers
    of the SPI controller. *)
Class Target := {
  ESP8266 : bool;
  ESP32 : bool;
  ESP32_OR_LATER : bool;
  ESP32S2_OR_LATER : bool;

  SPI_ST : Z;
  SPI_FLASH_RDSR : Z;
  SPI_FLASH_WREN : Z;
  SPI_FLASH_SE : Z;
  SPI_FLASH_BE : Z;
  SPI_WRSR_2B : Z;
  SPI_FLASH_RESULT_OK : Z;
  SPI_FLASH_RESULT_ERR : Z;

  TINFL_STATUS_DONE : Z;
  TINFL_STATUS_NEEDS_MORE_INPUT : Z;
  TINFL_FLAG_PARSE_ZLIB_HEADER : Z;
  TINFL_FLAG_HAS_MORE_INPUT : Z;
  tinfl_decompressor : Type;
  tinfl_init : tinfl_decompressor -> tinfl_decompressor;
  (* inflator, input bytes, in_bytes, out_buf, offset of next_out,
     out_bytes, flags *)
  tinfl_decompress :
    tinfl_decompressor -> list Z -> Z -> list Z -> Z -> Z -> Z ->
    tinfl_result tinfl_decompressor;

  reg_value : trace -> reg -> Z;
  rom_reply : trace -> rom_call -> Z * Z
}.

(** Modelled from the spec: [FLASH_SECTOR_SIZE] of [stub_flasher.h], which
    is not part of the sources; the spec fixes the sector at 4 KiB. *)
Definition FLASH_SECTOR_SIZE : Z := 4096.

(** Modelled from the spec: [SECTORS_PER_BLOCK] of [stub_flasher.h], which
    is not part of the sources; the spec fixes the block at 64 KiB, that
    is 16 sectors. *)
Definition SECTORS_PER_BLOCK : Z := 16.

(** [sizeof(out_buf)] in [handle_flash_deflated_data]. *)
Definition OUT_BUF_SIZE : Z := 32768.

(** SPI status bits *)
Definition STATUS_WIP_BIT : Z := Z.shiftl 1 0.
Definition STATUS_QIE_BIT : Z := Z.shiftl 1 9.

Section Model.
Context {T : Target}.

(** ** Local flashing state: the struct [fs] *)

Record flash_state := mk_fs {
  in_flash_mode : bool;
  next_write : Z;
  next_erase_sector : Z;
  remaining : Z;
  remaining_erase_sector : Z;
  last_error : esp_command_error;
  inflator : tinfl_decompressor;
  remaining_compressed : Z
}.

(** The whole machine: [fs], the two statics of
    [handle_flash_deflated_data] ([next_out] as an offset into [out_buf])
    and the hardware history. *)
Record stub := mk_stub {
  fs : flash_state;
  out_buf : list Z;
  next_out : Z;
  hw : trace
}.

Definition set_fs (f : flash_state -> flash_state) (s : stub) : stub :=
  mk_stub (f (fs s)) (out_buf s) (next_out s) (hw s).

Definition set_hw (t : trace) (s : stub) : stub :=
  mk_stub (fs s) (out_buf s) (next_out s) t.

Definition set_in_flash_mode (b : bool) (f : flash_state) :=
  mk_fs b (next_write f) (next_erase_sector f) (remaining f)
        (remaining_erase_sector f) (last_error f) (inflator f)
        (remaining_compressed f).
Definition set_next_write (v : Z) (f : flash_state) :=
  mk_fs (in_flash_mode f) v (next_erase_sector f) (remaining f)
        (remaining_erase_sector f) (last_error f) (inflator f)
        (remaining_compressed f).
Definition set_next_erase_sector (v : Z) (f : flash_state) :=
  mk_fs (in_flash_mode f) (next_write f) v (remaining f)
        (remaining_erase_sector f) (last_error f) (inflator f)
        (remaining_compressed f).
Definition set_remaining (v : Z) (f : flash_state) :=
  mk_fs (in_flash_mode f) (next_write f) (next_erase_sector f) v
        (remaining_erase_sector f) (last_error f) (inflator f)
        (remaining_compressed f).
Definition set_remaining_erase_sector (v : Z) (f : flash_state) :=
  mk_fs (in_flash_mode f) (next_write f) (next_erase_sector f) (remaining f)
        v (last_error f) (inflator f) (remaining_compressed f).
Definition set_last_error (e : esp_command_error) (f : flash_state) :=
  mk_fs (in_flash_mode f) (next_write f) (next_erase_sector f) (remaining f)
        (remaining_erase_sector f) e (inflator f) (remaining_compressed f).
Definition set_inflator (d : tinfl_decompressor) (f : flash_state) :=
  mk_fs (in_flash_mode f) (next_write f) (next_erase_sector f) (remaining f)
        (remaining_erase_sector f) (last_error f) d (remaining_compressed f).
Definition set_remaining_compressed (v : Z) (f : flash_state) :=
  mk_fs (in_flash_mode f) (next_write f) (next_erase_sector f) (remaining f)
        (remaining_erase_sector f) (last_error f) (inflator f) v.

(** ** Computations: fuel, state, possible divergence *)

Definition M (A : Type) : Type := nat -> stub -> option (A * stub).

Definition ret {A} (a : A) : M A := fun _ s => Some (a, s).

Definition bind {A B} (m : M A) (k : A -> M B) : M B :=
  fun n s => match m n s with
             | Some (a, s1) => k a n s1
             | None => None
             end.

Definition get : M stub := fun _ s => Some (s, s).
Definition modify (f : stub -> stub) : M unit := fun _ s => Some (tt, f s).

(** [k] turns of a loop with local variables [l]. *)
Fixpoint iter {L} (k : nat) (c : L -> stub -> option (bool * stub))
         (b : L -> stub -> option (L * stub)) (l : L) (s : stub)
  : option (L * stub) :=
  match k with
  | O => None
  | S k' =>
      match c l s with
      | None => None
      | Some (false, s1) => Some (l, s1)
      | Some (true, s1) =>
          match b l s1 with
          | None => None
          | Some (l1, s2) => iter k' c b l1 s2
          end
      end
  end.

(** [while (c) { b }]: at most [fuel] tests of the condition. *)
Definition while_ {L} (c : L -> M bool) (b : L -> M L) (l : L) : M L :=
  fun n s => iter n (fun l => c l n) (fun l => b l n) l s.

End Model.

Declare Scope stub_scope.
Delimit Scope stub_scope with stub.
Notation "x <- m ;; k" := (bind m (fun x => k))
  (at level 61, m at next level, right associativity) : stub_scope.
Notation "m ;; k" := (bind m (fun _ => k))
  (at level 61, right associativity) : stub_scope.
Open Scope stub_scope.

Section Code.
Context {T : Target}.

(** ** Register access and ROM calls *)

Definition READ_REG (r : reg) : M Z :=
  fun _ s => let v := reg_value (hw s) r in
             Some (v, set_hw (RdReg r v :: hw s) s).

Definition WRITE_REG (r : reg) (v : Z) : M unit :=
  fun _ s => Some (tt, set_hw (WrReg r v :: hw s) s).

(** [REG_SET_MASK(reg, mask)]: read, or in the mask, write back. *)
Definition REG_SET_MASK (r : reg) (mask : Z) : M unit :=
  v <- READ_REG r ;; WRITE_REG r (Z.lor v mask).

(** A ROM routine: its return value and what it stored through its
    result pointer. *)
Definition rom (c : rom_call) : M (Z * Z) :=
  fun _ s => let r := rom_reply (hw s) c in
             Some (r, set_hw (Rom c (fst r) (snd r) :: hw s) s).

(** A loop without local variables. *)
Definition spin (c : M bool) (b : M unit) : M unit :=
  while_ (fun _ : unit => c) (fun _ : unit => b) tt.

(** [while (READ_REG(SPI_CMD_REG) != 0) { }] *)
Definition wait_cmd_done : M unit :=
  spin (v <- READ_REG SPI_CMD_REG ;; ret (negb (v =? 0))) (ret tt).

(** Wait for the SPI state machine to be ready, ie no command in progress
    in the internal host. *)
Definition spi_wait_ready : M unit :=
  spin (v <- READ_REG SPI_EXT2_REG ;; ret (negb (Z.land v SPI_ST =? 0)))
       (ret tt) ;;
  if ESP32_OR_LATER then
    spin (v <- READ_REG SPI0_EXT2_REG ;; ret (negb (Z.land v SPI_ST =? 0)))
         (ret tt)
  else ret tt.

(** Returns true if the spiflash is ready for its next write operation. *)
Definition spiflash_is_ready : M bool :=
  spi_wait_ready ;;
  WRITE_REG SPI_RD_STATUS_REG 0 ;;
  WRITE_REG SPI_CMD_REG SPI_FLASH_RDSR ;;
  wait_cmd_done ;;
  status_value <- READ_REG SPI_RD_STATUS_REG ;;
  ret (Z.land status_value STATUS_WIP_BIT =? 0).

(** [while (!spiflash_is_ready()) { }] *)
Definition wait_flash_idle : M unit :=
  spin (r <- spiflash_is_ready ;; ret (negb r)) (ret tt).

Definition spi_write_enable : M unit :=
  wait_flash_idle ;;
  WRITE_REG SPI_CMD_REG SPI_FLASH_WREN ;;
  wait_cmd_done.

(** [SPIUnlock()]: the stub's replacement on ESP32 and later, the ROM
    routine otherwise. *)
Definition SPIUnlock : M Z :=
  if ESP32_OR_LATER then
    spi_wait_ready ;;
    r <- rom SPI_read_status_high ;;
    if negb (fst r =? SPI_FLASH_RESULT_OK) then ret SPI_FLASH_RESULT_ERR
    else
      (* Clear all bits except QIE, if it is set. *)
      let status := Z.land (snd r) STATUS_QIE_BIT in
      spi_write_enable ;;
      REG_SET_MASK SPI_CTRL_REG SPI_WRSR_2B ;;
      w <- rom (SPI_write_status status) ;;
      if negb (fst w =? SPI_FLASH_RESULT_OK) then ret SPI_FLASH_RESULT_ERR
      else ret SPI_FLASH_RESULT_OK
  else
    r <- rom ROM_SPIUnlock ;; ret (fst r).

(** ** The session handlers *)

Definition is_in_flash_mode (s : stub) : bool := in_flash_mode (fs s).

Definition get_flash_error (s : stub) : esp_command_error := last_error (fs s).

(** The six assignments that open [handle_flash_begin]. *)
Definition begin_fs (total_size offset : Z) (f : flash_state) : flash_state :=
  let f := set_in_flash_mode true f in
  let f := set_next_write offset f in
  let f := set_next_erase_sector (i32 (offset / FLASH_SECTOR_SIZE)) f in
  let f := set_remaining total_size f in
  let f := set_remaining_erase_sector
             (i32 (u32 (u32 (offset mod FLASH_SECTOR_SIZE) + total_size
                        + FLASH_SECTOR_SIZE - 1) / FLASH_SECTOR_SIZE)) f in
  set_last_error ESP_OK f.

Definition handle_flash_begin (total_size offset : Z) : M esp_command_error :=
  modify (set_fs (begin_fs total_size offset)) ;;
  r <- SPIUnlock ;;
  if negb (r =? 0) then ret ESP_FAILED_SPI_UNLOCK else ret ESP_OK.

Definition handle_flash_deflated_begin
           (uncompressed_size compressed_size offset : Z)
  : M esp_command_error :=
  err <- handle_flash_begin uncompressed_size offset ;;
  modify (set_fs (fun f => set_inflator (tinfl_init (inflator f)) f)) ;;
  modify (set_fs (set_remaining_compressed compressed_size)) ;;
  ret err.

(** Erase the next sector or block (depending if we're at a block
    boundary). *)
Definition start_next_erase : M unit :=
  s <- get ;;
  if remaining_erase_sector (fs s) =? 0 then ret tt (* nothing left to erase *)
  else
    ready <- spiflash_is_ready ;;
    if negb ready then ret tt (* caller will call again if needed *)
    else
      spi_write_enable ;;
      s <- get ;;
      let block :=
        (SECTORS_PER_BLOCK <=? remaining_erase_sector (fs s))
        && (Z.rem (next_erase_sector (fs s)) SECTORS_PER_BLOCK =? 0) in
      (* perform a 64KB block erase if we have space for it *)
      let command := if block then SPI_FLASH_BE else SPI_FLASH_SE in
      let sectors_to_erase := if block then SECTORS_PER_BLOCK else 1 in
      let addr := u32 (next_erase_sector (fs s) * FLASH_SECTOR_SIZE) in
      spi_wait_ready ;;
      WRITE_REG SPI_ADDR_REG (Z.land addr 16777215) ;;
      WRITE_REG SPI_CMD_REG command ;;
      wait_cmd_done ;;
      modify (set_fs (fun f =>
        set_remaining_erase_sector
          (i32 (remaining_erase_sector f - sectors_to_erase)) f)) ;;
      modify (set_fs (fun f =>
        set_next_erase_sector
          (i32 (next_erase_sector f + sectors_to_erase)) f)).

(** The erase loop of the two write paths:
    [while (fs.remaining_erase_sector > 0
            && fs.next_erase_sector <= last_sector) start_next_erase();] *)
Definition erase_ahead (last_sector : Z) : M unit :=
  spin (s <- get ;;
        ret ((0 <? remaining_erase_sector (fs s))
             && (next_erase_sector (fs s) <=? last_sector)))
       start_next_erase.

(** Trim the final block, as it may have padding beyond the length we
    are writing. *)
Definition clamp (length : Z) (s : stub) : Z :=
  if remaining (fs s) <? length then remaining (fs s) else length.

(** [fs.next_write += length; fs.remaining -= length;] *)
Definition advance (length : Z) (f : flash_state) : flash_state :=
  let f := set_next_write (u32 (next_write f + length)) f in
  set_remaining (u32 (remaining f - length)) f.

(** Write data to flash (either direct for non-compressed upload, or
    freshly decompressed.)  Erases as it goes. *)
Definition handle_flash_data (data_buf : list Z) (length : Z) : M unit :=
  s <- get ;;
  let length := clamp length s in
  if length =? 0 then ret tt
  else
    (* what sector is this write going to end in?
       make sure we've erased at least that far. *)
    let last_sector :=
      i32 (u32 (next_write (fs s) + length) / FLASH_SECTOR_SIZE) in
    erase_ahead last_sector ;;
    wait_flash_idle ;;
    (* do the actual write *)
    s <- get ;;
    r <- rom (SPIWrite (next_write (fs s))
                       (firstn (Z.to_nat length) data_buf) length) ;;
    (if negb (fst r =? 0)
     then modify (set_fs (set_last_error ESP_FAILED_SPI_OP))
     else ret tt) ;;
    modify (set_fs (advance length)).

(** Write encrypted data to flash.  Built only when [ESP8266] is off. *)
Definition handle_flash_encrypt_data (data_buf : list Z) (length : Z) : M unit :=
  (if ESP32S2_OR_LATER then _ <- rom SPI_Write_Encrypt_Enable ;; ret tt
   else ret tt) ;;
  s <- get ;;
  let length := clamp length s in
  if length =? 0 then ret tt
  else
    let last_sector :=
      i32 (u32 (next_write (fs s) + length) / FLASH_SECTOR_SIZE) in
    erase_ahead last_sector ;;
    wait_flash_idle ;;
    (* do the actual write *)
    s <- get ;;
    r <- rom (if ESP32
              then esp_rom_spiflash_write_encrypted (next_write (fs s))
                     (firstn (Z.to_nat length) data_buf) length
              else SPI_Encrypt_Write (next_write (fs s))
                     (firstn (Z.to_nat length) data_buf) length) ;;
    (if negb (fst r =? 0)
     then modify (set_fs (set_last_error ESP_FAILED_SPI_OP))
     else ret tt) ;;
    modify (set_fs (advance length)) ;;
    (if ESP32S2_OR_LATER then _ <- rom SPI_Write_Encrypt_Disable ;; ret tt
     else ret tt).

(** Local variables of the loop in [handle_flash_deflated_data]. *)
Record deflate_locals := mk_locals {
  l_data : list Z;
  l_length : Z;
  l_status : Z
}.

Definition deflate_cond (l : deflate_locals) : M bool :=
  s <- get ;;
  ret ((0 <? l_length l) && (0 <? remaining (fs s))
       && (TINFL_STATUS_DONE <? l_status l)).

Definition deflate_body (l : deflate_locals) : M deflate_locals :=
  s <- get ;;
  let in_bytes := l_length l in (* input remaining *)
  let out_bytes := OUT_BUF_SIZE - next_out s in (* output space remaining *)
  let flags :=
    if l_length l <? remaining_compressed (fs s)
    then Z.lor TINFL_FLAG_PARSE_ZLIB_HEADER TINFL_FLAG_HAS_MORE_INPUT
    else TINFL_FLAG_PARSE_ZLIB_HEADER in
  (* start an opportunistic erase *)
  start_next_erase ;;
  s <- get ;;
  let r := tinfl_decompress (inflator (fs s)) (l_data l) in_bytes
                            (out_buf s) (next_out s) out_bytes flags in
  let status := t_status r in
  modify (fun s =>
    mk_stub (set_remaining_compressed
               (u32 (remaining_compressed (fs s) - t_in r))
               (set_inflator (t_inflator r) (fs s)))
            (t_buf r) (next_out s + t_out r) (hw s)) ;;
  s <- get ;;
  let bytes_in_out_buf := next_out s in
  (if (status <=? TINFL_STATUS_DONE) || (bytes_in_out_buf =? OUT_BUF_SIZE)
   then
     (* Output buffer full, or done *)
     handle_flash_data (out_buf s) (u32 bytes_in_out_buf) ;;
     modify (fun s => mk_stub (fs s) (out_buf s) 0 (hw s))
   else ret tt) ;;
  ret (mk_locals (skipn (Z.to_nat (t_in r)) (l_data l))
                 (u32 (l_length l - t_in r)) status).

(** The bookkeeping after the loop. *)
Definition deflate_finish (status : Z) : M unit :=
  (if status <? TINFL_STATUS_DONE
   then modify (set_fs (set_last_error ESP_INFLATE_ERROR)) else ret tt) ;;
  s <- get ;;
  (if (status =? TINFL_STATUS_DONE) && (0 <? remaining (fs s))
   then modify (set_fs (set_last_error ESP_NOT_ENOUGH_DATA)) else ret tt) ;;
  s <- get ;;
  (if negb (status =? TINFL_STATUS_DONE) && (remaining (fs s) =? 0)
   then modify (set_fs (set_last_error ESP_TOO_MUCH_DATA)) else ret tt).

Definition deflate_loop (data_buf : list Z) (length : Z) : M deflate_locals :=
  while_ deflate_cond deflate_body
         (mk_locals data_buf length TINFL_STATUS_NEEDS_MORE_INPUT).

Definition handle_flash_deflated_data (data_buf : list Z) (length : Z) : M unit :=
  l <- deflate_loop data_buf length ;;
  deflate_finish (l_status l).

Definition handle_flash_end : M esp_command_error :=
  s <- get ;;
  if negb (in_flash_mode (fs s)) then ret ESP_NOT_IN_FLASH_MODE
  else if 0 <? remaining (fs s) then ret ESP_NOT_ENOUGH_DATA
  else
    modify (set_fs (set_in_flash_mode false)) ;;
    ret (last_error (fs s)).

End Code.

(** ** A simulated target

    An ESP32-class build on always-ready hardware, used to run the model
    on concrete inputs.  [unlock_ok] and [write_ok] say whether the status
    write of the unlock sequence and the program primitive succeed. *)

(** A toy inflate engine with the call contract of [tinfl_decompress]:
    byte 0 ends the stream, byte 255 is a corrupt code, every other byte
    is a literal.  It stops when the input is used up (needs more input,
    all [in_bytes] consumed) or when the output space is (has more
    output).  Result: status, bytes consumed, bytes produced. *)
Fixpoint toy_scan (input : list Z) (room : nat) (acc : list Z) (consumed : Z)
  : Z * Z * list Z :=
  match input with
  | [] => (1, consumed, rev acc)
  | b :: rest =>
      if b =? 0 then (0, consumed + 1, rev acc)
      else if b =? 255 then (-1, consumed + 1, rev acc)
      else match room with
           | O => (2, consumed, rev acc)
           | S room' => toy_scan rest room' (b :: acc) (consumed + 1)
           end
  end.

(** The engine's context is 0 while streaming, 1 once the stream ended,
    2 once it failed; an ended or failed engine repeats its verdict. *)
Definition toy_decompress (d : Z) (input : list Z) (in_bytes : Z)
           (buf : list Z) (off out_bytes flags : Z) : tinfl_result Z :=
  if d =? 1 then mk_tinfl_result 0 0 0 buf d
  else if d =? 2 then mk_tinfl_result (-1) 0 0 buf d
  else
    let '(st, c, out) :=
      toy_scan (firstn (Z.to_nat in_bytes) input) (Z.to_nat out_bytes) [] 0 in
    mk_tinfl_result st (if st =? 1 then in_bytes else c) (Z.of_nat (length out))
      (firstn (Z.to_nat off) buf ++ out
       ++ skipn (Z.to_nat off + length out) buf)
      (if st =? 0 then 1 else if st =? -1 then 2 else 0).

Definition sim (unlock_ok write_ok : bool) : Target := {|
  ESP8266 := false;
  ESP32 := true;
  ESP32_OR_LATER := true;
  ESP32S2_OR_LATER := false;
  SPI_ST := 7;
  SPI_FLASH_RDSR := 134217728;
  SPI_FLASH_WREN := 1073741824;
  SPI_FLASH_SE := 16777216;
  SPI_FLASH_BE := 8388608;
  SPI_WRSR_2B := 4194304;
  SPI_FLASH_RESULT_OK := 0;
  SPI_FLASH_RESULT_ERR := 1;
  TINFL_STATUS_DONE := 0;
  TINFL_STATUS_NEEDS_MORE_INPUT := 1;
  TINFL_FLAG_PARSE_ZLIB_HEADER := 1;
  TINFL_FLAG_HAS_MORE_INPUT := 2;
  tinfl_decompressor := Z;
  tinfl_init := fun _ => 0;
  tinfl_decompress := toy_decompress;
  reg_value := fun _ _ => 0;
  rom_reply := fun _ c =>
    match c with
    | SPI_write_status _ => (if unlock_ok then 0 else 1, 0)
    | SPIWrite _ _ _ => (if write_ok then 0 else 1, 0)
    | _ => (0, 0)
    end
|}.

(** The machine at firmware start: [fs] zeroed, [next_out = out_buf],
    nothing happened yet. *)
Definition boot (unlock_ok write_ok : bool) : @stub (sim unlock_ok write_ok) :=
  @mk_stub (sim unlock_ok write_ok)
    (@mk_fs (sim unlock_ok write_ok) false 0 0 0 0 ESP_OK 0 0)
    (repeat 0 (Z.to_nat OUT_BUF_SIZE)) 0 [].

(** Observing a run of [m] with [fuel] from [s]: whether it returned, the
    machine it left (the initial one if it did not return) and its value
    ([d] if it did not return). *)
Definition finishes {T : Target} {A} (m : M A) (fuel : nat) (s : stub) : bool :=
  match m fuel s with Some _ => true | None => false end.

Definition run {T : Target} {A} (m : M A) (fuel : nat) (s : stub) : stub :=
  match m fuel s with Some (_, s') => s' | None => s end.

Definition value {T : Target} {A} (d : A) (m : M A) (fuel : nat) (s : stub) : A :=
  match m fuel s with Some (a, _) => a | None => d end.

(** * The vocabulary of the statements

    Everything the lemmas and theorems below are stated with: what it
    means for a computation to return or to keep a relation, the histories
    the driver may leave, the erase window and the session invariant, the
    data operations as a host issues them, and the contract of the inflate
    engine. *)

Section Vocabulary.
Context {T : Target}.

(** More fuel never changes a result. *)
Definition mono {A} (m : M A) : Prop :=
  forall n n' s r, (n <= n')%nat -> m n s = Some r -> m n' s = Some r.

(** Some amount of fuel lets [m] return from [s]. *)
Definition returns {A} (m : M A) (s : stub) : Prop :=
  exists n r, m n s = Some r.

(** Every completed run of [m] relates its initial and final state by [R]. *)
Definition respects (R : stub -> stub -> Prop) {A} (m : M A) : Prop :=
  forall n s a s', m n s = Some (a, s') -> R s s'.

(** Register reads: polling. *)
Definition is_poll (e : event) : Prop :=
  match e with RdReg _ _ => True | _ => False end.

(** Register traffic, as opposed to a ROM routine. *)
Definition no_rom (e : event) : Prop :=
  match e with Rom _ _ _ => False | _ => True end.

(** What checking the flash status and enabling writes puts on the bus:
    reads, the status-register reset, and the two commands RDSR and WREN.
    No address is latched, nothing is erased or programmed. *)
Definition quiet (e : event) : Prop :=
  match e with
  | RdReg _ _ => True
  | WrReg SPI_RD_STATUS_REG v => v = 0
  | WrReg SPI_CMD_REG v => v = SPI_FLASH_RDSR \/ v = SPI_FLASH_WREN
  | _ => False
  end.

(** The software state ([fs] and the statics) is untouched. *)
Definition same_soft (s s' : stub) : Prop :=
  fs s' = fs s /\ out_buf s' = out_buf s /\ next_out s' = next_out s.

(** The history grew by events that all satisfy [ok]. *)
Definition emitted (ok : event -> Prop) (s s' : stub) : Prop :=
  exists seg, hw s' = seg ++ hw s /\ Forall ok seg.

(** Responsive hardware: the three busy-waits of the driver end from
    every history.  The SPI state machine becomes ready, a command
    written to [SPI_CMD_REG] is cleared by the controller, and the flash
    chip drops its write-in-progress bit. *)
Definition Responsive : Prop :=
  forall s, returns spi_wait_ready s /\ returns wait_cmd_done s
            /\ returns wait_flash_idle s.

(** The tie-break of [start_next_erase]: a 64 KiB block erase if at least
    a block's worth of sectors remains and the cursor is block-aligned. *)
Definition erase_block (f : flash_state) : bool :=
  (SECTORS_PER_BLOCK <=? remaining_erase_sector f)
  && (Z.rem (next_erase_sector f) SECTORS_PER_BLOCK =? 0).

Definition erase_command (f : flash_state) : Z :=
  if erase_block f then SPI_FLASH_BE else SPI_FLASH_SE.

Definition erase_address (f : flash_state) : Z :=
  Z.land (u32 (next_erase_sector f * FLASH_SECTOR_SIZE)) 16777215.

(** [fs] after one erase was started. *)
Definition erased (f : flash_state) : flash_state :=
  let k := if erase_block f then SECTORS_PER_BLOCK else 1 in
  set_next_erase_sector (i32 (next_erase_sector f + k))
    (set_remaining_erase_sector (i32 (remaining_erase_sector f - k)) f).

(** The history of a call that started an erase: status polls and write
    enable, then the address and the erase command, then polls until the
    command is taken. *)
Definition erase_issued (s s' : stub) : Prop :=
  exists pre post,
    hw s' = post ++ WrReg SPI_CMD_REG (erase_command (fs s))
                 :: WrReg SPI_ADDR_REG (erase_address (fs s))
                 :: pre ++ hw s
    /\ Forall quiet pre /\ Forall is_poll post.

(** The sectors [next_erase_sector .. E-1] are still to be erased. *)
Definition erase_window (E : Z) (f : flash_state) : Prop :=
  0 <= remaining_erase_sector f /\ 0 <= next_erase_sector f
  /\ next_erase_sector f + remaining_erase_sector f = E.

(** Only the two erase counters may differ. *)
Definition same_but_erase (f f' : flash_state) : Prop :=
  in_flash_mode f' = in_flash_mode f /\ next_write f' = next_write f
  /\ remaining f' = remaining f /\ last_error f' = last_error f
  /\ inflator f' = inflator f
  /\ remaining_compressed f' = remaining_compressed f.

(** What a run of the scheduler may do to the machine. *)
Definition erase_rel (E : Z) (s s' : stub) : Prop :=
  erase_window E (fs s) ->
  erase_window E (fs s') /\ same_but_erase (fs s) (fs s')
  /\ remaining_erase_sector (fs s') <= remaining_erase_sector (fs s)
  /\ out_buf s' = out_buf s /\ next_out s' = next_out s
  /\ emitted no_rom s s'.

(** The test of the erase loop. *)
Definition erase_needed (last : Z) (s : stub) : bool :=
  (0 <? remaining_erase_sector (fs s))
  && (next_erase_sector (fs s) <=? last).

(** The sector the write is going to end in, as the code computes it. *)
Definition last_sector (s : stub) (len : Z) : Z :=
  i32 (u32 (next_write (fs s) + len) / FLASH_SECTOR_SIZE).

(** [fs] after the program primitive returned [ret]. *)
Definition programmed (len ret : Z) (f : flash_state) : flash_state :=
  advance len (if ret =? 0 then f else set_last_error ESP_FAILED_SPI_OP f).

(** The encrypted path differs by the program primitive and by the
    enable / disable latch around it on ESP32-S2 and later. *)
Definition encrypt_primitive (addr : Z) (data : list Z) (len : Z) : rom_call :=
  if ESP32 then esp_rom_spiflash_write_encrypted addr data len
  else SPI_Encrypt_Write addr data len.

(** The region [offset, offset + total_size) does not wrap the 32-bit
    arithmetic of [handle_flash_begin] and of the write paths. *)
Definition valid_region (total_size offset : Z) : Prop :=
  0 <= total_size /\ 0 <= offset
  /\ offset mod FLASH_SECTOR_SIZE + total_size + FLASH_SECTOR_SIZE - 1
     < 4294967296
  /\ offset + total_size < 4294967296.

(** First sector past the region. *)
Definition end_sector (total_size offset : Z) : Z :=
  offset / FLASH_SECTOR_SIZE
  + (offset mod FLASH_SECTOR_SIZE + total_size + FLASH_SECTOR_SIZE - 1)
    / FLASH_SECTOR_SIZE.

(** The machine is inside a session begun with [total_size] and [offset]. *)
Record in_session (total_size offset : Z) (s : stub) : Prop := {
  ses_region : valid_region total_size offset;
  ses_active : in_flash_mode (fs s) = true;
  ses_cursor : offset <= next_write (fs s);
  ses_remaining : 0 <= remaining (fs s);
  ses_bytes : next_write (fs s) + remaining (fs s) = offset + total_size;
  ses_window : erase_window (end_sector total_size offset) (fs s)
}.

(** The erase frontier covers a write of [len] bytes at the write cursor:
    nothing is left to erase or the erase cursor is past the last sector
    the write touches, and the frontier, as a byte address, is not below
    the end of the write. *)
Definition frontier_covers (len : Z) (s : stub) : Prop :=
  (remaining_erase_sector (fs s) = 0
   \/ (next_write (fs s) + len - 1) / FLASH_SECTOR_SIZE
      < next_erase_sector (fs s))
  /\ next_write (fs s) + len
     <= next_erase_sector (fs s) * FLASH_SECTOR_SIZE.

(** What the scheduler does to any machine: only the erase counters and
    the history change, and no ROM routine is called. *)
Definition erase_frame (s s' : stub) : Prop :=
  same_but_erase (fs s) (fs s')
  /\ out_buf s' = out_buf s /\ next_out s' = next_out s
  /\ emitted no_rom s s'.

(** [r] is the ceiling of [x / d]. *)
Definition is_ceil_div (r x d : Z) : Prop := (r - 1) * d < x <= r * d.

(** A relation on [fs], read on machines. *)
Definition lifted (Rf : flash_state -> flash_state -> Prop) (s s' : stub)
  : Prop :=
  Rf (fs s) (fs s').

(** The call contract of the inflate engine: it consumes and produces no
    more than it was offered, and it asks to be called again only when it
    used up its input or filled its output space. *)
Definition tinfl_contract : Prop :=
  forall d input in_bytes buf off out_bytes flags,
    0 <= in_bytes -> 0 <= out_bytes ->
    let r := tinfl_decompress d input in_bytes buf off out_bytes flags in
    0 <= t_in r <= in_bytes /\ 0 <= t_out r <= out_bytes
    /\ (TINFL_STATUS_DONE < t_status r ->
        t_in r = in_bytes \/ t_out r = out_bytes).

(** One call of the inflate engine in [deflate_body]: [s] is the machine
    at the top of the turn, [se] the machine after the opportunistic
    erase. *)
Definition inflate_call (l : deflate_locals) (s se : stub)
  : tinfl_result tinfl_decompressor :=
  tinfl_decompress (inflator (fs se)) (l_data l) (l_length l)
    (out_buf se) (next_out se) (OUT_BUF_SIZE - next_out s)
    (if l_length l <? remaining_compressed (fs s)
     then Z.lor TINFL_FLAG_PARSE_ZLIB_HEADER TINFL_FLAG_HAS_MORE_INPUT
     else TINFL_FLAG_PARSE_ZLIB_HEADER).

(** The machine after the engine returned and the cursors moved. *)
Definition inflated (r : tinfl_result tinfl_decompressor) (se : stub) : stub :=
  mk_stub (set_remaining_compressed
             (u32 (remaining_compressed (fs se) - t_in r))
             (set_inflator (t_inflator r) (fs se)))
          (t_buf r) (next_out se + t_out r) (hw se).

Definition flush_due (r : tinfl_result tinfl_decompressor) (sm : stub) : bool :=
  (t_status r <=? TINFL_STATUS_DONE) || (next_out sm =? OUT_BUF_SIZE).

Definition deflate_continues (l : deflate_locals) (s : stub) : bool :=
  (0 <? l_length l) && (0 <? remaining (fs s))
  && (TINFL_STATUS_DONE <? l_status l).

(** What a relation on [fs] must satisfy to be kept by every data
    operation. *)
Record data_invariant (Rf : flash_state -> flash_state -> Prop)
  : Prop := {
  di_refl : forall f, Rf f f;
  di_trans : forall f1 f2 f3, Rf f1 f2 -> Rf f2 f3 -> Rf f1 f3;
  di_erased : forall f, remaining_erase_sector f <> 0 -> Rf f (erased f);
  di_programmed :
    forall f length ret,
      0 <= length ->
      (if remaining f <? length then remaining f else length) <> 0 ->
      Rf f (programmed (if remaining f <? length then remaining f else length)
                       ret f);
  di_error : forall f e, e <> ESP_OK -> Rf f (set_last_error e f);
  di_inflate : forall f d v, Rf f (set_remaining_compressed v (set_inflator d f))
}.

(** The data-phase calls a host can make, and a sequence of them. *)
Inductive data_op :=
| PlainData (data : list Z) (length : Z)
| EncryptedData (data : list Z) (length : Z)
| DeflatedData (data : list Z) (length : Z).

Definition op_length (o : data_op) : Z :=
  match o with
  | PlainData _ n | EncryptedData _ n | DeflatedData _ n => n
  end.

Definition do_op (o : data_op) : M unit :=
  match o with
  | PlainData d n => handle_flash_data d n
  | EncryptedData d n => handle_flash_encrypt_data d n
  | DeflatedData d n => handle_flash_deflated_data d n
  end.

Fixpoint data_phase (ops : list data_op) : M unit :=
  match ops with
  | [] => ret tt
  | o :: rest => do_op o ;; data_phase rest
  end.

(** The sum of cursor and bytes remaining, in the 32-bit arithmetic of
    the code, and the cursor staying a 32-bit value. *)
Definition bytes_kept (f f' : flash_state) : Prop :=
  u32 (next_write f' + remaining f') = u32 (next_write f + remaining f)
  /\ (0 <= next_write f < 4294967296 -> 0 <= next_write f' < 4294967296).

(** A latched error is not cleared. *)
Definition error_kept (f f' : flash_state) : Prop :=
  last_error f <> ESP_OK -> last_error f' <> ESP_OK.

(** The session invariant, as a relation on [fs]. *)
Definition session_kept (total_size offset : Z) (f f' : flash_state) : Prop :=
  forall s s', fs s = f -> fs s' = f' ->
    in_session total_size offset s -> in_session total_size offset s'.

(** [remaining] is a 32-bit value and [next_out] points into [out_buf]. *)
Definition well_typed (s : stub) : Prop :=
  0 <= remaining (fs s) < 4294967296 /\ 0 <= next_out s < OUT_BUF_SIZE.

Definition remaining_ranged (f f' : flash_state) : Prop :=
  0 <= remaining f < 4294967296 -> 0 <= remaining f' < 4294967296.

Definition statics_kept (s s' : stub) : Prop :=
  out_buf s' = out_buf s /\ next_out s' = next_out s.

(** A whole data phase: begin, then the calls of [ops]. *)
Definition flash_session (total_size offset : Z) (ops : list data_op) : M unit :=
  _ <- handle_flash_begin total_size offset ;; data_phase ops.

(** The exact accounting of a region that ends below 2^32. *)
Definition accounted (total_size offset : Z) (f : flash_state) : Prop :=
  0 <= remaining f /\ offset <= next_write f
  /\ next_write f + remaining f = offset + total_size.

Definition accounting_kept (total_size offset : Z) (f f' : flash_state) : Prop :=
  accounted total_size offset f -> accounted total_size offset f'.

(** The three tests of the terminal bookkeeping. *)
Definition inflate_failed (status : Z) : bool := status <? TINFL_STATUS_DONE.
Definition data_missing (status rem : Z) : bool :=
  (status =? TINFL_STATUS_DONE) && (0 <? rem).
Definition data_surplus (status rem : Z) : bool :=
  negb (status =? TINFL_STATUS_DONE) && (rem =? 0).

(** The erase counters are those of some window that ends below 2^31
    sectors.  This holds throughout every session, wrapped or not:
    [handle_flash_begin] establishes it for all 32-bit arguments and the
    data phase keeps it. *)
Definition window_open (f : flash_state) : Prop :=
  exists E, E < 2147483648 /\ erase_window E f.

(** The reads of a busy-wait on register [r] that ended: the newest read
    passed the exit test [done], every read before it failed it. *)
Definition polls_until (r : reg) (done : Z -> bool) (seg : trace) : Prop :=
  exists v rest,
    seg = RdReg r v :: rest /\ done v = true
    /\ Forall (fun e => exists w, e = RdReg r w /\ done w = false) rest.

(** Status polling only: reads, the reset of the status register and the
    RDSR command. *)
Definition status_poll (e : event) : Prop :=
  match e with
  | RdReg _ _ => True
  | WrReg SPI_RD_STATUS_REG v => v = 0
  | WrReg SPI_CMD_REG v => v = SPI_FLASH_RDSR
  | _ => False
  end.

(** The history of one status read that returned [v]: polls, the status
    register reset, the RDSR command, polls of [SPI_CMD_REG] until it
    reads 0, the read of the status register. *)
Definition status_read (v : Z) (seg : trace) : Prop :=
  exists pre post,
    seg = RdReg SPI_RD_STATUS_REG v :: post
          ++ WrReg SPI_CMD_REG SPI_FLASH_RDSR
          :: WrReg SPI_RD_STATUS_REG 0 :: pre
    /\ Forall is_poll pre
    /\ polls_until SPI_CMD_REG (fun w => w =? 0) post.

(** What [handle_flash_begin] may put on the bus: status polling, write
    enable, the control-register update and the status ROM routines.  No
    address is latched and no program primitive is called. *)
Definition unlock_traffic (e : event) : Prop :=
  match e with
  | RdReg _ _ => True
  | WrReg SPI_RD_STATUS_REG v => v = 0
  | WrReg SPI_CMD_REG v => v = SPI_FLASH_RDSR \/ v = SPI_FLASH_WREN
  | WrReg SPI_CTRL_REG _ => True
  | WrReg _ _ => False
  | Rom ROM_SPIUnlock _ _ => True
  | Rom SPI_read_status_high _ _ => True
  | Rom (SPI_write_status _) _ _ => True
  | Rom _ _ _ => False
  end.

(** A call of one of the three program primitives: address, length and
    return value. *)
Definition program_of (e : event) : option (Z * Z * Z) :=
  match e with
  | Rom (SPIWrite a _ l) ret _ => Some (a, l, ret)
  | Rom (esp_rom_spiflash_write_encrypted a _ l) ret _ => Some (a, l, ret)
  | Rom (SPI_Encrypt_Write a _ l) ret _ => Some (a, l, ret)
  | _ => None
  end.

(** The program calls of a history, oldest first. *)
Fixpoint programs (t : trace) : list (Z * Z * Z) :=
  match t with
  | [] => []
  | e :: t' =>
      programs t' ++ match program_of e with Some p => [p] | None => [] end
  end.

(** The calls [ps] tile the flash from cursor [a] with [rem] bytes
    expected to cursor [b] with [rem'] expected: each call starts where
    the one before it ended and writes a positive number of bytes, no more
    than are still expected. *)
Fixpoint tiled (a rem : Z) (ps : list (Z * Z * Z)) (b rem' : Z) : Prop :=
  match ps with
  | [] => b = a /\ rem' = rem
  | (x, len, _) :: ps' =>
      x = a /\ 0 < len <= rem /\ tiled (u32 (a + len)) (rem - len) ps' b rem'
  end.

(** A program call that returned nonzero. *)
Definition failed (p : Z * Z * Z) : Prop := snd p <> 0.

(** What a step of the data phase does to the program calls of the
    history, to the two byte cursors and to the latched error. *)
Definition program_rel (s s' : stub) : Prop :=
  0 <= remaining (fs s) < 4294967296 ->
  error_kept (fs s) (fs s')
  /\ exists ps,
      programs (hw s') = programs (hw s) ++ ps
      /\ tiled (next_write (fs s)) (remaining (fs s)) ps
               (next_write (fs s')) (remaining (fs s'))
      /\ (Exists failed ps -> last_error (fs s') <> ESP_OK).

(** The history of a call of the encryption latch routine [c], which is
    made on ESP32-S2 and later only. *)
Definition latch (c : rom_call) (seg : trace) : Prop :=
  if ESP32S2_OR_LATER then exists ret out, seg = [Rom c ret out] else seg = [].

(** The addresses written to [SPI_ADDR_REG] in a history, oldest first.
    Only [start_next_erase] writes that register, once per erase. *)
Fixpoint latched (t : trace) : list Z :=
  match t with
  | [] => []
  | WrReg SPI_ADDR_REG a :: t' => latched t' ++ [a]
  | _ :: t' => latched t'
  end.

(** Anything but a write to [SPI_ADDR_REG]. *)
Definition no_latch (e : event) : Prop :=
  match e with WrReg SPI_ADDR_REG _ => False | _ => True end.

(** The erases that take the counters from [next], [rem] to [next'],
    [rem']: each starts at the cursor, whose byte address it latches
    modulo 16 MiB, and moves it by a block if a block's worth of sectors
    remains and the cursor is block-aligned, by a sector otherwise. *)
Fixpoint erase_run (next rem : Z) (addrs : list Z) (next' rem' : Z) : Prop :=
  match addrs with
  | [] => next' = next /\ rem' = rem
  | a :: rest =>
      let k := if (SECTORS_PER_BLOCK <=? rem)
                  && (next mod SECTORS_PER_BLOCK =? 0)
               then SECTORS_PER_BLOCK else 1 in
      0 < rem /\ a = (next mod 4096) * FLASH_SECTOR_SIZE
      /\ erase_run (next + k) (rem - k) rest next' rem'
  end.

(** What a step of the data phase does to the latched addresses and to
    the erase counters, once the counters are in their session range. *)
Definition erase_plan_rel (s s' : stub) : Prop :=
  window_open (fs s) ->
  exists addrs,
    latched (hw s') = latched (hw s) ++ addrs
    /\ erase_run (next_erase_sector (fs s)) (remaining_erase_sector (fs s))
                 addrs
                 (next_erase_sector (fs s')) (remaining_erase_sector (fs s')).

(** A plain or encrypted write, as opposed to a deflated chunk. *)
Definition undeflated (o : data_op) : Prop :=
  match o with DeflatedData _ _ => False | _ => True end.

(** The bytes a sequence of data calls asks to write. *)
Definition requested (ops : list data_op) : Z :=
  fold_right (fun o acc => op_length o + acc) 0 ops.

(** All the program calls returned 0. *)
Definition all_succeeded (ps : list (Z * Z * Z)) : bool :=
  forallb (fun p => snd p =? 0) ps.

(** No data operation opens or closes a session. *)
Definition mode_kept (f f' : flash_state) : Prop :=
  in_flash_mode f' = in_flash_mode f.

(** The program calls of a step, and the error it leaves. *)
Definition write_outcome (s s' : stub) : Prop :=
  exists ps,
    programs (hw s') = programs (hw s) ++ ps
    /\ last_error (fs s')
       = (if all_succeeded ps then last_error (fs s) else ESP_FAILED_SPI_OP).

(** The cursors after a plain or encrypted write of [len] bytes. *)
Definition written (len : Z) (s s' : stub) : Prop :=
  remaining (fs s') = Z.max 0 (remaining (fs s) - len)
  /\ next_write (fs s')
     = u32 (next_write (fs s) + Z.min (remaining (fs s)) len).

(** The input cursor of the decompression loop after some turns:
    [length - l_length l] bytes were consumed. *)
Definition consumed_inv (data : list Z) (length rc0 : Z)
           (l : deflate_locals) (s : stub) : Prop :=
  0 <= l_length l <= length
  /\ l_data l = skipn (Z.to_nat (length - l_length l)) data
  /\ u32 (remaining_compressed (fs s)) = u32 (rc0 - (length - l_length l))
  /\ 0 <= next_out s < OUT_BUF_SIZE.

End Vocabulary.

(** * Scenarios on the simulated target *)

(** The machine after [handle_flash_begin(9000, 0)] at firmware start. *)
Definition session_9000 : @stub (sim true true) :=
  @run (sim true true) _ (handle_flash_begin 9000 0) 4 (boot true true).

(** A 9000-byte image. *)
Definition image_9000 : list Z := repeat 90 (Z.to_nat 9000).

(** The session opened by [handle_flash_begin(4294967295, 1)]: the sum in
    the sector count wraps and [remaining_erase_sector] is 0. *)
Definition wrapped_session : @stub (sim true true) :=
  @run (sim true true) _ (handle_flash_begin 4294967295 1) 4 (boot true true).

(** The machine on which [handle_flash_begin(100, 0)] runs [SPIUnlock],
    and the run of [SPIUnlock] with a failing status write. *)
Definition begun_100 : @stub (sim false true) :=
  @set_fs (sim false true) (begin_fs 100 0) (boot false true).

(** The session opened by [handle_flash_begin(65536, 0)]: sixteen sectors
    to erase, cursor at sector 0. *)
Definition session_block : @stub (sim true true) :=
  @run (sim true true) _ (handle_flash_begin 65536 0) 4 (boot true true).

(** A ten-byte plain session on hardware whose program primitive fails. *)
Definition session_10 : @stub (sim true false) :=
  @run (sim true false) _ (handle_flash_begin 10 0) 4 (boot true false).

Definition session_10_written : @stub (sim true false) :=
  @run (sim true false) _ (handle_flash_data (repeat 90 10) 10) 5 session_10.

(** A one-byte compressed session on hardware whose program primitive
    fails: the stream (literal 7, end of stream), then one more chunk. *)
Definition deflated_1 : @stub (sim true false) :=
  @run (sim true false) _ (handle_flash_deflated_begin 1 2 0) 4
       (boot true false).

Definition deflated_1_done : @stub (sim true false) :=
  @run (sim true false) _ (handle_flash_deflated_data [7; 0] 2) 5 deflated_1.

Definition deflated_1_extra : @stub (sim true false) :=
  @run (sim true false) _ (handle_flash_deflated_data [9] 1) 5 deflated_1_done.

(** A two-byte compressed session and its whole stream. *)
Definition deflated_2 : @stub (sim true true) :=
  @run (sim true true) _ (handle_flash_deflated_begin 2 3 0) 4 (boot true true).

(** A one-byte compressed session whose stream is corrupt after its only
    literal. *)
Definition deflated_bad : @stub (sim true true) :=
  @run (sim true true) _ (handle_flash_deflated_begin 1 2 0) 4 (boot true true).

(** An eight-byte compressed session abandoned after a first chunk of two
    literals, and the session begun after it. *)
Definition abandoned : @stub (sim true true) :=
  @run (sim true true) _
       (_ <- handle_flash_deflated_begin 8 4 0 ;;
        handle_flash_deflated_data [7; 7] 2) 5 (boot true true).

Definition begun_again : @stub (sim true true) :=
  @run (sim true true) _ (handle_flash_deflated_begin 2 2 4096) 4 abandoned.

(** A 9000-byte plain session written in two calls of 5000 bytes. *)
Definition two_writes : list data_op :=
  [PlainData image_9000 5000; PlainData image_9000 5000].

(** A 16-byte session that ends exactly at the top of the 32-bit address
    space, written in one call. *)
Definition session_top : @stub (sim true true) :=
  @run (sim true true) _
       (flash_session 16 4294967280 [PlainData (repeat 90 16) 16]) 5
       (boot true true).

(** Variants of the simulated target: [s2] selects an ESP32-S2-class
    build, [status] is what the flash status register reads after a given
    history. *)
Definition sim_with (s2 : bool) (status : trace -> Z) : Target := {|
  ESP8266 := false;
  ESP32 := negb s2;
  ESP32_OR_LATER := true;
  ESP32S2_OR_LATER := s2;
  SPI_ST := 7;
  SPI_FLASH_RDSR := 134217728;
  SPI_FLASH_WREN := 1073741824;
  SPI_FLASH_SE := 16777216;
  SPI_FLASH_BE := 8388608;
  SPI_WRSR_2B := 4194304;
  SPI_FLASH_RESULT_OK := 0;
  SPI_FLASH_RESULT_ERR := 1;
  TINFL_STATUS_DONE := 0;
  TINFL_STATUS_NEEDS_MORE_INPUT := 1;
  TINFL_FLAG_PARSE_ZLIB_HEADER := 1;
  TINFL_FLAG_HAS_MORE_INPUT := 2;
  tinfl_decompressor := Z;
  tinfl_init := fun _ => 0;
  tinfl_decompress := toy_decompress;
  reg_value := fun t r =>
    match r with SPI_RD_STATUS_REG => status t | _ => 0 end;
  rom_reply := fun _ _ => (0, 0)
|}.

(** A flash chip that is busy until eight events have happened. *)
Definition slow_status (t : trace) : Z :=
  if (length t <? 8)%nat then 1 else 0.

Definition sim_slow : Target := sim_with false slow_status.

(** An ESP32-S2-class build on always-ready hardware. *)
Definition sim_s2 : Target := sim_with true (fun _ => 0).

Definition boot_with (s2 : bool) (status : trace -> Z)
  : @stub (sim_with s2 status) :=
  @mk_stub (sim_with s2 status)
    (@mk_fs (sim_with s2 status) false 0 0 0 0 ESP_OK 0 0)
    (repeat 0 (Z.to_nat OUT_BUF_SIZE)) 0 [].

(** The slow chip with three sectors to erase and nothing on the bus
    yet. *)
Definition busy_9000 : @stub sim_slow :=
  @set_fs sim_slow (begin_fs 9000 0) (boot_with false slow_status).

(** The ESP32-S2-class build at firmware start, and in a 100-byte
    session. *)
Definition boot_s2 : @stub sim_s2 := boot_with true (fun _ => 0).

Definition session_s2 : @stub sim_s2 :=
  @run sim_s2 _ (handle_flash_begin 100 0) 4 boot_s2.

(** The 9000-byte session after a first write of 5000 bytes, and after
    both writes. *)
Definition session_9000_written : @stub (sim true true) :=
  @run (sim true true) _ (handle_flash_data image_9000 5000) 5 session_9000.

Definition session_9000_done : @stub (sim true true) :=
  @run (sim true true) _ (data_phase two_writes) 5 session_9000.

(** The session opened by [handle_flash_begin(0, 0)]: nothing to write. *)
Definition session_empty : @stub (sim true true) :=
  @run (sim true true) _ (handle_flash_begin 0 0) 4 (boot true true).

(** The two-byte compressed session after its whole stream (literals 7
    and 8, end of stream). *)
Definition deflated_2_done : @stub (sim true true) :=
  @run (sim true true) _ (handle_flash_deflated_data [7; 8; 0] 3) 5 deflated_2.

(** * Reasoning about computations *)

Section Logic.
Context {T : Target}.

Lemma bind_some {A B} (m : M A) (k : A -> M B) n s r :
  bind m k n s = Some r ->
  exists a s1, m n s = Some (a, s1) /\ k a n s1 = Some r.
Proof.
  unfold bind. destruct (m n s) as [[a s1]|]; [|discriminate].
  intros H. exists a, s1. auto.
Qed.

Lemma bind_run {A B} (m : M A) (k : A -> M B) n s a s1 :
  m n s = Some (a, s1) -> bind m k n s = k a n s1.
Proof. unfold bind. intros ->. reflexivity. Qed.

Lemma iter_mono {L} (c c' : L -> stub -> option (bool * stub))
      (b b' : L -> stub -> option (L * stub)) :
  (forall l s r, c l s = Some r -> c' l s = Some r) ->
  (forall l s r, b l s = Some r -> b' l s = Some r) ->
  forall k k' l s r, (k <= k')%nat ->
    iter k c b l s = Some r -> iter k' c' b' l s = Some r.
Proof.
  intros Hc Hb. induction k as [|k IH]; intros k' l s r Hk H; [discriminate|].
  destruct k' as [|k']; [lia|]. simpl in *.
  destruct (c l s) as [[t s1]|] eqn:Ec; [|discriminate].
  rewrite (Hc _ _ _ Ec). destruct t; [|exact H].
  destruct (b l s1) as [[l1 s2]|] eqn:Eb; [|discriminate].
  rewrite (Hb _ _ _ Eb). apply IH; [lia|exact H].
Qed.

Lemma iter_S {L} k (c : L -> stub -> option (bool * stub))
      (b : L -> stub -> option (L * stub)) l s :
  iter (S k) c b l s
  = match c l s with
    | None => None
    | Some (false, s1) => Some (l, s1)
    | Some (true, s1) =>
        match b l s1 with
        | None => None
        | Some (l1, s2) => iter k c b l1 s2
        end
    end.
Proof. reflexivity. Qed.

Lemma mono_ret {A} (a : A) : mono (ret a).
Proof. intros n n' s r _ H. exact H. Qed.

Lemma mono_get : mono get.
Proof. intros n n' s r _ H. exact H. Qed.

Lemma mono_modify f : mono (modify f).
Proof. intros n n' s r _ H. exact H. Qed.

Lemma mono_bind {A B} (m : M A) (k : A -> M B) :
  mono m -> (forall a, mono (k a)) -> mono (bind m k).
Proof.
  intros Hm Hk n n' s r Hn H.
  destruct (bind_some _ _ _ _ _ H) as (a & s1 & E1 & E2).
  rewrite (bind_run _ _ _ _ _ _ (Hm _ _ _ _ Hn E1)).
  exact (Hk a _ _ _ _ Hn E2).
Qed.

Lemma mono_while {L} (c : L -> M bool) (b : L -> M L) l :
  (forall l, mono (c l)) -> (forall l, mono (b l)) -> mono (while_ c b l).
Proof.
  intros Hc Hb n n' s r Hn H. unfold while_ in *.
  eapply iter_mono; [| |exact Hn|exact H].
  - intros l0 s0 r0. apply Hc, Hn.
  - intros l0 s0 r0. apply Hb, Hn.
Qed.

Lemma mono_if {A} (t : bool) (m1 m2 : M A) :
  mono m1 -> mono m2 -> mono (if t then m1 else m2).
Proof. destruct t; auto. Qed.

Lemma mono_READ_REG r : mono (READ_REG r).
Proof. intros n n' s x _ H. exact H. Qed.

Lemma mono_WRITE_REG r v : mono (WRITE_REG r v).
Proof. intros n n' s x _ H. exact H. Qed.

Lemma mono_rom c : mono (rom c).
Proof. intros n n' s x _ H. exact H. Qed.

Lemma respects_ret R {A} (a : A) :
  (forall s, R s s) -> respects R (ret a).
Proof. intros HR n s a' s' H. inversion H. apply HR. Qed.

Lemma respects_get R : (forall s, R s s) -> respects R get.
Proof. intros HR n s a' s' H. inversion H. subst. apply HR. Qed.

Lemma respects_modify R f : (forall s, R s (f s)) -> respects R (modify f).
Proof. intros HR n s a' s' H. inversion H. apply HR. Qed.

Lemma respects_bind R {A B} (m : M A) (k : A -> M B) :
  (forall s1 s2 s3, R s1 s2 -> R s2 s3 -> R s1 s3) ->
  respects R m -> (forall a, respects R (k a)) -> respects R (bind m k).
Proof.
  intros Ht Hm Hk n s b s' H.
  destruct (bind_some _ _ _ _ _ H) as (a & s1 & E1 & E2).
  eapply Ht; [exact (Hm _ _ _ _ E1)|exact (Hk _ _ _ _ _ E2)].
Qed.

Lemma respects_if R {A} (t : bool) (m1 m2 : M A) :
  respects R m1 -> respects R m2 -> respects R (if t then m1 else m2).
Proof. destruct t; auto. Qed.

Lemma respects_iter R {L} (c : L -> stub -> option (bool * stub))
      (b : L -> stub -> option (L * stub)) :
  (forall s, R s s) ->
  (forall s1 s2 s3, R s1 s2 -> R s2 s3 -> R s1 s3) ->
  (forall l s t s', c l s = Some (t, s') -> R s s') ->
  (forall l s l' s', b l s = Some (l', s') -> R s s') ->
  forall k l s l' s', iter k c b l s = Some (l', s') -> R s s'.
Proof.
  intros Hr Ht Hc Hb. induction k as [|k IH]; intros l s l' s' H; [discriminate|].
  simpl in H. destruct (c l s) as [[t s1]|] eqn:Ec; [|discriminate].
  destruct t.
  - destruct (b l s1) as [[l1 s2]|] eqn:Eb; [|discriminate].
    eapply Ht; [exact (Hc _ _ _ _ Ec)|].
    eapply Ht; [exact (Hb _ _ _ _ Eb)|exact (IH _ _ _ _ H)].
  - inversion H; subst. exact (Hc _ _ _ _ Ec).
Qed.

Lemma respects_while R {L} (c : L -> M bool) (b : L -> M L) l :
  (forall s, R s s) ->
  (forall s1 s2 s3, R s1 s2 -> R s2 s3 -> R s1 s3) ->
  (forall l, respects R (c l)) -> (forall l, respects R (b l)) ->
  respects R (while_ c b l).
Proof.
  intros Hr Ht Hc Hb n s a s' H. unfold while_ in H.
  eapply (respects_iter R) in H; eauto.
  - intros l0 s0 t s0' E. exact (Hc _ _ _ _ _ E).
  - intros l0 s0 l0' s0' E. exact (Hb _ _ _ _ _ E).
Qed.

(** A loop invariant [I]; on exit the last test of the condition failed. *)
Lemma iter_inv {L} (I : L -> stub -> Prop)
      (c : L -> stub -> option (bool * stub))
      (b : L -> stub -> option (L * stub)) :
  (forall l s t s1, I l s -> c l s = Some (t, s1) -> I l s1) ->
  (forall l s l1 s1, I l s -> b l s = Some (l1, s1) -> I l1 s1) ->
  forall k l s l' s', I l s -> iter k c b l s = Some (l', s') ->
    exists s0, I l' s0 /\ c l' s0 = Some (false, s').
Proof.
  intros Hc Hb. induction k as [|k IH]; intros l s l' s' HI H; [discriminate|].
  simpl in H. destruct (c l s) as [[t s1]|] eqn:Ec; [|discriminate].
  destruct t.
  - destruct (b l s1) as [[l1 s2]|] eqn:Eb; [|discriminate].
    eapply IH; [|exact H]. eapply Hb; [|exact Eb]. eapply Hc; eauto.
  - inversion H; subst. exists s. auto.
Qed.

Lemma returns_ret {A} (a : A) s : returns (ret a) s.
Proof. exists O, (a, s). reflexivity. Qed.

Lemma returns_bind {A B} (m : M A) (k : A -> M B) s :
  mono m -> (forall a, mono (k a)) ->
  returns m s ->
  (forall n a s1, m n s = Some (a, s1) -> returns (k a) s1) ->
  returns (bind m k) s.
Proof.
  intros Hm Hk (n1 & [a s1] & E1) Hnext.
  destruct (Hnext _ _ _ E1) as (n2 & r & E2).
  exists (Nat.max n1 n2), r.
  rewrite (bind_run _ _ _ _ _ _ (Hm _ (Nat.max n1 n2) _ _ (Nat.le_max_l _ _) E1)).
  exact (Hk a _ (Nat.max n1 n2) _ _ (Nat.le_max_r _ _) E2).
Qed.

End Logic.

(** * The driver primitives *)

Create HintDb stub_mono.
#[global] Hint Resolve mono_ret mono_get mono_modify mono_READ_REG
  mono_WRITE_REG mono_rom : stub_mono.

Ltac mono_step :=
  first [ apply mono_bind | apply mono_while | apply mono_if
        | solve [auto with stub_mono] | intro | progress cbv zeta ].
Ltac mono_tac := repeat mono_step.

Section Driver.
Context {T : Target}.

Lemma same_soft_refl s : same_soft s s.
Proof. repeat split. Qed.

Lemma same_soft_trans s1 s2 s3 :
  same_soft s1 s2 -> same_soft s2 s3 -> same_soft s1 s3.
Proof. unfold same_soft. intuition congruence. Qed.

Lemma emitted_refl ok s : emitted ok s s.
Proof. exists []. split; [reflexivity|constructor]. Qed.

Lemma emitted_trans ok s1 s2 s3 :
  emitted ok s1 s2 -> emitted ok s2 s3 -> emitted ok s1 s3.
Proof.
  intros (g1 & E1 & F1) (g2 & E2 & F2). exists (g2 ++ g1). split.
  - rewrite E2, E1. apply app_assoc.
  - apply Forall_app. auto.
Qed.

Lemma emitted_weaken (ok ok' : event -> Prop) s s' :
  (forall e, ok e -> ok' e) -> emitted ok s s' -> emitted ok' s s'.
Proof.
  intros H (g & E & F). exists g. split; [exact E|].
  eapply Forall_impl; eauto.
Qed.

Lemma emitted_one (ok : event -> Prop) e s s' :
  ok e -> hw s' = e :: hw s -> emitted ok s s'.
Proof. intros H E. exists [e]. split; [exact E|]. constructor; auto. Qed.

Lemma quiet_of_poll e : is_poll e -> quiet e.
Proof. destruct e; simpl; tauto. Qed.

Lemma no_rom_of_quiet e : quiet e -> no_rom e.
Proof. destruct e; simpl; tauto. Qed.

Lemma mono_spin (c : M bool) (b : M unit) : mono c -> mono b -> mono (spin c b).
Proof. intros. unfold spin. apply mono_while; auto. Qed.

Lemma mono_wait_cmd_done : mono wait_cmd_done.
Proof. unfold wait_cmd_done. apply mono_spin; mono_tac. Qed.
Hint Resolve mono_wait_cmd_done : stub_mono.

Lemma mono_spi_wait_ready : mono spi_wait_ready.
Proof. unfold spi_wait_ready. mono_tac; apply mono_spin; mono_tac. Qed.
Hint Resolve mono_spi_wait_ready : stub_mono.

Lemma mono_spiflash_is_ready : mono spiflash_is_ready.
Proof. unfold spiflash_is_ready. mono_tac. Qed.
Hint Resolve mono_spiflash_is_ready : stub_mono.

Lemma mono_wait_flash_idle : mono wait_flash_idle.
Proof. unfold wait_flash_idle. apply mono_spin; mono_tac. Qed.
Hint Resolve mono_wait_flash_idle : stub_mono.

Lemma mono_spi_write_enable : mono spi_write_enable.
Proof. unfold spi_write_enable. mono_tac. Qed.
Hint Resolve mono_spi_write_enable : stub_mono.

Lemma mono_REG_SET_MASK r m : mono (REG_SET_MASK r m).
Proof. unfold REG_SET_MASK. mono_tac. Qed.
Hint Resolve mono_REG_SET_MASK : stub_mono.

Lemma mono_SPIUnlock : mono SPIUnlock.
Proof. unfold SPIUnlock. mono_tac. Qed.
Hint Resolve mono_SPIUnlock : stub_mono.

Lemma mono_handle_flash_begin total offset : mono (handle_flash_begin total offset).
Proof. unfold handle_flash_begin. mono_tac. Qed.
Hint Resolve mono_handle_flash_begin : stub_mono.

Lemma mono_handle_flash_deflated_begin u c o :
  mono (handle_flash_deflated_begin u c o).
Proof. unfold handle_flash_deflated_begin. mono_tac. Qed.
Hint Resolve mono_handle_flash_deflated_begin : stub_mono.

Lemma mono_start_next_erase : mono start_next_erase.
Proof. unfold start_next_erase. mono_tac. Qed.
Hint Resolve mono_start_next_erase : stub_mono.

Lemma mono_erase_ahead last : mono (erase_ahead last).
Proof. unfold erase_ahead. apply mono_spin; mono_tac. Qed.
Hint Resolve mono_erase_ahead : stub_mono.

Lemma mono_handle_flash_data data length : mono (handle_flash_data data length).
Proof. unfold handle_flash_data. mono_tac. Qed.
Hint Resolve mono_handle_flash_data : stub_mono.

Lemma mono_handle_flash_encrypt_data data length :
  mono (handle_flash_encrypt_data data length).
Proof. unfold handle_flash_encrypt_data. mono_tac. Qed.
Hint Resolve mono_handle_flash_encrypt_data : stub_mono.

Lemma mono_deflate_body l : mono (deflate_body l).
Proof. unfold deflate_body. mono_tac. Qed.

Lemma mono_deflate_cond l : mono (deflate_cond l).
Proof. unfold deflate_cond. mono_tac. Qed.

Lemma mono_deflate_finish st : mono (deflate_finish st).
Proof. unfold deflate_finish. mono_tac. Qed.

Lemma mono_deflate_loop data length : mono (deflate_loop data length).
Proof.
  unfold deflate_loop. apply mono_while.
  - apply mono_deflate_cond.
  - apply mono_deflate_body.
Qed.
Hint Resolve mono_deflate_body mono_deflate_cond mono_deflate_finish
     mono_deflate_loop : stub_mono.

Lemma mono_handle_flash_deflated_data data length :
  mono (handle_flash_deflated_data data length).
Proof. unfold handle_flash_deflated_data. mono_tac. Qed.
Hint Resolve mono_handle_flash_deflated_data : stub_mono.

End Driver.

#[global] Hint Resolve mono_wait_cmd_done mono_spi_wait_ready
  mono_spiflash_is_ready mono_wait_flash_idle mono_spi_write_enable
  mono_REG_SET_MASK mono_SPIUnlock mono_handle_flash_begin
  mono_handle_flash_deflated_begin mono_start_next_erase mono_erase_ahead
  mono_handle_flash_data mono_handle_flash_encrypt_data mono_deflate_body
  mono_deflate_cond mono_deflate_finish mono_deflate_loop
  mono_handle_flash_deflated_data : stub_mono.

Ltac resp_tac lrefl ltrans :=
  repeat first
    [ apply respects_bind; [exact ltrans | | intro]
    | apply respects_while; [exact lrefl | exact ltrans | intro | intro]
    | apply respects_ret; exact lrefl
    | apply respects_get; exact lrefl
    | apply respects_if
    | progress cbv zeta ].

Section DriverFrames.
Context {T : Target}.

Lemma soft_READ_REG r : respects same_soft (READ_REG r).
Proof. intros n s a s' H. inversion H. repeat split. Qed.

Lemma soft_WRITE_REG r v : respects same_soft (WRITE_REG r v).
Proof. intros n s a s' H. inversion H. repeat split. Qed.

Lemma soft_rom c : respects same_soft (rom c).
Proof. intros n s a s' H. inversion H. repeat split. Qed.

Lemma emitted_READ_REG (ok : event -> Prop) r :
  (forall v, ok (RdReg r v)) -> respects (emitted ok) (READ_REG r).
Proof.
  intros Hok n s a s' H. inversion H; subst.
  eapply emitted_one; [apply Hok|reflexivity].
Qed.

Lemma emitted_WRITE_REG (ok : event -> Prop) r v :
  ok (WrReg r v) -> respects (emitted ok) (WRITE_REG r v).
Proof.
  intros Hok n s a s' H. inversion H; subst.
  eapply emitted_one; [apply Hok|reflexivity].
Qed.

Lemma emitted_rom (ok : event -> Prop) c :
  (forall ret out, ok (Rom c ret out)) -> respects (emitted ok) (rom c).
Proof.
  intros Hok n s a s' H. inversion H; subst.
  eapply emitted_one; [apply Hok|reflexivity].
Qed.

Lemma respects_weaken (R R' : stub -> stub -> Prop) {A} (m : M A) :
  (forall s s', R s s' -> R' s s') -> respects R m -> respects R' m.
Proof. intros HR Hm n s a s' H. apply HR. exact (Hm _ _ _ _ H). Qed.

Ltac soft_tac :=
  resp_tac constr:(same_soft_refl) constr:(same_soft_trans);
  try first [apply soft_READ_REG | apply soft_WRITE_REG | apply soft_rom].

Lemma soft_wait_cmd_done : respects same_soft wait_cmd_done.
Proof. unfold wait_cmd_done, spin. soft_tac. Qed.

Lemma soft_spi_wait_ready : respects same_soft spi_wait_ready.
Proof. unfold spi_wait_ready, spin. soft_tac. Qed.

Lemma soft_spiflash_is_ready : respects same_soft spiflash_is_ready.
Proof. unfold spiflash_is_ready. soft_tac. Qed.

Lemma soft_wait_flash_idle : respects same_soft wait_flash_idle.
Proof. unfold wait_flash_idle, spin. soft_tac. Qed.

Lemma soft_spi_write_enable : respects same_soft spi_write_enable.
Proof. unfold spi_write_enable. soft_tac. Qed.

Lemma soft_SPIUnlock : respects same_soft SPIUnlock.
Proof. unfold SPIUnlock, REG_SET_MASK. soft_tac. Qed.

Ltac poll_tac ok :=
  resp_tac constr:(emitted_refl ok) constr:(emitted_trans ok);
  try (apply emitted_READ_REG; intro; exact I).

Lemma polls_wait_cmd_done : respects (emitted is_poll) wait_cmd_done.
Proof. unfold wait_cmd_done, spin. poll_tac is_poll. Qed.

Lemma polls_spi_wait_ready : respects (emitted is_poll) spi_wait_ready.
Proof. unfold spi_wait_ready, spin. poll_tac is_poll. Qed.

Lemma quiet_spiflash_is_ready : respects (emitted quiet) spiflash_is_ready.
Proof.
  unfold spiflash_is_ready. poll_tac (@quiet T);
    apply emitted_WRITE_REG; simpl; auto.
Qed.

Lemma quiet_wait_flash_idle : respects (emitted quiet) wait_flash_idle.
Proof.
  unfold wait_flash_idle, spin. poll_tac (@quiet T);
    apply emitted_WRITE_REG; simpl; auto.
Qed.

Lemma quiet_spi_write_enable : respects (emitted quiet) spi_write_enable.
Proof.
  unfold spi_write_enable. poll_tac (@quiet T);
    apply emitted_WRITE_REG; simpl; auto.
Qed.

End DriverFrames.

(** * The driver returns on responsive hardware *)

Section DriverTermination.
Context {T : Target}.
Hypothesis live : Responsive.

Lemma returns_get s : returns get s.
Proof. exists O, (s, s). reflexivity. Qed.

Lemma returns_modify f s : returns (modify f) s.
Proof. exists O, (tt, f s). reflexivity. Qed.

Lemma returns_READ_REG r s : returns (READ_REG r) s.
Proof. exists O. eexists. reflexivity. Qed.

Lemma returns_WRITE_REG r v s : returns (WRITE_REG r v) s.
Proof. exists O. eexists. reflexivity. Qed.

Lemma returns_rom c s : returns (rom c) s.
Proof. exists O. eexists. reflexivity. Qed.

Lemma returns_if {A} (t : bool) (m1 m2 : M A) s :
  returns m1 s -> returns m2 s -> returns (if t then m1 else m2) s.
Proof. destruct t; auto. Qed.

Ltac ret_tac :=
  repeat first
    [ apply returns_ret | apply returns_get | apply returns_modify
    | apply returns_READ_REG | apply returns_WRITE_REG | apply returns_rom
    | apply (proj1 (live _)) | apply (proj1 (proj2 (live _)))
    | apply (proj2 (proj2 (live _)))
    | apply returns_if
    | apply returns_bind; [solve [mono_tac] | solve [mono_tac] | | intros ? ? ? _]
    | progress cbv zeta ].

Lemma returns_spiflash_is_ready s : returns spiflash_is_ready s.
Proof. unfold spiflash_is_ready. ret_tac. Qed.

Lemma returns_spi_write_enable s : returns spi_write_enable s.
Proof. unfold spi_write_enable. ret_tac. Qed.

Lemma returns_SPIUnlock s : returns SPIUnlock s.
Proof.
  unfold SPIUnlock. destruct ESP32_OR_LATER.
  - apply returns_bind; [solve [mono_tac] | solve [mono_tac] | | intros ? ? ? _].
    { apply (proj1 (live _)). }
    apply returns_bind; [solve [mono_tac] | solve [mono_tac] | | intros ? ? ? _].
    { apply returns_rom. }
    apply returns_if; [apply returns_ret|].
    apply returns_bind; [solve [mono_tac] | solve [mono_tac] | | intros ? ? ? _].
    { apply returns_spi_write_enable. }
    unfold REG_SET_MASK. ret_tac.
  - ret_tac.
Qed.

Lemma returns_handle_flash_begin total offset s :
  returns (handle_flash_begin total offset) s.
Proof.
  unfold handle_flash_begin.
  apply returns_bind; [solve [mono_tac] | solve [mono_tac] | | intros ? ? ? _].
  { apply returns_modify. }
  apply returns_bind; [solve [mono_tac] | solve [mono_tac] | | intros ? ? ? _].
  { apply returns_SPIUnlock. }
  ret_tac.
Qed.

Lemma returns_handle_flash_deflated_begin u c o s :
  returns (handle_flash_deflated_begin u c o) s.
Proof.
  unfold handle_flash_deflated_begin.
  apply returns_bind; [solve [mono_tac] | solve [mono_tac] | | intros ? ? ? _].
  { apply returns_handle_flash_begin. }
  ret_tac.
Qed.

End DriverTermination.

(** * The erase-ahead scheduler *)

Tactic Notation "bind_inv" hyp(H) "as" ident(a) ident(s1) ident(E) :=
  apply bind_some in H; destruct H as (a & s1 & E & H).

Ltac leaf_inv E := unfold get, modify, ret in E; inversion E; subst; clear E.

Section Scheduler.
Context {T : Target}.

(** The three ways through [start_next_erase]. *)
Lemma start_next_erase_inv n s s' :
  start_next_erase n s = Some (tt, s') ->
  (remaining_erase_sector (fs s) = 0 /\ s' = s)
  \/ (remaining_erase_sector (fs s) <> 0
      /\ spiflash_is_ready n s = Some (false, s'))
  \/ (remaining_erase_sector (fs s) <> 0
      /\ (exists s1, spiflash_is_ready n s = Some (true, s1))
      /\ fs s' = erased (fs s)
      /\ out_buf s' = out_buf s /\ next_out s' = next_out s
      /\ erase_issued s s').
Proof.
  unfold start_next_erase. intros H.
  bind_inv H as s0 s0' E0. leaf_inv E0.
  destruct (remaining_erase_sector (fs s0') =? 0) eqn:Er.
  { leaf_inv H. left. split; [apply Z.eqb_eq; exact Er|reflexivity]. }
  right. apply Z.eqb_neq in Er.
  bind_inv H as ready s1 E1. destruct ready.
  2:{ simpl in H. leaf_inv H. left. auto. }
  right. simpl in H.
  split; [exact Er|]. split; [eauto|].
  pose proof (soft_spiflash_is_ready _ _ _ _ E1) as (F1 & B1 & O1).
  pose proof (quiet_spiflash_is_ready _ _ _ _ E1) as (g1 & G1 & Q1).
  bind_inv H as u2 s2 E2.
  pose proof (soft_spi_write_enable _ _ _ _ E2) as (F2 & B2 & O2).
  pose proof (quiet_spi_write_enable _ _ _ _ E2) as (g2 & G2 & Q2).
  bind_inv H as s2' s2'' E2'. leaf_inv E2'.
  bind_inv H as u3 s3 E3.
  pose proof (soft_spi_wait_ready _ _ _ _ E3) as (F3 & B3 & O3).
  pose proof (polls_spi_wait_ready _ _ _ _ E3) as (g3 & G3 & Q3).
  bind_inv H as u4 s4 E4. unfold WRITE_REG in E4. inversion E4; subst; clear E4.
  bind_inv H as u5 s5 E5. unfold WRITE_REG in E5. inversion E5; subst; clear E5.
  bind_inv H as u6 s6 E6.
  pose proof (soft_wait_cmd_done _ _ _ _ E6) as (F4 & B4 & O4).
  pose proof (polls_wait_cmd_done _ _ _ _ E6) as (g4 & G4 & Q4).
  bind_inv H as u7 s7 E7. leaf_inv E7. leaf_inv H.
  simpl in *.
  assert (Ef : fs s2'' = fs s0') by congruence.
  split.
  { unfold erased, erase_block. rewrite F4, F3, Ef. reflexivity. }
  split; [congruence|]. split; [congruence|].
  exists (g3 ++ g2 ++ g1), g4. split; [|split].
  - unfold set_fs. simpl. rewrite G4.
    unfold erase_command, erase_address, erase_block.
    rewrite <- Ef. rewrite G3, G2, G1.
    rewrite <- !app_assoc. reflexivity.
  - rewrite !Forall_app. repeat split; auto.
    eapply Forall_impl; [|exact Q3]. apply quiet_of_poll.
  - exact Q4.
Qed.

End Scheduler.

Section EraseWindow.
Context {T : Target}.

Lemma i32_small z : -2147483648 <= z < 2147483648 -> i32 z = z.
Proof. intros H. unfold i32. rewrite Z.mod_small; lia. Qed.

Lemma u32_small z : 0 <= z < 4294967296 -> u32 z = z.
Proof. intros H. unfold u32. apply Z.mod_small. exact H. Qed.

Lemma same_but_erase_refl f : same_but_erase f f.
Proof. repeat split. Qed.

Lemma same_but_erase_trans f1 f2 f3 :
  same_but_erase f1 f2 -> same_but_erase f2 f3 -> same_but_erase f1 f3.
Proof. unfold same_but_erase. intuition congruence. Qed.

Lemma same_but_erase_erased f : same_but_erase f (erased f).
Proof. repeat split. Qed.

(** One erase moves the cursor by one sector or one block and keeps the
    window. *)
Lemma erased_counters E f :
  E < 2147483648 -> erase_window E f -> remaining_erase_sector f <> 0 ->
  let k := if erase_block f then SECTORS_PER_BLOCK else 1 in
  next_erase_sector (erased f) = next_erase_sector f + k
  /\ remaining_erase_sector (erased f) = remaining_erase_sector f - k
  /\ 0 < k <= remaining_erase_sector f.
Proof.
  intros HE (Hr & Hn & Hs) Hnz. unfold erased, erase_block. simpl.
  unfold SECTORS_PER_BLOCK.
  destruct (16 <=? remaining_erase_sector f) eqn:Hb; simpl.
  - apply Z.leb_le in Hb.
    destruct (Z.rem (next_erase_sector f) 16 =? 0); simpl;
      rewrite !i32_small by lia; lia.
  - apply Z.leb_gt in Hb. rewrite !i32_small by lia. lia.
Qed.

Lemma erased_window E f :
  E < 2147483648 -> erase_window E f -> remaining_erase_sector f <> 0 ->
  erase_window E (erased f)
  /\ remaining_erase_sector (erased f) < remaining_erase_sector f.
Proof.
  intros HE HW Hnz.
  destruct (erased_counters E f HE HW Hnz) as (H1 & H2 & H3).
  destruct HW as (Hr & Hn & Hs). unfold erase_window.
  rewrite H1, H2. lia.
Qed.

Lemma erase_rel_refl E s : erase_rel E s s.
Proof.
  intros H. repeat split; try apply H; try lia. apply emitted_refl.
Qed.

Lemma erase_rel_trans E s1 s2 s3 :
  erase_rel E s1 s2 -> erase_rel E s2 s3 -> erase_rel E s1 s3.
Proof.
  intros H12 H23 H1.
  destruct (H12 H1) as (W2 & S2 & R2 & B2 & O2 & G2).
  destruct (H23 W2) as (W3 & S3 & R3 & B3 & O3 & G3).
  split; [exact W3|]. split; [eapply same_but_erase_trans; eauto|].
  split; [lia|]. split; [congruence|]. split; [congruence|].
  eapply emitted_trans; eauto.
Qed.

Lemma erase_rel_of_soft E s s' :
  same_soft s s' -> emitted quiet s s' -> erase_rel E s s'.
Proof.
  intros (F & B & O) G W. rewrite F.
  split; [exact W|]. split; [apply same_but_erase_refl|].
  split; [lia|]. split; [exact B|]. split; [exact O|].
  eapply emitted_weaken; [|exact G]. apply no_rom_of_quiet.
Qed.

Lemma erase_issued_no_rom s s' : erase_issued s s' -> emitted no_rom s s'.
Proof.
  intros (pre & post & E & Qpre & Qpost).
  exists (post ++ WrReg SPI_CMD_REG (erase_command (fs s))
               :: WrReg SPI_ADDR_REG (erase_address (fs s)) :: pre).
  split.
  - rewrite E. rewrite <- app_assoc. reflexivity.
  - apply Forall_app. split.
    + eapply Forall_impl; [|exact Qpost]. intros e He.
      apply no_rom_of_quiet, quiet_of_poll, He.
    + repeat constructor.
      eapply Forall_impl; [|exact Qpre]. apply no_rom_of_quiet.
Qed.

Lemma erase_rel_start_next_erase E :
  E < 2147483648 -> respects (erase_rel E) start_next_erase.
Proof.
  intros HE n s [] s' H.
  destruct (start_next_erase_inv _ _ _ H)
    as [(_ & ->) | [(_ & Hp) | (Hnz & _ & F & B & O & G)]].
  - apply erase_rel_refl.
  - apply erase_rel_of_soft.
    + exact (soft_spiflash_is_ready _ _ _ _ Hp).
    + exact (quiet_spiflash_is_ready _ _ _ _ Hp).
  - intros W. destruct (erased_window E _ HE W Hnz) as (W' & Hlt).
    rewrite F. split; [exact W'|]. split; [apply same_but_erase_erased|].
    split; [lia|]. split; [exact B|]. split; [exact O|].
    apply erase_issued_no_rom, G.
Qed.

Lemma erase_rel_erase_ahead E last :
  E < 2147483648 -> respects (erase_rel E) (erase_ahead last).
Proof.
  intros HE. unfold erase_ahead, spin.
  apply respects_while.
  - apply erase_rel_refl.
  - apply erase_rel_trans.
  - intros _. apply respects_bind; [apply erase_rel_trans| |intro].
    + apply respects_get, erase_rel_refl.
    + apply respects_ret, erase_rel_refl.
  - intros _. intros n s a s' H. destruct a.
    exact (erase_rel_start_next_erase E HE _ _ _ _ H).
Qed.

(** When the erase loop ends, nothing is left to erase or the cursor is
    past [last]. *)
Lemma erase_ahead_exit last n s s' :
  erase_ahead last n s = Some (tt, s') ->
  remaining_erase_sector (fs s') <= 0
  \/ last < next_erase_sector (fs s').
Proof.
  unfold erase_ahead, spin, while_. intros H.
  apply (iter_inv (fun _ _ => True)) in H; auto.
  destruct H as (s0 & _ & Hc).
  bind_inv Hc as x s1 E. leaf_inv E. leaf_inv Hc.
  apply andb_false_iff in H0. destruct H0 as [H0|H0].
  - left. apply Z.ltb_ge in H0. exact H0.
  - right. apply Z.leb_gt in H0. exact H0.
Qed.

End EraseWindow.

Section SchedulerTermination.
Context {T : Target}.
Hypothesis live : Responsive.

Lemma i32_le z : 0 <= z -> i32 z <= z.
Proof.
  intros H. unfold i32.
  pose proof (Z.mod_le (z + 2147483648) 4294967296). lia.
Qed.

Lemma erased_decreases f :
  0 < remaining_erase_sector f ->
  remaining_erase_sector (erased f) < remaining_erase_sector f.
Proof.
  intros H. unfold erased, erase_block, SECTORS_PER_BLOCK. simpl.
  destruct (16 <=? remaining_erase_sector f) eqn:Hb; simpl.
  - apply Z.leb_le in Hb.
    destruct (Z.rem (next_erase_sector f) 16 =? 0).
    + pose proof (i32_le (remaining_erase_sector f - 16)). lia.
    + pose proof (i32_le (remaining_erase_sector f - 1)). lia.
  - pose proof (i32_le (remaining_erase_sector f - 1)). lia.
Qed.

Lemma returns_start_next_erase s : returns start_next_erase s.
Proof.
  unfold start_next_erase.
  apply returns_bind; [solve [mono_tac] | solve [mono_tac] | | intros ? ? ? _].
  { apply returns_get. }
  apply returns_if; [apply returns_ret|].
  apply returns_bind; [solve [mono_tac] | solve [mono_tac] | | intros ? ? ? _].
  { apply returns_spiflash_is_ready, live. }
  apply returns_if; [apply returns_ret|].
  apply returns_bind; [solve [mono_tac] | solve [mono_tac] | | intros ? ? ? _].
  { apply returns_spi_write_enable, live. }
  apply returns_bind; [solve [mono_tac] | solve [mono_tac] | | intros ? ? ? _].
  { apply returns_get. }
  cbv zeta.
  apply returns_bind; [solve [mono_tac] | solve [mono_tac] | | intros ? ? ? _].
  { apply (proj1 (live _)). }
  apply returns_bind; [solve [mono_tac] | solve [mono_tac] | | intros ? ? ? _].
  { apply returns_WRITE_REG. }
  apply returns_bind; [solve [mono_tac] | solve [mono_tac] | | intros ? ? ? _].
  { apply returns_WRITE_REG. }
  apply returns_bind; [solve [mono_tac] | solve [mono_tac] | | intros ? ? ? _].
  { apply (proj1 (proj2 (live _))). }
  apply returns_bind; [solve [mono_tac] | solve [mono_tac] | | intros ? ? ? _];
    apply returns_modify.
Qed.

Lemma erase_ahead_done last s :
  erase_needed last s = false -> returns (erase_ahead last) s.
Proof.
  intros H. exists 1%nat, (tt, s).
  unfold erase_ahead, spin, while_. simpl. unfold bind, get, ret.
  unfold erase_needed in H. rewrite H. reflexivity.
Qed.

(** One more turn in front of a loop that returns. *)
Lemma erase_ahead_step last n s s1 :
  erase_needed last s = true ->
  start_next_erase n s = Some (tt, s1) ->
  returns (erase_ahead last) s1 -> returns (erase_ahead last) s.
Proof.
  intros Hc Hb (m & r & Hm).
  exists (S (Nat.max n m)), r.
  unfold erase_ahead, spin, while_ in *. simpl.
  unfold bind at 1, get at 1, ret at 1. unfold erase_needed in Hc. rewrite Hc.
  rewrite (mono_start_next_erase n (S (Nat.max n m)) s (tt, s1)); [|lia|exact Hb].
  eapply iter_mono; [| | |exact Hm]; [| |lia].
  - intros l s0 r0 Hx. exact Hx.
  - intros l s0 r0. cbv beta. apply (mono_start_next_erase m). lia.
Qed.

Lemma start_next_erase_busy n s s1 :
  remaining_erase_sector (fs s) <> 0 ->
  spiflash_is_ready n s = Some (false, s1) ->
  start_next_erase n s = Some (tt, s1).
Proof.
  intros Hnz Hp. unfold start_next_erase. unfold bind at 1, get at 1.
  apply Z.eqb_neq in Hnz. rewrite Hnz.
  rewrite (bind_run _ _ _ _ _ _ Hp). reflexivity.
Qed.

Lemma erase_ahead_poll last :
  forall k n s r0,
    iter k (fun _ : unit => (r <- spiflash_is_ready ;; ret (negb r)) n)
         (fun _ : unit => ret tt n) tt s = Some r0 ->
    (forall s2, 0 < remaining_erase_sector (fs s) ->
       remaining_erase_sector (fs s2) < remaining_erase_sector (fs s) ->
       returns (erase_ahead last) s2) ->
    returns (erase_ahead last) s.
Proof.
  induction k as [|k IH]; intros n s r0 H Hless; [discriminate|].
  destruct (erase_needed last s) eqn:Hc; [|apply erase_ahead_done; exact Hc].
  assert (Hpos : 0 < remaining_erase_sector (fs s)).
  { unfold erase_needed in Hc. apply andb_true_iff in Hc.
    apply Z.ltb_lt. apply Hc. }
  simpl in H. unfold bind at 1 in H.
  destruct (spiflash_is_ready n s) as [[rdy s1]|] eqn:Hp; [|discriminate].
  destruct rdy; simpl in H.
  - (* the flash is ready: this turn starts an erase *)
    destruct (returns_start_next_erase s) as (n1 & [[] s2] & H1).
    destruct (start_next_erase_inv _ _ _ H1)
      as [(Hz & _) | [(_ & Hb) | (_ & _ & F & _)]].
    + lia.
    + pose proof (mono_spiflash_is_ready n (Nat.max n n1) s _
                    (Nat.le_max_l _ _) Hp) as A.
      pose proof (mono_spiflash_is_ready n1 (Nat.max n n1) s _
                    (Nat.le_max_r _ _) Hb) as B.
      rewrite A in B. discriminate.
    + eapply erase_ahead_step; [exact Hc|exact H1|].
      apply Hless; [exact Hpos|]. rewrite F. apply erased_decreases, Hpos.
  - (* busy: the turn only polls *)
    pose proof (soft_spiflash_is_ready _ _ _ _ Hp) as (F & _ & _).
    eapply erase_ahead_step; [exact Hc| |].
    + apply start_next_erase_busy; [lia|exact Hp].
    + eapply IH; [exact H|]. rewrite F. exact Hless.
Qed.

(** On responsive hardware the erase loop ends. *)
Lemma returns_erase_ahead last s : returns (erase_ahead last) s.
Proof.
  remember (Z.to_nat (remaining_erase_sector (fs s))) as m eqn:Hm.
  revert s Hm. induction m as [m IH] using lt_wf_ind. intros s Hm.
  destruct (proj2 (proj2 (live s))) as (n & r0 & H).
  unfold wait_flash_idle, spin, while_ in H.
  eapply erase_ahead_poll; [exact H|].
  intros s2 Hpos Hlt. eapply IH; [|reflexivity]. lia.
Qed.

End SchedulerTermination.

(** * The write paths *)

Section WritePath.
Context {T : Target}.

(** The two ways through [handle_flash_data]: nothing to write, or the
    erase loop, the wait for the chip, the program primitive and the
    accounting. *)
Lemma handle_flash_data_inv data length n s s' :
  handle_flash_data data length n s = Some (tt, s') ->
  (clamp length s = 0 /\ s' = s)
  \/ (clamp length s <> 0 /\
      exists s1 s2 ret out,
        erase_ahead (last_sector s (clamp length s)) n s = Some (tt, s1)
        /\ wait_flash_idle n s1 = Some (tt, s2)
        /\ s' = mk_stub (programmed (clamp length s) ret (fs s2))
                        (out_buf s2) (next_out s2)
                        (Rom (SPIWrite (next_write (fs s2))
                                (firstn (Z.to_nat (clamp length s)) data)
                                (clamp length s)) ret out :: hw s2)).
Proof.
  unfold handle_flash_data. intros H.
  bind_inv H as s0 s0' E0. leaf_inv E0. cbv zeta in H.
  destruct (clamp length s0' =? 0) eqn:Ec.
  { leaf_inv H. left. split; [apply Z.eqb_eq, Ec|reflexivity]. }
  right. split; [apply Z.eqb_neq, Ec|].
  bind_inv H as u1 s1 E1. destruct u1.
  bind_inv H as u2 s2 E2. destruct u2.
  bind_inv H as s2' s2'' E2'. leaf_inv E2'.
  bind_inv H as r s3 E3. unfold rom in E3. inversion E3; subst; clear E3.
  bind_inv H as u4 s4 E4.
  set (c := SPIWrite (next_write (fs s2''))
              (firstn (Z.to_nat (clamp length s0')) data)
              (clamp length s0')) in *.
  exists s1, s2'', (fst (rom_reply (hw s2'') c)), (snd (rom_reply (hw s2'') c)).
  split; [exact E1|]. split; [exact E2|].
  unfold programmed.
  destruct (fst (rom_reply (hw s2'') c) =? 0);
    simpl in E4; leaf_inv E4; leaf_inv H; reflexivity.
Qed.

Lemma handle_flash_encrypt_data_inv data length n s s' :
  handle_flash_encrypt_data data length n s = Some (tt, s') ->
  exists s0,
    same_soft s s0
    /\ ((clamp length s = 0 /\ s' = s0)
        \/ (clamp length s <> 0 /\
            exists s1 s2 ret out t,
              erase_ahead (last_sector s (clamp length s)) n s0 = Some (tt, s1)
              /\ wait_flash_idle n s1 = Some (tt, s2)
              /\ (exists post,
                    t = post ++ Rom (encrypt_primitive (next_write (fs s2))
                                  (firstn (Z.to_nat (clamp length s)) data)
                                  (clamp length s)) ret out :: hw s2)
              /\ s' = mk_stub (programmed (clamp length s) ret (fs s2))
                              (out_buf s2) (next_out s2) t)).
Proof.
  unfold handle_flash_encrypt_data. intros H.
  bind_inv H as u0 s0 E0.
  assert (S0 : same_soft s s0).
  { destruct ESP32S2_OR_LATER.
    - bind_inv E0 as r0 s00 E00. leaf_inv E0.
      exact (soft_rom _ _ _ _ _ E00).
    - leaf_inv E0. apply same_soft_refl. }
  exists s0. split; [exact S0|].
  destruct S0 as (F0 & _ & _).
  assert (Ecl : clamp length s0 = clamp length s).
  { unfold clamp. rewrite F0. reflexivity. }
  assert (Els : forall len, last_sector s0 len = last_sector s len).
  { intros len. unfold last_sector. rewrite F0. reflexivity. }
  bind_inv H as s0' s0'' E0'. leaf_inv E0'. cbv zeta in H.
  fold (last_sector s0'' (clamp length s0'')) in H.
  rewrite Els, Ecl in H.
  destruct (clamp length s =? 0) eqn:Ec.
  { leaf_inv H. left. split; [apply Z.eqb_eq, Ec|reflexivity]. }
  right. split; [apply Z.eqb_neq, Ec|].
  bind_inv H as u1 s1 E1. destruct u1.
  bind_inv H as u2 s2 E2. destruct u2.
  bind_inv H as s2' s2'' E2'. leaf_inv E2'.
  bind_inv H as r s3 E3. unfold rom in E3. inversion E3; subst; clear E3.
  fold (encrypt_primitive (next_write (fs s2''))
          (firstn (Z.to_nat (clamp length s)) data) (clamp length s)) in *.
  set (c := encrypt_primitive (next_write (fs s2''))
              (firstn (Z.to_nat (clamp length s)) data)
              (clamp length s)) in *.
  bind_inv H as u4 s4 E4.
  bind_inv H as u5 s5 E5. leaf_inv E5.
  assert (Hpost : exists post,
             s' = set_hw (post ++ hw s4) (set_fs (advance (clamp length s)) s4)).
  { destruct ESP32S2_OR_LATER.
    - bind_inv H as r6 s6 E6. leaf_inv H. unfold rom in E6.
      inversion E6; subst; clear E6. eexists [_]. reflexivity.
    - leaf_inv H. exists []. reflexivity. }
  destruct Hpost as (post & ->).
  exists s1, s2'', (fst (rom_reply (hw s2'') c)), (snd (rom_reply (hw s2'') c)).
  eexists. split; [exact E1|]. split; [exact E2|].
  split; [exists post; reflexivity|].
  unfold programmed.
  destruct (fst (rom_reply (hw s2'') c) =? 0);
    simpl in E4; leaf_inv E4; reflexivity.
Qed.

End WritePath.

Section WriteTermination.
Context {T : Target}.
Hypothesis live : Responsive.

Lemma returns_wait_flash_idle s : returns wait_flash_idle s.
Proof. apply (proj2 (proj2 (live s))). Qed.

Lemma returns_flag_rom (t : bool) c s :
  returns (if t then _ <- rom c ;; ret tt else ret tt) s.
Proof.
  destruct t; [|apply returns_ret].
  apply returns_bind; [solve [mono_tac] | solve [mono_tac] | | intros ? ? ? _].
  - apply returns_rom.
  - apply returns_ret.
Qed.

Lemma returns_handle_flash_data data length s :
  returns (handle_flash_data data length) s.
Proof.
  unfold handle_flash_data.
  apply returns_bind; [solve [mono_tac] | solve [mono_tac] | | intros ? ? ? _].
  { apply returns_get. }
  cbv zeta. apply returns_if; [apply returns_ret|].
  apply returns_bind; [solve [mono_tac] | solve [mono_tac] | | intros ? ? ? _].
  { apply returns_erase_ahead, live. }
  apply returns_bind; [solve [mono_tac] | solve [mono_tac] | | intros ? ? ? _].
  { apply returns_wait_flash_idle. }
  apply returns_bind; [solve [mono_tac] | solve [mono_tac] | | intros ? ? ? _].
  { apply returns_get. }
  apply returns_bind; [solve [mono_tac] | solve [mono_tac] | | intros ? ? ? _].
  { apply returns_rom. }
  apply returns_bind; [solve [mono_tac] | solve [mono_tac] | | intros ? ? ? _].
  { apply returns_if; [apply returns_modify|apply returns_ret]. }
  apply returns_modify.
Qed.

Lemma returns_handle_flash_encrypt_data data length s :
  returns (handle_flash_encrypt_data data length) s.
Proof.
  unfold handle_flash_encrypt_data.
  apply returns_bind; [solve [mono_tac] | solve [mono_tac] | | intros ? ? ? _].
  { apply returns_flag_rom. }
  apply returns_bind; [solve [mono_tac] | solve [mono_tac] | | intros ? ? ? _].
  { apply returns_get. }
  cbv zeta. apply returns_if; [apply returns_ret|].
  apply returns_bind; [solve [mono_tac] | solve [mono_tac] | | intros ? ? ? _].
  { apply returns_erase_ahead, live. }
  apply returns_bind; [solve [mono_tac] | solve [mono_tac] | | intros ? ? ? _].
  { apply returns_wait_flash_idle. }
  apply returns_bind; [solve [mono_tac] | solve [mono_tac] | | intros ? ? ? _].
  { apply returns_get. }
  apply returns_bind; [solve [mono_tac] | solve [mono_tac] | | intros ? ? ? _].
  { apply returns_rom. }
  apply returns_bind; [solve [mono_tac] | solve [mono_tac] | | intros ? ? ? _].
  { apply returns_if; [apply returns_modify|apply returns_ret]. }
  apply returns_bind; [solve [mono_tac] | solve [mono_tac] | | intros ? ? ? _].
  { apply returns_modify. }
  apply returns_flag_rom.
Qed.

End WriteTermination.

(** * Sessions *)

Section Session.
Context {T : Target}.

Lemma end_sector_bound total_size offset :
  valid_region total_size offset ->
  0 <= end_sector total_size offset < 2147483648
  /\ offset + total_size <= end_sector total_size offset * FLASH_SECTOR_SIZE.
Proof.
  unfold valid_region, end_sector, FLASH_SECTOR_SIZE.
  intros (H1 & H2 & H3 & H4). Z.div_mod_to_equations. lia.
Qed.

(** [handle_flash_begin] opens a session, whatever the unlock does. *)
Lemma begin_fs_in_session total_size offset s :
  valid_region total_size offset ->
  in_session total_size offset (set_fs (begin_fs total_size offset) s).
Proof.
  intros V. pose proof (end_sector_bound _ _ V) as (B1 & B2).
  destruct V as (H1 & H2 & H3 & H4).
  assert (V : valid_region total_size offset) by (repeat split; assumption).
  split; simpl; try assumption; try reflexivity; try lia.
  unfold erase_window, end_sector in *. simpl.
  unfold FLASH_SECTOR_SIZE in *.
  assert (Em : u32 (offset mod 4096) = offset mod 4096).
  { apply u32_small. Z.div_mod_to_equations. lia. }
  rewrite Em.
  rewrite (u32_small (offset mod 4096 + total_size + 4096 - 1))
    by (Z.div_mod_to_equations; lia).
  rewrite !i32_small by (Z.div_mod_to_equations; lia).
  Z.div_mod_to_equations. lia.
Qed.

Lemma in_session_soft total_size offset s s' :
  fs s' = fs s -> in_session total_size offset s ->
  in_session total_size offset s'.
Proof. intros F [V A C R B W]. split; rewrite ?F; assumption. Qed.

Lemma clamp_range length s :
  0 <= length -> 0 <= remaining (fs s) ->
  0 <= clamp length s <= remaining (fs s) /\ clamp length s <= length.
Proof.
  intros H1 H2. unfold clamp.
  destruct (remaining (fs s) <? length) eqn:E.
  - apply Z.ltb_lt in E. lia.
  - apply Z.ltb_ge in E. lia.
Qed.

(** After the erase loop of a write the frontier covers the write. *)
Lemma erase_ahead_covers total_size offset length n s s1 :
  in_session total_size offset s -> 0 <= length ->
  erase_ahead (last_sector s (clamp length s)) n s = Some (tt, s1) ->
  in_session total_size offset s1 /\ frontier_covers (clamp length s) s1
  /\ next_write (fs s1) = next_write (fs s)
  /\ remaining (fs s1) = remaining (fs s)
  /\ last_error (fs s1) = last_error (fs s)
  /\ out_buf s1 = out_buf s /\ next_out s1 = next_out s
  /\ emitted no_rom s s1.
Proof.
  intros [V A C R B W] Hlen H.
  pose proof (end_sector_bound _ _ V) as (B1 & B2).
  pose proof (clamp_range length s Hlen R) as (C1 & C2).
  pose proof (erase_rel_erase_ahead (end_sector total_size offset) _
                (proj2 B1) _ _ _ _ H W)
    as (W1 & (S1 & S2 & S3 & S4 & S5 & S6) & R1 & O1 & N1 & G1).
  pose proof (erase_ahead_exit _ _ _ _ H) as Hexit.
  assert (IS1 : in_session total_size offset s1).
  { split; try assumption; congruence. }
  split; [exact IS1|].
  split; [|repeat split; assumption].
  destruct V as (V1 & V2 & V3 & V4).
  destruct W1 as (W1r & W1n & W1s).
  unfold last_sector in Hexit.
  assert (Hu : u32 (next_write (fs s) + clamp length s)
               = next_write (fs s) + clamp length s).
  { apply u32_small.
    destruct W as (_ & Wn & _). unfold valid_region in *.
    lia. }
  rewrite Hu in Hexit.
  unfold frontier_covers. rewrite S2.
  unfold FLASH_SECTOR_SIZE in *.
  rewrite i32_small in Hexit by (Z.div_mod_to_equations; lia).
  destruct Hexit as [Hz|Hp].
  - split; [left; lia|].
    assert (next_erase_sector (fs s1) = end_sector total_size offset) by lia.
    lia.
  - split; [right|]; Z.div_mod_to_equations; lia.
Qed.

End Session.

Section SessionWrites.
Context {T : Target}.

Lemma programmed_in_session total_size offset len ret t s :
  in_session total_size offset s -> 0 <= len <= remaining (fs s) ->
  in_session total_size offset
    (mk_stub (programmed len ret (fs s)) (out_buf s) (next_out s) t).
Proof.
  intros [V A C R B W] Hlen.
  destruct V as (V1 & V2 & V3 & V4).
  assert (V : valid_region total_size offset) by (repeat split; assumption).
  assert (E1 : forall f, next_write (programmed len ret f)
                         = u32 (next_write f + len)).
  { intros f. unfold programmed. destruct (ret =? 0); reflexivity. }
  assert (E2 : forall f, remaining (programmed len ret f)
                         = u32 (remaining f - len)).
  { intros f. unfold programmed. destruct (ret =? 0); reflexivity. }
  assert (E3 : forall f, in_flash_mode (programmed len ret f) = in_flash_mode f).
  { intros f. unfold programmed. destruct (ret =? 0); reflexivity. }
  assert (E4 : forall f, remaining_erase_sector (programmed len ret f)
                         = remaining_erase_sector f).
  { intros f. unfold programmed. destruct (ret =? 0); reflexivity. }
  assert (E5 : forall f, next_erase_sector (programmed len ret f)
                         = next_erase_sector f).
  { intros f. unfold programmed. destruct (ret =? 0); reflexivity. }
  split; cbn [fs]; rewrite ?E1, ?E2, ?E3; try assumption.
  - rewrite u32_small by lia. lia.
  - rewrite u32_small by lia. lia.
  - rewrite !u32_small by lia. lia.
  - unfold erase_window. rewrite E4, E5. exact W.
Qed.

Lemma frontier_covers_soft len s s' :
  fs s' = fs s -> frontier_covers len s -> frontier_covers len s'.
Proof. intros F H. unfold frontier_covers in *. rewrite F. exact H. Qed.

(** The write cursor and the erase counters when the plain program
    primitive is issued, and the session afterwards. *)
Lemma handle_flash_data_session total_size offset data length n s s' :
  in_session total_size offset s -> 0 <= length -> clamp length s <> 0 ->
  handle_flash_data data length n s = Some (tt, s') ->
  exists s1 s2 ret out,
    erase_ahead (last_sector s (clamp length s)) n s = Some (tt, s1)
    /\ wait_flash_idle n s1 = Some (tt, s2)
    /\ frontier_covers (clamp length s) s1
    /\ frontier_covers (clamp length s) s2
    /\ hw s' = Rom (SPIWrite (next_write (fs s))
                      (firstn (Z.to_nat (clamp length s)) data)
                      (clamp length s)) ret out :: hw s2
    /\ next_erase_sector (fs s') = next_erase_sector (fs s2)
    /\ remaining_erase_sector (fs s') = remaining_erase_sector (fs s2)
    /\ in_session total_size offset s'.
Proof.
  intros IS Hlen Hnz H.
  destruct (handle_flash_data_inv _ _ _ _ _ H)
    as [(Hz & _) | (_ & s1 & s2 & ret & out & E1 & E2 & ->)]; [contradiction|].
  destruct (erase_ahead_covers _ _ _ _ _ _ IS Hlen E1)
    as (IS1 & FC1 & N1 & R1 & _).
  pose proof (soft_wait_flash_idle _ _ _ _ E2) as (F2 & B2 & O2).
  pose proof (clamp_range length s Hlen (ses_remaining _ _ _ IS)) as (C1 & C2).
  exists s1, s2, ret, out.
  split; [exact E1|]. split; [exact E2|]. split; [exact FC1|].
  split; [eapply frontier_covers_soft; eauto|].
  split; [simpl; rewrite F2, N1; reflexivity|].
  split; [unfold programmed; simpl; destruct (ret =? 0); reflexivity|].
  split; [unfold programmed; simpl; destruct (ret =? 0); reflexivity|].
  apply programmed_in_session.
  - eapply in_session_soft; eauto.
  - rewrite F2, R1. lia.
Qed.

(** The same on the encrypted path; [s0] is the machine after the
    encrypted-write latch was enabled. *)
Lemma handle_flash_encrypt_data_session total_size offset data length n s s' :
  in_session total_size offset s -> 0 <= length -> clamp length s <> 0 ->
  handle_flash_encrypt_data data length n s = Some (tt, s') ->
  exists s0 s1 s2 ret out post,
    same_soft s s0
    /\ erase_ahead (last_sector s (clamp length s)) n s0 = Some (tt, s1)
    /\ wait_flash_idle n s1 = Some (tt, s2)
    /\ frontier_covers (clamp length s) s1
    /\ frontier_covers (clamp length s) s2
    /\ hw s' = post ++ Rom (encrypt_primitive (next_write (fs s))
                              (firstn (Z.to_nat (clamp length s)) data)
                              (clamp length s)) ret out :: hw s2
    /\ next_erase_sector (fs s') = next_erase_sector (fs s2)
    /\ remaining_erase_sector (fs s') = remaining_erase_sector (fs s2)
    /\ in_session total_size offset s'.
Proof.
  intros IS Hlen Hnz H.
  destruct (handle_flash_encrypt_data_inv _ _ _ _ _ H)
    as (s0 & S0 & [(Hz & _) |
          (_ & s1 & s2 & ret & out & t & E1 & E2 & (post & ->) & ->)]);
    [contradiction|].
  pose proof S0 as (F0 & B0 & O0).
  assert (IS0 : in_session total_size offset s0)
    by (eapply in_session_soft; eauto).
  assert (Ecl : clamp length s0 = clamp length s).
  { unfold clamp. rewrite F0. reflexivity. }
  assert (Els : last_sector s0 (clamp length s0) = last_sector s (clamp length s)).
  { unfold last_sector. rewrite Ecl, F0. reflexivity. }
  rewrite <- Els in E1.
  destruct (erase_ahead_covers _ _ _ _ _ _ IS0 Hlen E1)
    as (IS1 & FC1 & N1 & R1 & _).
  rewrite Els in E1. rewrite Ecl in FC1.
  pose proof (soft_wait_flash_idle _ _ _ _ E2) as (F2 & B2 & O2).
  pose proof (clamp_range length s Hlen (ses_remaining _ _ _ IS)) as (C1 & C2).
  exists s0, s1, s2, ret, out, post.
  split; [exact S0|].
  split; [exact E1|]. split; [exact E2|]. split; [exact FC1|].
  split; [eapply frontier_covers_soft; eauto|].
  split; [simpl; rewrite F2, N1, F0; reflexivity|].
  split; [unfold programmed; simpl; destruct (ret =? 0); reflexivity|].
  split; [unfold programmed; simpl; destruct (ret =? 0); reflexivity|].
  apply programmed_in_session.
  - eapply in_session_soft; eauto.
  - rewrite F2, R1, F0. lia.
Qed.

End SessionWrites.

(** * Begin, end and the frames of the handlers *)

Section Begin.
Context {T : Target}.

Lemma handle_flash_begin_inv total_size offset n s e s' :
  handle_flash_begin total_size offset n s = Some (e, s') ->
  exists r,
    SPIUnlock n (set_fs (begin_fs total_size offset) s) = Some (r, s')
    /\ e = (if negb (r =? 0) then ESP_FAILED_SPI_UNLOCK else ESP_OK)
    /\ fs s' = begin_fs total_size offset (fs s)
    /\ out_buf s' = out_buf s /\ next_out s' = next_out s.
Proof.
  unfold handle_flash_begin. intros H.
  bind_inv H as u0 s0 E0. leaf_inv E0.
  bind_inv H as r s1 E1.
  pose proof (soft_SPIUnlock _ _ _ _ E1) as (F & B & O).
  exists r.
  destruct (negb (r =? 0)); leaf_inv H; repeat split; assumption.
Qed.

Lemma handle_flash_begin_in_session total_size offset n s e s' :
  valid_region total_size offset ->
  handle_flash_begin total_size offset n s = Some (e, s') ->
  in_session total_size offset s'.
Proof.
  intros V H.
  destruct (handle_flash_begin_inv _ _ _ _ _ _ H) as (r & _ & _ & F & _).
  eapply (in_session_soft _ _ (set_fs (begin_fs total_size offset) s));
    [exact F|].
  apply begin_fs_in_session, V.
Qed.

End Begin.

Section Frames.
Context {T : Target}.

Lemma erase_frame_refl s : erase_frame s s.
Proof.
  split; [apply same_but_erase_refl|]. repeat split. apply emitted_refl.
Qed.

Lemma erase_frame_trans s1 s2 s3 :
  erase_frame s1 s2 -> erase_frame s2 s3 -> erase_frame s1 s3.
Proof.
  intros (A1 & B1 & C1 & D1) (A2 & B2 & C2 & D2).
  split; [eapply same_but_erase_trans; eauto|].
  split; [congruence|]. split; [congruence|].
  eapply emitted_trans; eauto.
Qed.

Lemma erase_frame_of_soft s s' :
  same_soft s s' -> emitted quiet s s' -> erase_frame s s'.
Proof.
  intros (F & B & O) G. split; [rewrite F; apply same_but_erase_refl|].
  split; [exact B|]. split; [exact O|].
  eapply emitted_weaken; [|exact G]. apply no_rom_of_quiet.
Qed.

Lemma erase_frame_start_next_erase : respects erase_frame start_next_erase.
Proof.
  intros n s [] s' H.
  destruct (start_next_erase_inv _ _ _ H)
    as [(_ & ->) | [(_ & Hp) | (Hnz & _ & F & B & O & G)]].
  - apply erase_frame_refl.
  - apply erase_frame_of_soft.
    + exact (soft_spiflash_is_ready _ _ _ _ Hp).
    + exact (quiet_spiflash_is_ready _ _ _ _ Hp).
  - split; [rewrite F; apply same_but_erase_erased|].
    split; [exact B|]. split; [exact O|].
    apply erase_issued_no_rom, G.
Qed.

Lemma erase_frame_erase_ahead last : respects erase_frame (erase_ahead last).
Proof.
  unfold erase_ahead, spin. apply respects_while.
  - apply erase_frame_refl.
  - apply erase_frame_trans.
  - intros _. apply respects_bind; [apply erase_frame_trans| |intro].
    + apply respects_get, erase_frame_refl.
    + apply respects_ret, erase_frame_refl.
  - intros _. apply erase_frame_start_next_erase.
Qed.

(** The plain write path on any machine with a non-zero clamped length:
    register traffic up to [s2], then the program primitive at the write
    cursor, then the accounting. *)
Lemma handle_flash_data_effect data length n s s' :
  handle_flash_data data length n s = Some (tt, s') ->
  clamp length s <> 0 ->
  exists s2 ret out,
    erase_frame s s2
    /\ hw s' = Rom (SPIWrite (next_write (fs s))
                      (firstn (Z.to_nat (clamp length s)) data)
                      (clamp length s)) ret out :: hw s2
    /\ fs s' = programmed (clamp length s) ret (fs s2)
    /\ out_buf s' = out_buf s /\ next_out s' = next_out s.
Proof.
  intros H Hnz.
  destruct (handle_flash_data_inv _ _ _ _ _ H)
    as [(Hz & _) | (_ & s1 & s2 & ret & out & E1 & E2 & ->)]; [contradiction|].
  pose proof (erase_frame_erase_ahead _ _ _ _ _ E1) as F1.
  pose proof (erase_frame_of_soft _ _ (soft_wait_flash_idle _ _ _ _ E2)
                (quiet_wait_flash_idle _ _ _ _ E2)) as F2.
  pose proof (erase_frame_trans _ _ _ F1 F2) as F.
  exists s2, ret, out. split; [exact F|].
  destruct F as ((_ & Nw & _) & B & O & _).
  simpl. rewrite Nw. repeat split; assumption.
Qed.

Lemma handle_flash_encrypt_data_effect data length n s s' :
  handle_flash_encrypt_data data length n s = Some (tt, s') ->
  clamp length s <> 0 ->
  exists s2 ret out post,
    same_but_erase (fs s) (fs s2)
    /\ hw s' = post ++ Rom (encrypt_primitive (next_write (fs s))
                              (firstn (Z.to_nat (clamp length s)) data)
                              (clamp length s)) ret out :: hw s2
    /\ fs s' = programmed (clamp length s) ret (fs s2)
    /\ out_buf s' = out_buf s /\ next_out s' = next_out s.
Proof.
  intros H Hnz.
  destruct (handle_flash_encrypt_data_inv _ _ _ _ _ H)
    as (s0 & (F0 & B0 & O0) & [(Hz & _) |
          (_ & s1 & s2 & ret & out & t & E1 & E2 & (post & ->) & ->)]);
    [contradiction|].
  pose proof (erase_frame_erase_ahead _ _ _ _ _ E1) as F1.
  pose proof (erase_frame_of_soft _ _ (soft_wait_flash_idle _ _ _ _ E2)
                (quiet_wait_flash_idle _ _ _ _ E2)) as F2.
  pose proof (erase_frame_trans _ _ _ F1 F2) as (Sb & B & O & _).
  rewrite F0 in Sb.
  exists s2, ret, out, post. split; [exact Sb|].
  destruct Sb as (_ & Nw & _).
  simpl. rewrite Nw. repeat split; congruence.
Qed.

End Frames.

Section BeginEnd.
Context {T : Target}.

Lemma mono_handle_flash_end : mono handle_flash_end.
Proof. unfold handle_flash_end. mono_tac. Qed.

Lemma returns_handle_flash_end s : returns handle_flash_end s.
Proof.
  exists O. unfold handle_flash_end, bind, get, modify, ret.
  destruct (negb (in_flash_mode (fs s))); [eexists; reflexivity|].
  destruct (0 <? remaining (fs s)); eexists; reflexivity.
Qed.

(** The three exits of [handle_flash_end]. *)
Lemma handle_flash_end_idle n s :
  in_flash_mode (fs s) = false ->
  handle_flash_end n s = Some (ESP_NOT_IN_FLASH_MODE, s).
Proof.
  intros E. unfold handle_flash_end, bind, get, modify, ret.
  rewrite E. reflexivity.
Qed.

Lemma handle_flash_end_short n s :
  in_flash_mode (fs s) = true -> 0 < remaining (fs s) ->
  handle_flash_end n s = Some (ESP_NOT_ENOUGH_DATA, s).
Proof.
  intros E Hr. unfold handle_flash_end, bind, get, modify, ret.
  apply Z.ltb_lt in Hr. rewrite E, Hr. reflexivity.
Qed.

Lemma handle_flash_end_closes n s :
  in_flash_mode (fs s) = true -> remaining (fs s) <= 0 ->
  handle_flash_end n s
  = Some (last_error (fs s), set_fs (set_in_flash_mode false) s).
Proof.
  intros E Hr. unfold handle_flash_end, bind, get, modify, ret.
  apply Z.ltb_ge in Hr. rewrite E, Hr. reflexivity.
Qed.

End BeginEnd.

(** * The three data operations and relations on [fs] *)

Section DataOperations.
Context {T : Target}.

(** [Rf] relates [fs] before and after a step; it is a preorder kept by
    each elementary update the data phase makes. *)
Variable Rf : flash_state -> flash_state -> Prop.
Hypothesis Rf_refl : forall f, Rf f f.
Hypothesis Rf_trans : forall f1 f2 f3, Rf f1 f2 -> Rf f2 f3 -> Rf f1 f3.
Hypothesis Rf_erased :
  forall f, remaining_erase_sector f <> 0 -> Rf f (erased f).
Hypothesis Rf_programmed :
  forall f length ret,
    0 <= length ->
    (if remaining f <? length then remaining f else length) <> 0 ->
    Rf f (programmed (if remaining f <? length then remaining f else length)
                     ret f).
Hypothesis Rf_error :
  forall f e, e <> ESP_OK -> Rf f (set_last_error e f).
Hypothesis Rf_inflate :
  forall f d v, Rf f (set_remaining_compressed v (set_inflator d f)).

Lemma lifted_refl s : (lifted Rf) s s.
Proof. apply Rf_refl. Qed.

Lemma lifted_trans s1 s2 s3 : (lifted Rf) s1 s2 -> (lifted Rf) s2 s3 -> (lifted Rf) s1 s3.
Proof. apply Rf_trans. Qed.

Lemma lifted_soft s s' : fs s' = fs s -> (lifted Rf) s s'.
Proof. intros F. unfold lifted. rewrite F. apply Rf_refl. Qed.

Lemma lifted_start_next_erase : respects (lifted Rf) start_next_erase.
Proof.
  intros n s [] s' H.
  destruct (start_next_erase_inv _ _ _ H)
    as [(_ & ->) | [(_ & Hp) | (Hnz & _ & F & _)]].
  - apply lifted_refl.
  - apply lifted_soft. apply (soft_spiflash_is_ready _ _ _ _ Hp).
  - unfold lifted. rewrite F. apply Rf_erased, Hnz.
Qed.

Lemma lifted_erase_ahead last : respects (lifted Rf) (erase_ahead last).
Proof.
  unfold erase_ahead, spin. apply respects_while.
  - apply lifted_refl.
  - apply lifted_trans.
  - intros _. apply respects_bind; [apply lifted_trans| |intro].
    + apply respects_get, lifted_refl.
    + apply respects_ret, lifted_refl.
  - intros _. apply lifted_start_next_erase.
Qed.

Lemma lifted_handle_flash_data data length :
  0 <= length -> respects (lifted Rf) (handle_flash_data data length).
Proof.
  intros Hlen n s [] s' H.
  destruct (handle_flash_data_inv _ _ _ _ _ H)
    as [(_ & ->) | (Hnz & s1 & s2 & ret & out & E1 & E2 & ->)].
  { apply lifted_refl. }
  pose proof (lifted_erase_ahead _ _ _ _ _ E1) as L1.
  pose proof (erase_frame_erase_ahead _ _ _ _ _ E1) as ((_ & _ & Er & _) & _).
  pose proof (soft_wait_flash_idle _ _ _ _ E2) as (F2 & _ & _).
  eapply lifted_trans; [exact L1|].
  unfold lifted. simpl. rewrite F2.
  unfold clamp in *. rewrite <- Er in *.
  apply Rf_programmed; assumption.
Qed.

Lemma lifted_handle_flash_encrypt_data data length :
  0 <= length -> respects (lifted Rf) (handle_flash_encrypt_data data length).
Proof.
  intros Hlen n s [] s' H.
  destruct (handle_flash_encrypt_data_inv _ _ _ _ _ H)
    as (s0 & (F0 & _ & _) & [(_ & ->) |
          (Hnz & s1 & s2 & ret & out & t & E1 & E2 & _ & ->)]).
  { apply lifted_soft, F0. }
  pose proof (lifted_erase_ahead _ _ _ _ _ E1) as L1.
  pose proof (erase_frame_erase_ahead _ _ _ _ _ E1) as ((_ & _ & Er & _) & _).
  pose proof (soft_wait_flash_idle _ _ _ _ E2) as (F2 & _ & _).
  eapply lifted_trans; [apply lifted_soft, F0|].
  eapply lifted_trans; [exact L1|].
  unfold lifted. simpl. rewrite F2.
  unfold clamp in *. rewrite <- F0, <- Er in *.
  apply Rf_programmed; assumption.
Qed.

Lemma u32_nonneg z : 0 <= u32 z.
Proof. unfold u32. apply Z.mod_pos_bound. lia. Qed.

Lemma lifted_deflate_body l : respects (lifted Rf) (deflate_body l).
Proof.
  unfold deflate_body.
  apply respects_bind; [apply lifted_trans| |intro s0].
  { apply respects_get, lifted_refl. }
  cbv zeta.
  apply respects_bind; [apply lifted_trans| |intro].
  { apply lifted_start_next_erase. }
  apply respects_bind; [apply lifted_trans| |intro s1].
  { apply respects_get, lifted_refl. }
  apply respects_bind; [apply lifted_trans| |intro].
  { apply respects_modify. intros s. apply Rf_inflate. }
  apply respects_bind; [apply lifted_trans| |intro s2].
  { apply respects_get, lifted_refl. }
  apply respects_bind; [apply lifted_trans| |intro].
  { apply respects_if.
    - apply respects_bind; [apply lifted_trans| |intro].
      + apply lifted_handle_flash_data, u32_nonneg.
      + apply respects_modify. intros s. apply lifted_soft. reflexivity.
    - apply respects_ret, lifted_refl. }
  apply respects_ret, lifted_refl.
Qed.

Lemma lifted_deflate_loop data length : respects (lifted Rf) (deflate_loop data length).
Proof.
  unfold deflate_loop. apply respects_while.
  - apply lifted_refl.
  - apply lifted_trans.
  - intros l. unfold deflate_cond.
    apply respects_bind; [apply lifted_trans| |intro].
    + apply respects_get, lifted_refl.
    + apply respects_ret, lifted_refl.
  - apply lifted_deflate_body.
Qed.

Lemma lifted_deflate_finish st : respects (lifted Rf) (deflate_finish st).
Proof.
  unfold deflate_finish.
  apply respects_bind; [apply lifted_trans| |intro].
  { apply respects_if; [|apply respects_ret, lifted_refl].
    apply respects_modify. intros s. apply Rf_error. discriminate. }
  apply respects_bind; [apply lifted_trans| |intro].
  { apply respects_get, lifted_refl. }
  apply respects_bind; [apply lifted_trans| |intro].
  { apply respects_if; [|apply respects_ret, lifted_refl].
    apply respects_modify. intros s. apply Rf_error. discriminate. }
  apply respects_bind; [apply lifted_trans| |intro].
  { apply respects_get, lifted_refl. }
  apply respects_if; [|apply respects_ret, lifted_refl].
  apply respects_modify. intros s. apply Rf_error. discriminate.
Qed.

Lemma lifted_handle_flash_deflated_data data length :
  respects (lifted Rf) (handle_flash_deflated_data data length).
Proof.
  unfold handle_flash_deflated_data.
  apply respects_bind; [apply lifted_trans| |intro].
  - apply lifted_deflate_loop.
  - apply lifted_deflate_finish.
Qed.

End DataOperations.

(** * The decompression loop ends *)

Section LoopTermination.
Context {T : Target}.

Lemma returns_while_done {L} (c : L -> M bool) (b : L -> M L) l n s s0 :
  (forall l, mono (c l)) ->
  c l n s = Some (false, s0) -> returns (while_ c b l) s.
Proof.
  intros Mc Hc. exists (S n), (l, s0). unfold while_. simpl.
  rewrite (Mc l n (S n) s _ (Nat.le_succ_diag_r n) Hc). reflexivity.
Qed.

Lemma returns_while_step {L} (c : L -> M bool) (b : L -> M L) l n s s0 l1 s1 :
  (forall l, mono (c l)) -> (forall l, mono (b l)) ->
  c l n s = Some (true, s0) -> b l n s0 = Some (l1, s1) ->
  returns (while_ c b l1) s1 -> returns (while_ c b l) s.
Proof.
  intros Mc Mb Hc Hb (m & r & Hm).
  exists (S (Nat.max n m)), r. unfold while_ in *. simpl.
  rewrite (Mc l n (S (Nat.max n m)) s _ ltac:(lia) Hc).
  rewrite (Mb l n (S (Nat.max n m)) s0 _ ltac:(lia) Hb).
  eapply iter_mono; [| | |exact Hm]; [| |lia].
  - intros l0 s2 r0. apply Mc. lia.
  - intros l0 s2 r0. apply Mb. lia.
Qed.

End LoopTermination.

Section DeflateLoop.
Context {T : Target}.

Lemma deflate_body_inv l n s l1 s1 :
  deflate_body l n s = Some (l1, s1) ->
  exists se,
    start_next_erase n s = Some (tt, se)
    /\ let r := inflate_call l s se in
       let sm := inflated r se in
       l1 = mk_locals (skipn (Z.to_nat (t_in r)) (l_data l))
                      (u32 (l_length l - t_in r)) (t_status r)
       /\ ((flush_due r sm = true
            /\ exists sf,
                handle_flash_data (out_buf sm) (u32 (next_out sm)) n sm
                = Some (tt, sf)
                /\ s1 = mk_stub (fs sf) (out_buf sf) 0 (hw sf))
           \/ (flush_due r sm = false /\ s1 = sm)).
Proof.
  unfold deflate_body. intros H.
  bind_inv H as s0 s0' E0. leaf_inv E0. cbv zeta in H.
  bind_inv H as u1 se E1. destruct u1.
  bind_inv H as se' se'' E2. leaf_inv E2.
  exists se''. split; [exact E1|].
  unfold flush_due, inflated, inflate_call. cbv zeta.
  set (r := tinfl_decompress _ _ _ _ _ _ _) in *.
  bind_inv H as u3 sm E3. unfold modify in E3.
  injection E3 as _ Esm. rewrite Esm. clear Esm.
  bind_inv H as sm' sm'' E4. unfold get in E4.
  injection E4 as E4a E4b. subst sm' sm''.
  bind_inv H as u5 s5 E5.
  unfold ret in H. injection H as El Es. subst s5.
  split; [symmetry; exact El|].
  match type of E5 with
  | (if ?c then _ else _) _ _ = _ => destruct c eqn:Ef
  end.
  - left. split; [reflexivity|].
    bind_inv E5 as u6 sf E6. destruct u6.
    unfold modify in E5. injection E5 as _ Es1.
    exists sf. split; [exact E6|symmetry; exact Es1].
  - right. unfold ret in E5. injection E5 as _ Es1.
    split; [reflexivity|symmetry; exact Es1].
Qed.

End DeflateLoop.

Section DeflateTermination.
Context {T : Target}.
Hypothesis live : Responsive.
Hypothesis engine : tinfl_contract.

Lemma returns_deflate_body l s : returns (deflate_body l) s.
Proof.
  unfold deflate_body.
  apply returns_bind; [solve [mono_tac] | solve [mono_tac] | | intros ? ? ? _].
  { apply returns_get. }
  cbv zeta.
  apply returns_bind; [solve [mono_tac] | solve [mono_tac] | | intros ? ? ? _].
  { apply returns_start_next_erase, live. }
  apply returns_bind; [solve [mono_tac] | solve [mono_tac] | | intros ? ? ? _].
  { apply returns_get. }
  apply returns_bind; [solve [mono_tac] | solve [mono_tac] | | intros ? ? ? _].
  { apply returns_modify. }
  apply returns_bind; [solve [mono_tac] | solve [mono_tac] | | intros ? ? ? _].
  { apply returns_get. }
  apply returns_bind; [solve [mono_tac] | solve [mono_tac] | | intros ? ? ? _].
  { apply returns_if; [|apply returns_ret].
    apply returns_bind; [solve [mono_tac] | solve [mono_tac] | | intros ? ? ? _].
    - apply returns_handle_flash_data, live.
    - apply returns_modify. }
  apply returns_ret.
Qed.

Lemma returns_deflate_finish st s : returns (deflate_finish st) s.
Proof.
  unfold deflate_finish.
  apply returns_bind; [solve [mono_tac] | solve [mono_tac] | | intros ? ? ? _].
  { apply returns_if; [apply returns_modify|apply returns_ret]. }
  apply returns_bind; [solve [mono_tac] | solve [mono_tac] | | intros ? ? ? _].
  { apply returns_get. }
  apply returns_bind; [solve [mono_tac] | solve [mono_tac] | | intros ? ? ? _].
  { apply returns_if; [apply returns_modify|apply returns_ret]. }
  apply returns_bind; [solve [mono_tac] | solve [mono_tac] | | intros ? ? ? _].
  { apply returns_get. }
  apply returns_if; [apply returns_modify|apply returns_ret].
Qed.

Lemma deflate_cond_run l n s :
  deflate_cond l n s = Some (deflate_continues l s, s).
Proof. reflexivity. Qed.

Lemma returns_deflate_while :
  forall m l s,
    Z.to_nat (remaining (fs s)) = m ->
    0 <= remaining (fs s) < 4294967296 ->
    0 <= next_out s < OUT_BUF_SIZE ->
    returns (while_ deflate_cond deflate_body l) s.
Proof.
  induction m as [m IH] using lt_wf_ind. intros l s Hm Hrem Hout.
  destruct (deflate_continues l s) eqn:Hc.
  2:{ eapply (returns_while_done _ _ l O);
        [apply mono_deflate_cond|]. rewrite deflate_cond_run, Hc. reflexivity. }
  unfold deflate_continues in Hc.
  apply andb_true_iff in Hc. destruct Hc as (Hc & Hst).
  apply andb_true_iff in Hc. destruct Hc as (Hlen & Hpos).
  apply Z.ltb_lt in Hlen, Hpos, Hst.
  destruct (returns_deflate_body l s) as (n & [l1 s1] & E).
  assert (Hstep : returns (while_ deflate_cond deflate_body l1) s1 ->
                  returns (while_ deflate_cond deflate_body l) s).
  { eapply (returns_while_step _ _ l n s s);
      [apply mono_deflate_cond|apply mono_deflate_body| |exact E].
    rewrite deflate_cond_run. unfold deflate_continues.
    apply Z.ltb_lt in Hlen, Hpos, Hst. rewrite Hlen, Hpos, Hst. reflexivity. }
  apply Hstep.
  assert (Hstop : deflate_continues l1 s1 = false ->
                  returns (while_ deflate_cond deflate_body l1) s1).
  { intros Hf. eapply (returns_while_done _ _ l1 O);
      [apply mono_deflate_cond|]. rewrite deflate_cond_run, Hf. reflexivity. }
  destruct (deflate_body_inv _ _ _ _ _ E) as (se & Ee & Hbody).
  cbv zeta in Hbody. destruct Hbody as (El1 & Hcases).
  pose proof (erase_frame_start_next_erase _ _ _ _ Ee)
    as ((_ & _ & Rse & _) & _ & Ose & _).
  set (r := inflate_call l s se) in *.
  assert (Hout_sm : next_out (inflated r se) = next_out s + t_out r).
  { unfold inflated. simpl. rewrite Ose. reflexivity. }
  assert (Hrem_sm : remaining (fs (inflated r se)) = remaining (fs s)).
  { unfold inflated. simpl. exact Rse. }
  destruct (engine (inflator (fs se)) (l_data l) (l_length l) (out_buf se)
              (next_out se) (OUT_BUF_SIZE - next_out s)
              (if l_length l <? remaining_compressed (fs s)
               then Z.lor TINFL_FLAG_PARSE_ZLIB_HEADER TINFL_FLAG_HAS_MORE_INPUT
               else TINFL_FLAG_PARSE_ZLIB_HEADER))
    as (Cin & Cout & Cprog); [lia|lia|].
  fold (inflate_call l s se) in Cin, Cout, Cprog. fold r in Cin, Cout, Cprog.
  assert (Hl1s : l_status l1 = t_status r) by (rewrite El1; reflexivity).
  assert (Hl1l : l_length l1 = u32 (l_length l - t_in r))
    by (rewrite El1; reflexivity).
  destruct (Z.le_gt_cases (t_status r) TINFL_STATUS_DONE) as [Hdone|Hmore].
  { (* the engine is done or failed: the loop stops *)
    apply Hstop. unfold deflate_continues. rewrite Hl1s.
    apply Z.ltb_ge in Hdone. rewrite Hdone. apply andb_false_r. }
  destruct Hcases as [(Hflush & sf & Ef & Es1) | (Hflush & Es1)].
  - (* the output buffer is full: the flush consumes expected bytes *)
    unfold flush_due in Hflush. apply orb_true_iff in Hflush.
    destruct Hflush as [Hle|Hfull]; [apply Z.leb_le in Hle; lia|].
    apply Z.eqb_eq in Hfull.
    assert (Hcl : clamp (u32 (next_out (inflated r se))) (inflated r se) <> 0
                  /\ 0 < clamp (u32 (next_out (inflated r se))) (inflated r se)
                     <= remaining (fs s)).
    { rewrite Hfull. unfold clamp. rewrite Hrem_sm.
      unfold OUT_BUF_SIZE. rewrite u32_small by lia.
      destruct (remaining (fs s) <? 32768) eqn:Ec.
      - apply Z.ltb_lt in Ec. lia.
      - apply Z.ltb_ge in Ec. lia. }
    destruct Hcl as (Hnz & Hclr).
    destruct (handle_flash_data_effect _ _ _ _ _ Ef Hnz)
      as (s2 & ret & out & ((_ & _ & R2 & _) & _) & _ & Efs & _).
    set (c := clamp (u32 (next_out (inflated r se))) (inflated r se)) in *.
    assert (Hrem1 : remaining (fs s1) = remaining (fs s) - c).
    { rewrite Es1. cbn [fs]. rewrite Efs. unfold programmed.
      destruct (ret =? 0); cbn [advance set_remaining set_next_write remaining
                                set_last_error];
        rewrite R2, Hrem_sm; apply u32_small; lia. }
    eapply (IH (Z.to_nat (remaining (fs s1)))); [|reflexivity| |].
    + rewrite Hrem1. lia.
    + rewrite Hrem1. lia.
    + rewrite Es1. simpl. unfold OUT_BUF_SIZE. lia.
  - (* not full, so the engine used up its input: the loop stops *)
    unfold flush_due in Hflush. apply orb_false_iff in Hflush.
    destruct Hflush as (_ & Hnf). apply Z.eqb_neq in Hnf.
    destruct (Cprog Hmore) as [Hall|Hfill].
    + apply Hstop. unfold deflate_continues. rewrite Hl1l, Hall.
      rewrite Z.sub_diag. reflexivity.
    + exfalso. apply Hnf. rewrite Hout_sm, Hfill. lia.
Qed.

(** On responsive hardware and with an inflate engine that keeps its
    contract, [handle_flash_deflated_data] returns. *)
Lemma returns_handle_flash_deflated_data data length s :
  0 <= remaining (fs s) < 4294967296 ->
  0 <= next_out s < OUT_BUF_SIZE ->
  returns (handle_flash_deflated_data data length) s.
Proof.
  intros Hrem Hout. unfold handle_flash_deflated_data.
  apply returns_bind; [solve [mono_tac] | solve [mono_tac] | | intros ? ? ? _].
  - unfold deflate_loop. eapply returns_deflate_while; eauto.
  - apply returns_deflate_finish.
Qed.

End DeflateTermination.

(** * Invariants of the data phase *)

Section DataInvariants.
Context {T : Target}.

Lemma do_op_respects Rf o :
  data_invariant Rf -> 0 <= op_length o -> respects (lifted Rf) (do_op o).
Proof.
  intros [A B C D E F] Hlen. destruct o; simpl in *.
  - apply lifted_handle_flash_data; assumption.
  - apply lifted_handle_flash_encrypt_data; assumption.
  - apply lifted_handle_flash_deflated_data; assumption.
Qed.

Lemma data_phase_respects Rf ops :
  data_invariant Rf -> Forall (fun o => 0 <= op_length o) ops ->
  respects (lifted Rf) (data_phase ops).
Proof.
  intros DI H. induction H as [|o rest Ho Hrest IH]; simpl.
  - apply respects_ret. intros s. apply (di_refl _ DI).
  - apply respects_bind.
    + intros s1 s2 s3. apply (di_trans _ DI).
    + apply do_op_respects; assumption.
    + intros _. exact IH.
Qed.

Lemma u32_range z : 0 <= u32 z < 4294967296.
Proof. unfold u32. apply Z.mod_pos_bound. lia. Qed.

Lemma u32_advance a b len :
  u32 (u32 (a + len) + u32 (b - len)) = u32 (a + b).
Proof.
  unfold u32. rewrite <- Zplus_mod. f_equal. lia.
Qed.

Lemma bytes_kept_invariant : data_invariant bytes_kept.
Proof.
  split; unfold bytes_kept.
  - auto.
  - intros f1 f2 f3 (A1 & B1) (A2 & B2). split; [congruence|auto].
  - intros f _. simpl. auto.
  - intros f length ret _ _. unfold programmed.
    destruct (ret =? 0); simpl; split;
      try apply u32_advance; intros _; apply u32_range.
  - intros f e _. simpl. auto.
  - intros f d v. simpl. auto.
Qed.

Lemma error_kept_invariant : data_invariant error_kept.
Proof.
  split; unfold error_kept.
  - auto.
  - auto.
  - intros f _. simpl. auto.
  - intros f length ret _ _. unfold programmed.
    destruct (ret =? 0); simpl; [auto|discriminate].
  - intros f e He. simpl. auto.
  - intros f d v. simpl. auto.
Qed.

Lemma session_kept_invariant total_size offset :
  data_invariant (session_kept total_size offset).
Proof.
  split; unfold session_kept.
  - intros f s s' <- F. apply in_session_soft. exact F.
  - intros f1 f2 f3 H12 H23 s s' F1 F3 IS.
    apply (H23 (mk_stub f2 [] 0 []) s' eq_refl F3).
    apply (H12 s (mk_stub f2 [] 0 []) F1 eq_refl IS).
  - intros f Hnz s s' <- F' [V A C R B W].
    pose proof (end_sector_bound _ _ V) as (B1 & _).
    destruct (erased_window _ _ (proj2 B1) W Hnz) as (W' & _).
    split; rewrite ?F'; try assumption.
  - intros f length ret Hlen Hnz s s' <- F' IS.
    pose proof (clamp_range length s Hlen (ses_remaining _ _ _ IS)) as (C1 & C2).
    unfold clamp in C1, C2.
    eapply in_session_soft;
      [|apply (programmed_in_session _ _ _ ret [] s IS (conj (proj1 C1) (proj2 C1)))].
    rewrite F'. reflexivity.
  - intros f e _ s s' <- F' [V A C R B W].
    split; rewrite ?F'; assumption.
  - intros f d v s s' <- F' [V A C R B W].
    split; rewrite ?F'; assumption.
Qed.

End DataInvariants.

(** * Well-typed machines and sequences of data operations *)

Section WellTyped.
Context {T : Target}.

Lemma remaining_ranged_invariant : data_invariant remaining_ranged.
Proof.
  split; unfold remaining_ranged.
  - auto.
  - auto.
  - intros f _. simpl. auto.
  - intros f length ret _ _ _. unfold programmed.
    destruct (ret =? 0); simpl; apply u32_range.
  - intros f e _. simpl. auto.
  - intros f d v. simpl. auto.
Qed.

Lemma handle_flash_data_statics data length n s s' :
  handle_flash_data data length n s = Some (tt, s') ->
  out_buf s' = out_buf s /\ next_out s' = next_out s.
Proof.
  intros H. destruct (Z.eq_dec (clamp length s) 0) as [Hz|Hnz].
  - destruct (handle_flash_data_inv _ _ _ _ _ H) as [(_ & ->) | (Hnz & _)];
      [auto|contradiction].
  - destruct (handle_flash_data_effect _ _ _ _ _ H Hnz)
      as (_ & _ & _ & _ & _ & _ & B & O). auto.
Qed.

Lemma handle_flash_encrypt_data_statics data length n s s' :
  handle_flash_encrypt_data data length n s = Some (tt, s') ->
  out_buf s' = out_buf s /\ next_out s' = next_out s.
Proof.
  intros H. destruct (Z.eq_dec (clamp length s) 0) as [Hz|Hnz].
  - destruct (handle_flash_encrypt_data_inv _ _ _ _ _ H)
      as (s0 & (_ & B & O) & [(_ & ->) | (Hnz & _)]); [auto|contradiction].
  - destruct (handle_flash_encrypt_data_effect _ _ _ _ _ H Hnz)
      as (_ & _ & _ & _ & _ & _ & _ & B & O). auto.
Qed.

(** [next_out] across the decompression loop. *)
Lemma deflate_body_next_out l n s l1 s1 :
  tinfl_contract -> 0 <= l_length l ->
  0 <= next_out s < OUT_BUF_SIZE ->
  deflate_body l n s = Some (l1, s1) ->
  0 <= next_out s1 < OUT_BUF_SIZE.
Proof.
  intros engine Hlen Hout E.
  destruct (deflate_body_inv _ _ _ _ _ E) as (se & Ee & Hbody).
  cbv zeta in Hbody. destruct Hbody as (_ & Hcases).
  pose proof (erase_frame_start_next_erase _ _ _ _ Ee) as (_ & _ & Ose & _).
  destruct (engine (inflator (fs se)) (l_data l) (l_length l) (out_buf se)
              (next_out se) (OUT_BUF_SIZE - next_out s)
              (if l_length l <? remaining_compressed (fs s)
               then Z.lor TINFL_FLAG_PARSE_ZLIB_HEADER TINFL_FLAG_HAS_MORE_INPUT
               else TINFL_FLAG_PARSE_ZLIB_HEADER))
    as (_ & Cout & _); [lia|lia|].
  fold (inflate_call l s se) in Cout.
  set (r := inflate_call l s se) in *.
  destruct Hcases as [(_ & sf & _ & ->) | (Hflush & ->)].
  - simpl. unfold OUT_BUF_SIZE. lia.
  - unfold flush_due in Hflush. apply orb_false_iff in Hflush.
    destruct Hflush as (_ & Hnf). apply Z.eqb_neq in Hnf.
    unfold inflated in *. cbn [next_out] in *. lia.
Qed.

Lemma deflate_loop_next_out data length n s l s' :
  tinfl_contract -> 0 <= next_out s < OUT_BUF_SIZE ->
  deflate_loop data length n s = Some (l, s') ->
  0 <= next_out s' < OUT_BUF_SIZE.
Proof.
  intros engine Hout H. unfold deflate_loop, while_ in H.
  (* the body only runs when input remains *)
  assert (Hgen : forall k l0 s0 l' s1,
             0 <= next_out s0 < OUT_BUF_SIZE ->
             iter k (fun l => deflate_cond l n) (fun l => deflate_body l n)
                  l0 s0 = Some (l', s1) ->
             0 <= next_out s1 < OUT_BUF_SIZE).
  { induction k as [|k IH]; intros l0 s0 l' s1 H0 Hk; [discriminate|].
    rewrite iter_S in Hk. cbv beta in Hk. rewrite deflate_cond_run in Hk.
    destruct (deflate_continues l0 s0) eqn:Hc.
    - destruct (deflate_body l0 n s0) as [[l2 s2]|] eqn:Eb; [|discriminate].
      eapply IH; [|exact Hk].
      eapply deflate_body_next_out; [exact engine| |exact H0|exact Eb].
      unfold deflate_continues in Hc.
      apply andb_true_iff in Hc. destruct Hc as (Hc & _).
      apply andb_true_iff in Hc. destruct Hc as (Hc & _).
      apply Z.ltb_lt in Hc. lia.
    - inversion Hk; subst. exact H0. }
  eapply Hgen; eauto.
Qed.

Lemma statics_deflate_finish st : respects statics_kept (deflate_finish st).
Proof.
  assert (Hr : forall s, statics_kept s s) by (intros s; split; reflexivity).
  assert (Ht : forall s1 s2 s3,
             statics_kept s1 s2 -> statics_kept s2 s3 -> statics_kept s1 s3).
  { unfold statics_kept. intuition congruence. }
  assert (Hm : forall e,
             respects statics_kept (modify (set_fs (set_last_error e)))).
  { intros e. apply respects_modify. intros s. split; reflexivity. }
  unfold deflate_finish.
  repeat first
    [ apply respects_bind; [exact Ht | | intro]
    | apply respects_if
    | apply respects_ret; exact Hr
    | apply respects_get; exact Hr
    | apply Hm ].
Qed.

Lemma well_typed_do_op o n s s' :
  tinfl_contract -> 0 <= op_length o -> well_typed s ->
  do_op o n s = Some (tt, s') -> well_typed s'.
Proof.
  intros engine Hlen (Hrem & Hout) H.
  split.
  - exact (do_op_respects _ o remaining_ranged_invariant Hlen _ _ _ _ H Hrem).
  - destruct o; simpl in H.
    + destruct (handle_flash_data_statics _ _ _ _ _ H) as (_ & ->). exact Hout.
    + destruct (handle_flash_encrypt_data_statics _ _ _ _ _ H) as (_ & ->).
      exact Hout.
    + unfold handle_flash_deflated_data in H.
      bind_inv H as l s1 E1.
      destruct (statics_deflate_finish _ _ _ _ _ H) as (_ & ->).
      eapply deflate_loop_next_out; eauto.
Qed.

End WellTyped.

Section Sequences.
Context {T : Target}.

Lemma mono_do_op o : mono (do_op o).
Proof. destruct o; simpl; auto with stub_mono. Qed.

Lemma mono_data_phase ops : mono (data_phase ops).
Proof.
  induction ops as [|o rest IH]; simpl.
  - apply mono_ret.
  - apply mono_bind; [apply mono_do_op|intro; exact IH].
Qed.

Lemma returns_do_op o s :
  Responsive -> tinfl_contract -> well_typed s -> returns (do_op o) s.
Proof.
  intros live engine (Hrem & Hout). destruct o; simpl.
  - apply returns_handle_flash_data, live.
  - apply returns_handle_flash_encrypt_data, live.
  - apply returns_handle_flash_deflated_data; assumption.
Qed.

Lemma returns_data_phase ops :
  Responsive -> tinfl_contract ->
  Forall (fun o => 0 <= op_length o) ops ->
  forall s, well_typed s -> returns (data_phase ops) s.
Proof.
  intros live engine H. induction H as [|o rest Ho Hrest IH]; intros s WT; simpl.
  - apply returns_ret.
  - apply returns_bind.
    + apply mono_do_op.
    + intro. apply mono_data_phase.
    + apply returns_do_op; assumption.
    + intros n [] s1 E. apply IH. eapply well_typed_do_op; eauto.
Qed.

Lemma returns_flash_session total_size offset ops s :
  Responsive -> tinfl_contract ->
  0 <= total_size < 4294967296 ->
  Forall (fun o => 0 <= op_length o) ops ->
  0 <= next_out s < OUT_BUF_SIZE ->
  returns (flash_session total_size offset ops) s.
Proof.
  intros live engine Ht Hops Hout. unfold flash_session.
  apply returns_bind.
  - apply mono_handle_flash_begin.
  - intro. apply mono_data_phase.
  - apply returns_handle_flash_begin, live.
  - intros n e s1 E. apply returns_data_phase; try assumption.
    destruct (handle_flash_begin_inv _ _ _ _ _ _ E) as (r & _ & _ & F & _ & O).
    split; [rewrite F; simpl; exact Ht|rewrite O; exact Hout].
Qed.

Lemma accounting_kept_invariant total_size offset :
  0 <= offset -> offset + total_size < 4294967296 ->
  data_invariant (accounting_kept total_size offset).
Proof.
  intros Ho Hsum. split; unfold accounting_kept, accounted.
  - auto.
  - auto.
  - intros f _. simpl. auto.
  - intros f length ret Hlen _ (A & B & C).
    assert (Hc : 0 <= (if remaining f <? length then remaining f else length)
                 <= remaining f).
    { destruct (remaining f <? length) eqn:E.
      - lia.
      - apply Z.ltb_ge in E. lia. }
    set (c := if remaining f <? length then remaining f else length) in *.
    assert (E1 : next_write (programmed c ret f) = next_write f + c).
    { unfold programmed. destruct (ret =? 0); simpl; apply u32_small; lia. }
    assert (E2 : remaining (programmed c ret f) = remaining f - c).
    { unfold programmed. destruct (ret =? 0); simpl; apply u32_small; lia. }
    rewrite E1, E2. lia.
  - intros f e _. simpl. auto.
  - intros f d v. simpl. auto.
Qed.

End Sequences.

Section DataPhase.
Context {T : Target}.

(** What the program primitive of a plain or encrypted write leaves in
    [fs]. *)
Lemma programmed_fields len ret f :
  last_error (programmed len ret f)
  = (if ret =? 0 then last_error f else ESP_FAILED_SPI_OP)
  /\ next_write (programmed len ret f) = u32 (next_write f + len)
  /\ remaining (programmed len ret f) = u32 (remaining f - len).
Proof. unfold programmed. destruct (ret =? 0); repeat split. Qed.

Lemma deflate_finish_run status n s :
  deflate_finish status n s
  = Some (tt,
          set_fs (fun f =>
            if data_surplus status (remaining f)
            then set_last_error ESP_TOO_MUCH_DATA f
            else if data_missing status (remaining f)
            then set_last_error ESP_NOT_ENOUGH_DATA f
            else if inflate_failed status
            then set_last_error ESP_INFLATE_ERROR f
            else f) s).
Proof.
  unfold deflate_finish, data_surplus, data_missing, inflate_failed,
    bind, get, modify, ret, set_fs.
  destruct s as [f ob no t]. simpl.
  destruct (status <? TINFL_STATUS_DONE);
    destruct (status =? TINFL_STATUS_DONE); simpl;
    destruct (0 <? remaining f); simpl;
    destruct (remaining f =? 0); simpl; try reflexivity;
    destruct f; reflexivity.
Qed.

Lemma handle_flash_deflated_begin_inv uncompressed_size compressed_size offset
      n s e s' :
  handle_flash_deflated_begin uncompressed_size compressed_size offset n s
  = Some (e, s') ->
  exists s1,
    handle_flash_begin uncompressed_size offset n s = Some (e, s1)
    /\ fs s' = set_remaining_compressed compressed_size
                 (set_inflator (tinfl_init (inflator (fs s1))) (fs s1))
    /\ out_buf s' = out_buf s1 /\ next_out s' = next_out s1
    /\ hw s' = hw s1.
Proof.
  unfold handle_flash_deflated_begin. intros H.
  bind_inv H as e1 s1 E1.
  bind_inv H as u2 s2 E2. unfold modify in E2. injection E2 as _ <-.
  bind_inv H as u3 s3 E3. unfold modify in E3. injection E3 as _ <-.
  unfold ret in H. injection H as <- <-.
  exists s1. split; [exact E1|]. repeat split.
Qed.

(** [handle_flash_deflated_begin] resets
    the inflate engine and sets [remaining_compressed] to the new
    compressed size; [out_buf] and its fill offset [next_out], statics of
    [handle_flash_deflated_data], are left exactly as the previous
    session left them. *)
Lemma deflated_begin_resets_engine_only uncompressed_size compressed_size
      offset n s e s' :
  handle_flash_deflated_begin uncompressed_size compressed_size offset n s
  = Some (e, s') ->
  inflator (fs s') = tinfl_init (inflator (fs s))
  /\ remaining_compressed (fs s') = compressed_size
  /\ next_out s' = next_out s /\ out_buf s' = out_buf s.
Proof.
  intros H.
  destruct (handle_flash_deflated_begin_inv _ _ _ _ _ _ _ H)
    as (s1 & E1 & F & B & O & _).
  destruct (handle_flash_begin_inv _ _ _ _ _ _ E1) as (r & _ & _ & F1 & B1 & O1).
  rewrite F, F1. simpl. repeat split; congruence.
Qed.

End DataPhase.

Lemma begin_opens_erase_window {T : Target} total_size offset f :
  0 <= total_size < 4294967296 -> 0 <= offset < 4294967296 ->
  window_open (begin_fs total_size offset f).
Proof.
  intros Ht Ho.
  exists (offset / FLASH_SECTOR_SIZE
          + u32 (u32 (offset mod FLASH_SECTOR_SIZE) + total_size
                 + FLASH_SECTOR_SIZE - 1) / FLASH_SECTOR_SIZE).
  pose proof (u32_range (u32 (offset mod FLASH_SECTOR_SIZE) + total_size
                         + FLASH_SECTOR_SIZE - 1)) as Hu.
  unfold FLASH_SECTOR_SIZE in *.
  set (x := u32 (u32 (offset mod 4096) + total_size + 4096 - 1)) in *.
  assert (E1 : i32 (offset / 4096) = offset / 4096)
    by (apply i32_small; Z.div_mod_to_equations; lia).
  assert (E2 : i32 (x / 4096) = x / 4096)
    by (apply i32_small; Z.div_mod_to_equations; lia).
  split; [Z.div_mod_to_equations; lia|].
  unfold erase_window, begin_fs, FLASH_SECTOR_SIZE.
  cbn [remaining_erase_sector next_erase_sector set_last_error
       set_remaining_erase_sector set_remaining set_next_erase_sector
       set_next_write set_in_flash_mode].
  fold x. rewrite E1, E2.
  Z.div_mod_to_equations. lia.
Qed.

Lemma window_open_invariant {T : Target} :
  data_invariant (fun f f' => window_open f -> window_open f').
Proof.
  split.
  - auto.
  - auto.
  - intros f Hnz (E & HE & W). exists E. split; [exact HE|].
    apply erased_window; assumption.
  - intros f length ret _ _ (E & HE & W). exists E. split; [exact HE|].
    unfold programmed, erase_window in *. destruct (ret =? 0); exact W.
  - intros f e _ (E & HE & W). exists E. split; [exact HE|exact W].
  - intros f d v (E & HE & W). exists E. split; [exact HE|exact W].
Qed.

(** * The histories of the driver primitives *)

Section DriverHistories.
Context {T : Target}.

Lemma spin_polls r (done : Z -> bool) n s s' :
  spin (v <- READ_REG r ;; ret (negb (done v))) (ret tt) n s = Some (tt, s') ->
  exists seg, hw s' = seg ++ hw s /\ polls_until r done seg /\ same_soft s s'.
Proof.
  unfold spin, while_.
  generalize n at 1. intros k. revert s.
  induction k as [|k IH]; intros s H; [discriminate|].
  rewrite iter_S in H. cbv beta in H.
  unfold bind at 1, READ_REG at 1, ret at 1 in H.
  destruct (done (reg_value (hw s) r)) eqn:Ed; simpl in H.
  - inversion H; subst. exists [RdReg r (reg_value (hw s) r)]. simpl.
    split; [reflexivity|]. split; [|repeat split].
    exists (reg_value (hw s) r), []. repeat split; auto.
  - apply IH in H. destruct H as (seg & Eh & (v & rest & Es & Dv & Fr) & (F & B & O)).
    simpl in Eh, F, B, O.
    exists (seg ++ [RdReg r (reg_value (hw s) r)]).
    rewrite <- app_assoc. simpl. split; [exact Eh|].
    split; [|repeat split; assumption].
    exists v, (rest ++ [RdReg r (reg_value (hw s) r)]).
    subst seg. split; [reflexivity|]. split; [exact Dv|].
    apply Forall_app. split; [exact Fr|]. constructor; [|constructor].
    eexists. split; [reflexivity|exact Ed].
Qed.

Lemma polls_until_is_poll r done seg :
  polls_until r done seg -> Forall is_poll seg.
Proof.
  intros (v & rest & -> & _ & F). constructor; [exact I|].
  eapply Forall_impl; [|exact F]. intros e (w & -> & _). exact I.
Qed.

Lemma wait_cmd_done_polls n s s' :
  wait_cmd_done n s = Some (tt, s') ->
  exists seg, hw s' = seg ++ hw s
              /\ polls_until SPI_CMD_REG (fun w => w =? 0) seg
              /\ same_soft s s'.
Proof.
  unfold wait_cmd_done. intros H.
  exact (spin_polls SPI_CMD_REG (fun w => w =? 0) _ _ _ H).
Qed.

Lemma wip_bit v : (Z.land v STATUS_WIP_BIT =? 0) = negb (Z.testbit v 0).
Proof.
  unfold STATUS_WIP_BIT. change (Z.shiftl 1 0) with (Z.ones 1).
  rewrite Z.land_ones by lia. rewrite Z.bit0_odd.
  change (2 ^ 1) with 2. rewrite Zmod_odd.
  destruct (Z.odd v); reflexivity.
Qed.


Lemma spiflash_is_ready_shape n s r s' :
  spiflash_is_ready n s = Some (r, s') ->
  exists v seg,
    hw s' = seg ++ hw s /\ status_read v seg
    /\ r = negb (Z.testbit v 0) /\ same_soft s s'.
Proof.
  intros H. pose proof (soft_spiflash_is_ready _ _ _ _ H) as Hs.
  unfold spiflash_is_ready in H.
  bind_inv H as u1 s1 E1.
  pose proof (polls_spi_wait_ready _ _ _ _ E1) as (pre & Gpre & Qpre).
  bind_inv H as u2 s2 E2. unfold WRITE_REG in E2. inversion E2; subst; clear E2.
  bind_inv H as u3 s3 E3. unfold WRITE_REG in E3. inversion E3; subst; clear E3.
  bind_inv H as u4 s4 E4.
  destruct u4. apply wait_cmd_done_polls in E4.
  destruct E4 as (post & Gpost & Ppost & _).
  bind_inv H as v s5 E5. unfold READ_REG in E5. inversion E5; subst; clear E5.
  unfold ret in H. inversion H; subst; clear H.
  exists (reg_value (hw s4) SPI_RD_STATUS_REG).
  exists (RdReg SPI_RD_STATUS_REG (reg_value (hw s4) SPI_RD_STATUS_REG) :: post
          ++ WrReg SPI_CMD_REG SPI_FLASH_RDSR
          :: WrReg SPI_RD_STATUS_REG 0 :: pre).
  split.
  { simpl. rewrite Gpost. simpl. rewrite Gpre.
    rewrite <- app_assoc. reflexivity. }
  split; [exists pre, post; auto|].
  split; [apply wip_bit|exact Hs].
Qed.

Lemma status_read_status_poll v seg : status_read v seg -> Forall status_poll seg.
Proof.
  intros (pre & post & -> & Fp & Pp).
  constructor; [exact I|]. apply Forall_app. split.
  - eapply Forall_impl; [|exact (polls_until_is_poll _ _ _ Pp)].
    intros [] He; simpl in *; tauto.
  - constructor; [reflexivity|]. constructor; [reflexivity|].
    eapply Forall_impl; [|exact Fp]. intros [] He; simpl in *; tauto.
Qed.

(** [wait_flash_idle] ends on a status read with the write-in-progress
    bit clear. *)
Lemma wait_flash_idle_shape n s s' :
  wait_flash_idle n s = Some (tt, s') ->
  exists v pre,
    hw s' = RdReg SPI_RD_STATUS_REG v :: pre ++ hw s
    /\ Z.testbit v 0 = false /\ Forall status_poll pre /\ same_soft s s'.
Proof.
  unfold wait_flash_idle, spin, while_.
  generalize n at 1. intros k. revert s.
  induction k as [|k IH]; intros s H; [discriminate|].
  rewrite iter_S in H. cbv beta in H.
  destruct ((r <- spiflash_is_ready ;; ret (negb r)) n s) as [[t s1]|] eqn:Ec;
    [|discriminate].
  bind_inv Ec as r s1' E1. unfold ret in Ec. inversion Ec; subst; clear Ec.
  destruct (spiflash_is_ready_shape _ _ _ _ E1) as (v & seg & Eh & Sr & Er & Hs).
  pose proof (status_read_status_poll _ _ Sr) as Fs.
  destruct r; simpl in H.
  - inversion H; subst; clear H.
    destruct Sr as (pre & post & -> & _).
    exists v. eexists. split; [rewrite Eh; simpl; reflexivity|].
    split; [destruct (Z.testbit v 0); [discriminate|reflexivity]|].
    split; [inversion Fs; assumption|exact Hs].
  - apply IH in H. destruct H as (v' & pre' & Eh' & Bv & Fp & Hs').
    exists v', (pre' ++ seg). rewrite Eh', Eh, <- app_assoc.
    split; [reflexivity|]. split; [exact Bv|].
    split; [apply Forall_app; auto|].
    eapply same_soft_trans; eauto.
Qed.

Lemma spi_wait_ready_shape n s s' :
  spi_wait_ready n s = Some (tt, s') ->
  exists seg0 seg1,
    hw s' = seg1 ++ seg0 ++ hw s
    /\ polls_until SPI_EXT2_REG (fun v => Z.land v SPI_ST =? 0) seg0
    /\ (if ESP32_OR_LATER
        then polls_until SPI0_EXT2_REG (fun v => Z.land v SPI_ST =? 0) seg1
        else seg1 = [])
    /\ same_soft s s'.
Proof.
  intros H. pose proof (soft_spi_wait_ready _ _ _ _ H) as Hs.
  unfold spi_wait_ready in H.
  bind_inv H as u1 s1 E1. destruct u1.
  apply (spin_polls SPI_EXT2_REG (fun v => Z.land v SPI_ST =? 0)) in E1.
  destruct E1 as (seg0 & G0 & P0 & _).
  exists seg0.
  destruct ESP32_OR_LATER.
  - apply (spin_polls SPI0_EXT2_REG (fun v => Z.land v SPI_ST =? 0)) in H.
    destruct H as (seg1 & G1 & P1 & _).
    exists seg1. rewrite G1, G0. auto.
  - unfold ret in H. inversion H; subst. exists []. auto.
Qed.

Lemma spi_write_enable_shape n s s' :
  spi_write_enable n s = Some (tt, s') ->
  exists v pre post,
    hw s' = post ++ WrReg SPI_CMD_REG SPI_FLASH_WREN
            :: RdReg SPI_RD_STATUS_REG v :: pre ++ hw s
    /\ Z.testbit v 0 = false
    /\ Forall status_poll pre
    /\ polls_until SPI_CMD_REG (fun w => w =? 0) post
    /\ same_soft s s'.
Proof.
  intros H. pose proof (soft_spi_write_enable _ _ _ _ H) as Hs.
  unfold spi_write_enable in H.
  bind_inv H as u1 s1 E1. destruct u1.
  apply wait_flash_idle_shape in E1.
  destruct E1 as (v & pre & G1 & Bv & Fp & _).
  bind_inv H as u2 s2 E2. unfold WRITE_REG in E2. inversion E2; subst; clear E2.
  apply wait_cmd_done_polls in H. destruct H as (post & G2 & P2 & _).
  exists v, pre, post. simpl in G2. rewrite G2, G1. auto.
Qed.

End DriverHistories.

Section SchedulerHistory.
Context {T : Target}.

Lemma quiet_of_status_poll e : status_poll e -> quiet e.
Proof.
  destruct e as [r v|r v|c ret out]; simpl; auto.
  destruct r; auto.
Qed.

(** The history of a call of [start_next_erase] that started an erase:
    status polling, one write enable, polls, the address, the erase
    command, polls. *)
Lemma start_next_erase_history n s s' :
  remaining_erase_sector (fs s) <> 0 ->
  (exists s1, spiflash_is_ready n s = Some (true, s1)) ->
  start_next_erase n s = Some (tt, s') ->
  exists before after post,
    hw s' = post ++ WrReg SPI_CMD_REG (erase_command (fs s))
                 :: WrReg SPI_ADDR_REG (erase_address (fs s))
                 :: (after ++ WrReg SPI_CMD_REG SPI_FLASH_WREN :: before)
                 ++ hw s
    /\ Forall status_poll before /\ Forall is_poll after
    /\ Forall is_poll post.
Proof.
  intros Hnz (s1 & Hrdy) H. unfold start_next_erase in H.
  bind_inv H as s0 s0' E0. leaf_inv E0.
  apply Z.eqb_neq in Hnz. rewrite Hnz in H.
  bind_inv H as ready s1' E1. rewrite Hrdy in E1.
  injection E1 as <- <-. cbn [negb] in H.
  destruct (spiflash_is_ready_shape _ _ _ _ Hrdy) as (v & seg & G1 & Sr & _ & (F1 & _)).
  pose proof (status_read_status_poll _ _ Sr) as Q1.
  bind_inv H as u2 s2 E2. destruct u2.
  destruct (spi_write_enable_shape _ _ _ E2)
    as (v2 & pre2 & post2 & G2 & _ & Q2 & P2 & (F2 & _)).
  bind_inv H as s2' s2'' E2'. leaf_inv E2'.
  bind_inv H as u3 s3 E3.
  pose proof (soft_spi_wait_ready _ _ _ _ E3) as (F3 & _).
  pose proof (polls_spi_wait_ready _ _ _ _ E3) as (g3 & G3 & Q3).
  bind_inv H as u4 s4 E4. unfold WRITE_REG in E4. inversion E4; subst; clear E4.
  bind_inv H as u5 s5 E5. unfold WRITE_REG in E5. inversion E5; subst; clear E5.
  bind_inv H as u6 s6 E6.
  pose proof (soft_wait_cmd_done _ _ _ _ E6) as (F4 & _).
  pose proof (polls_wait_cmd_done _ _ _ _ E6) as (g4 & G4 & Q4).
  bind_inv H as u7 s7 E7. leaf_inv E7. leaf_inv H.
  assert (Ef : fs s2'' = fs s0') by congruence.
  exists (RdReg SPI_RD_STATUS_REG v2 :: pre2 ++ seg), (g3 ++ post2), g4.
  split; [|split; [|split]].
  - unfold set_fs. cbn [hw]. rewrite G4. cbn [hw set_hw].
    unfold erase_command, erase_address, erase_block.
    rewrite <- Ef. rewrite G3, G2, G1.
    rewrite <- !app_assoc. cbn [app]. rewrite <- !app_assoc. reflexivity.
  - constructor; [exact I|]. apply Forall_app. auto.
  - apply Forall_app. split; [exact Q3|].
    exact (polls_until_is_poll _ _ _ P2).
  - exact Q4.
Qed.

End SchedulerHistory.

(** * The unlock sequence *)

Section UnlockHistory.
Context {T : Target}.


Lemma quiet_unlock_traffic e : quiet e -> unlock_traffic e.
Proof. destruct e as [r v|r v|c ret out]; simpl; try tauto; destruct r; tauto. Qed.

Lemma unlock_traffic_SPIUnlock : respects (emitted unlock_traffic) SPIUnlock.
Proof.
  assert (Hw : respects (emitted unlock_traffic) spi_wait_ready).
  { eapply respects_weaken; [|exact polls_spi_wait_ready].
    intros s s'. apply emitted_weaken. intros e He.
    apply quiet_unlock_traffic, quiet_of_poll, He. }
  assert (He : respects (emitted unlock_traffic) spi_write_enable).
  { eapply respects_weaken; [|exact quiet_spi_write_enable].
    intros s s'. apply emitted_weaken. exact quiet_unlock_traffic. }
  unfold SPIUnlock, REG_SET_MASK.
  repeat first
    [ exact Hw | exact He
    | apply respects_bind; [exact (emitted_trans unlock_traffic) | | intro]
    | apply respects_ret; exact (emitted_refl unlock_traffic)
    | apply respects_if
    | progress cbv zeta
    | apply emitted_READ_REG; intro; exact I
    | apply emitted_WRITE_REG; exact I
    | apply emitted_rom; intros; exact I ].
Qed.

Lemma handle_flash_begin_traffic total_size offset n s e s' :
  handle_flash_begin total_size offset n s = Some (e, s') ->
  emitted unlock_traffic s s'
  /\ (e = ESP_OK \/ e = ESP_FAILED_SPI_UNLOCK).
Proof.
  intros H.
  destruct (handle_flash_begin_inv _ _ _ _ _ _ H) as (r & Eu & -> & _).
  split.
  - destruct (unlock_traffic_SPIUnlock _ _ _ _ Eu) as (seg & G & Q).
    exists seg. auto.
  - destruct (negb (r =? 0)); auto.
Qed.

End UnlockHistory.

(** * Program calls and erase addresses of a history *)

Section ProgramCalls.
Context {T : Target}.

Lemma programs_app t1 t2 : programs (t1 ++ t2) = programs t2 ++ programs t1.
Proof.
  induction t1 as [|e t1 IH]; simpl.
  - rewrite app_nil_r. reflexivity.
  - rewrite IH, app_assoc. reflexivity.
Qed.

Lemma programs_no_rom seg : Forall no_rom seg -> programs seg = [].
Proof.
  induction 1 as [|e seg He _ IH]; simpl; [reflexivity|].
  rewrite IH. destruct e; simpl in *; try reflexivity. contradiction.
Qed.

Lemma tiled_app a rem ps b rem' qs c rem'' :
  tiled a rem ps b rem' -> tiled b rem' qs c rem'' ->
  tiled a rem (ps ++ qs) c rem''.
Proof.
  revert a rem. induction ps as [|[[x len] ret] ps IH]; intros a rem H1 H2; simpl in *.
  - destruct H1 as (-> & ->). exact H2.
  - destruct H1 as (-> & Hl & H1). split; [reflexivity|]. split; [exact Hl|].
    eapply IH; eauto.
Qed.

Lemma tiled_remaining a rem ps b rem' :
  tiled a rem ps b rem' -> 0 <= rem -> 0 <= rem' <= rem.
Proof.
  revert a rem. induction ps as [|[[x len] ret] ps IH]; intros a rem H Hr; simpl in *.
  - destruct H as (_ & ->). lia.
  - destruct H as (_ & Hl & H). apply IH in H; lia.
Qed.

Lemma program_rel_refl s : program_rel s s.
Proof.
  intros _. split; [intros H; exact H|]. exists []. rewrite app_nil_r.
  split; [reflexivity|]. split; [simpl; auto|].
  intros H. inversion H.
Qed.

Lemma program_rel_trans s1 s2 s3 :
  program_rel s1 s2 -> program_rel s2 s3 -> program_rel s1 s3.
Proof.
  intros H12 H23 Hr.
  destruct (H12 Hr) as (K12 & ps & P12 & T12 & F12).
  pose proof (tiled_remaining _ _ _ _ _ T12 (proj1 Hr)) as Hr2.
  destruct (H23 ltac:(lia)) as (K23 & qs & P23 & T23 & F23).
  split; [intros H; apply K23, K12, H|].
  exists (ps ++ qs). rewrite P23, P12, app_assoc.
  split; [reflexivity|]. split; [eapply tiled_app; eauto|].
  intros H. apply Exists_app in H. destruct H as [H|H]; auto.
Qed.

(** Steps that change neither the cursors, nor the latched error, nor the
    program calls of the history. *)
Lemma program_rel_still s s' :
  next_write (fs s') = next_write (fs s) ->
  remaining (fs s') = remaining (fs s) ->
  error_kept (fs s) (fs s') ->
  programs (hw s') = programs (hw s) ->
  program_rel s s'.
Proof.
  intros Nw Rm Le Pr _. split; [exact Le|]. exists [].
  rewrite app_nil_r. split; [exact Pr|]. split; [simpl; auto|].
  intros H. inversion H.
Qed.

Lemma program_rel_erase_frame s s' : erase_frame s s' -> program_rel s s'.
Proof.
  intros ((_ & Nw & Rm & Le & _) & _ & _ & (seg & G & Q)).
  apply program_rel_still; auto.
  - intros H. rewrite Le. exact H.
  - rewrite G, programs_app, (programs_no_rom _ Q), app_nil_r. reflexivity.
Qed.

Lemma program_rel_start_next_erase : respects program_rel start_next_erase.
Proof.
  intros n s a s' H. apply program_rel_erase_frame.
  exact (erase_frame_start_next_erase _ _ _ _ H).
Qed.

Lemma program_rel_programmed len ret c out (s s2 s' : stub) :
  erase_frame s s2 ->
  0 < len <= remaining (fs s) ->
  program_of (Rom c ret out) = Some (next_write (fs s), len, ret) ->
  hw s' = Rom c ret out :: hw s2 ->
  fs s' = programmed len ret (fs s2) ->
  program_rel s s'.
Proof.
  intros ((_ & Nw & Rm & Le & _) & _ & _ & (seg & G & Q)) Hl Hp Eh Ef Hr.
  assert (Er : remaining (fs s') = remaining (fs s) - len).
  { rewrite Ef. unfold programmed, advance.
    destruct (ret =? 0); simpl; rewrite Rm; apply u32_small; lia. }
  assert (En : next_write (fs s') = u32 (next_write (fs s) + len)).
  { rewrite Ef. unfold programmed, advance.
    destruct (ret =? 0); simpl; rewrite Nw; reflexivity. }
  assert (El : last_error (fs s')
               = if ret =? 0 then last_error (fs s) else ESP_FAILED_SPI_OP).
  { rewrite Ef. unfold programmed, advance.
    destruct (ret =? 0); simpl; [rewrite Le|]; reflexivity. }
  split.
  { intros H. rewrite El. destruct (ret =? 0); [exact H|discriminate]. }
  exists [(next_write (fs s), len, ret)].
  split.
  { rewrite Eh. cbn [programs]. rewrite Hp.
    rewrite G, programs_app, (programs_no_rom _ Q), app_nil_r. reflexivity. }
  split.
  { simpl. rewrite En, Er. repeat split; lia. }
  intros H. inversion H as [p l Hf|p l Hf]; [|inversion Hf].
  unfold failed in Hf. simpl in Hf. rewrite El.
  destruct (Z.eqb_spec ret 0); [contradiction|discriminate].
Qed.

Lemma clamp_positive length s :
  0 <= length -> 0 <= remaining (fs s) -> clamp length s <> 0 ->
  0 < clamp length s <= remaining (fs s).
Proof.
  unfold clamp. destruct (Z.ltb_spec (remaining (fs s)) length); lia.
Qed.

Lemma program_rel_handle_flash_data data length :
  0 <= length -> respects program_rel (handle_flash_data data length).
Proof.
  intros Hlen n s a s' H. destruct a.
  destruct (Z.eq_dec (clamp length s) 0) as [Hz|Hnz].
  - destruct (handle_flash_data_inv _ _ _ _ _ H) as [(_ & ->) | (Hnz & _)];
      [apply program_rel_refl|contradiction].
  - destruct (handle_flash_data_effect _ _ _ _ _ H Hnz)
      as (s2 & ret & out & F & Eh & Ef & _).
    intros Hr.
    eapply program_rel_programmed; eauto.
    + apply clamp_positive; auto; lia.
    + reflexivity.
Qed.

End ProgramCalls.

Section EncryptedPath.
Context {T : Target}.

Lemma latch_run c n s u s' :
  (if ESP32S2_OR_LATER then _ <- rom c ;; ret tt else ret tt) n s = Some (u, s') ->
  exists seg, latch c seg /\ s' = set_hw (seg ++ hw s) s.
Proof.
  unfold latch. destruct ESP32S2_OR_LATER; intros H.
  - bind_inv H as r s1 E. unfold rom in E. inversion E; subst; clear E.
    unfold ret in H. inversion H; subst.
    eexists. split; [eexists; eexists; reflexivity|reflexivity].
  - unfold ret in H. inversion H; subst. exists []. split; [reflexivity|].
    destruct s'; reflexivity.
Qed.

(** The ways through [handle_flash_encrypt_data], with the whole
    history. *)
Lemma handle_flash_encrypt_data_bracket data length n s s' :
  handle_flash_encrypt_data data length n s = Some (tt, s') ->
  exists en,
    latch SPI_Write_Encrypt_Enable en
    /\ ((clamp length s = 0 /\ s' = set_hw (en ++ hw s) s)
        \/ (clamp length s <> 0 /\
            exists s1 s2 ret out dis,
              erase_ahead (last_sector s (clamp length s)) n
                          (set_hw (en ++ hw s) s) = Some (tt, s1)
              /\ wait_flash_idle n s1 = Some (tt, s2)
              /\ latch SPI_Write_Encrypt_Disable dis
              /\ s' = mk_stub (programmed (clamp length s) ret (fs s2))
                        (out_buf s2) (next_out s2)
                        (dis ++ Rom (encrypt_primitive (next_write (fs s2))
                                 (firstn (Z.to_nat (clamp length s)) data)
                                 (clamp length s)) ret out :: hw s2))).
Proof.
  unfold handle_flash_encrypt_data. intros H.
  bind_inv H as u0 s0 E0.
  apply latch_run in E0. destruct E0 as (en & Len & ->).
  exists en. split; [exact Len|].
  bind_inv H as s0' s0'' E0'. leaf_inv E0'. cbv zeta in H.
  change (clamp length (set_hw (en ++ hw s) s)) with (clamp length s) in H.
  change (next_write (fs (set_hw (en ++ hw s) s))) with (next_write (fs s)) in H.
  fold (last_sector s (clamp length s)) in H.
  destruct (clamp length s =? 0) eqn:Ec.
  { leaf_inv H. left. split; [apply Z.eqb_eq, Ec|reflexivity]. }
  right. split; [apply Z.eqb_neq, Ec|].
  bind_inv H as u1 s1 E1. destruct u1.
  bind_inv H as u2 s2 E2. destruct u2.
  bind_inv H as s2' s2'' E2'. leaf_inv E2'.
  bind_inv H as r s3 E3. unfold rom in E3. inversion E3; subst; clear E3.
  fold (encrypt_primitive (next_write (fs s2''))
          (firstn (Z.to_nat (clamp length s)) data) (clamp length s)) in *.
  set (c := encrypt_primitive (next_write (fs s2''))
              (firstn (Z.to_nat (clamp length s)) data)
              (clamp length s)) in *.
  bind_inv H as u4 s4 E4.
  bind_inv H as u5 s5 E5. leaf_inv E5.
  apply latch_run in H. destruct H as (dis & Ldis & ->).
  exists s1, s2'', (fst (rom_reply (hw s2'') c)), (snd (rom_reply (hw s2'') c)), dis.
  split; [exact E1|]. split; [exact E2|]. split; [exact Ldis|].
  unfold programmed.
  destruct (fst (rom_reply (hw s2'') c) =? 0);
    simpl in E4; leaf_inv E4; reflexivity.
Qed.

Lemma latch_no_program c seg :
  program_of (Rom c 0 0) = None -> latch c seg -> programs seg = [].
Proof.
  unfold latch. intros Hc H. destruct ESP32S2_OR_LATER.
  - destruct H as (ret & out & ->). simpl.
    destruct c; simpl in *; try reflexivity; discriminate.
  - subst. reflexivity.
Qed.

Lemma program_of_encrypt_primitive a d l ret out :
  program_of (Rom (encrypt_primitive a d l) ret out) = Some (a, l, ret).
Proof. unfold encrypt_primitive. destruct ESP32; reflexivity. Qed.

Lemma program_rel_handle_flash_encrypt_data data length :
  0 <= length -> respects program_rel (handle_flash_encrypt_data data length).
Proof.
  intros Hlen n s a s' H. destruct a.
  destruct (handle_flash_encrypt_data_bracket _ _ _ _ _ H)
    as (en & Len & [(Hz & ->) | (Hnz & s1 & s2 & ret & out & dis & E1 & E2 & Ldis & ->)]).
  - apply program_rel_still; try reflexivity.
    + intros E; exact E.
    + simpl. rewrite programs_app, (latch_no_program SPI_Write_Encrypt_Enable _ eq_refl Len).
      rewrite app_nil_r. reflexivity.
  - set (s0 := set_hw (en ++ hw s) s) in *.
    assert (R0 : program_rel s s0).
    { apply program_rel_still; try reflexivity.
      + intros E; exact E.
      + simpl. rewrite programs_app, (latch_no_program SPI_Write_Encrypt_Enable _ eq_refl Len).
        rewrite app_nil_r. reflexivity. }
    pose proof (erase_frame_erase_ahead _ _ _ _ _ E1) as F1.
    pose proof (erase_frame_of_soft _ _ (soft_wait_flash_idle _ _ _ _ E2)
                  (quiet_wait_flash_idle _ _ _ _ E2)) as F2.
    pose proof (erase_frame_trans _ _ _ F1 F2) as F.
    assert (Nw : next_write (fs s2) = next_write (fs s)).
    { destruct F as ((_ & Nw & _) & _). exact Nw. }
    set (sp := mk_stub (programmed (clamp length s) ret (fs s2)) (out_buf s2)
                 (next_out s2)
                 (Rom (encrypt_primitive (next_write (fs s2))
                         (firstn (Z.to_nat (clamp length s)) data)
                         (clamp length s)) ret out :: hw s2)).
    assert (R1 : program_rel s0 sp).
    { intros Hr.
      apply (program_rel_programmed (clamp length s) ret
               (encrypt_primitive (next_write (fs s2))
                  (firstn (Z.to_nat (clamp length s)) data) (clamp length s))
               out s0 s2 sp F).
      - apply (clamp_positive length s); auto. simpl in Hr. lia.
      - rewrite program_of_encrypt_primitive, Nw. reflexivity.
      - reflexivity.
      - reflexivity.
      - exact Hr. }
    eapply program_rel_trans; [exact R0|].
    eapply program_rel_trans; [exact R1|].
    apply program_rel_still; try reflexivity.
    + intros E; exact E.
    + unfold sp. cbn [hw]. rewrite (programs_app dis).
      rewrite (latch_no_program SPI_Write_Encrypt_Disable _ eq_refl Ldis), app_nil_r. reflexivity.
Qed.

End EncryptedPath.

(** * Relations on machines kept by the data phase *)

Section MachineRelations.
Context {T : Target}.

(** [R] relates the machine before and after a step, history included;
    it is a preorder kept by the scheduler, by the two write paths and by
    the bookkeeping of the deflate path. *)
Variable R : stub -> stub -> Prop.
Hypothesis R_refl : forall s, R s s.
Hypothesis R_trans : forall s1 s2 s3, R s1 s2 -> R s2 s3 -> R s1 s3.
Hypothesis R_erase : respects R start_next_erase.
Hypothesis R_plain :
  forall data length, 0 <= length -> respects R (handle_flash_data data length).
Hypothesis R_encrypted :
  forall data length,
    0 <= length -> respects R (handle_flash_encrypt_data data length).
Hypothesis R_inflated : forall r s, R s (inflated r s).
Hypothesis R_rewind : forall s, R s (mk_stub (fs s) (out_buf s) 0 (hw s)).
Hypothesis R_error :
  forall s e, e <> ESP_OK -> R s (set_fs (set_last_error e) s).

Lemma machine_deflate_body l : respects R (deflate_body l).
Proof.
  unfold deflate_body.
  apply respects_bind; [apply R_trans| |intro s0].
  { apply respects_get, R_refl. }
  cbv zeta.
  apply respects_bind; [apply R_trans| |intro].
  { apply R_erase. }
  apply respects_bind; [apply R_trans| |intro s1].
  { apply respects_get, R_refl. }
  apply respects_bind; [apply R_trans| |intro].
  { apply respects_modify. intros s. apply R_inflated. }
  apply respects_bind; [apply R_trans| |intro s2].
  { apply respects_get, R_refl. }
  apply respects_bind; [apply R_trans| |intro].
  { apply respects_if.
    - apply respects_bind; [apply R_trans| |intro].
      + apply R_plain, u32_nonneg.
      + apply respects_modify. intros s. apply R_rewind.
    - apply respects_ret, R_refl. }
  apply respects_ret, R_refl.
Qed.

Lemma machine_deflate_loop data length : respects R (deflate_loop data length).
Proof.
  unfold deflate_loop. apply respects_while.
  - apply R_refl.
  - apply R_trans.
  - intros l. unfold deflate_cond.
    apply respects_bind; [apply R_trans| |intro].
    + apply respects_get, R_refl.
    + apply respects_ret, R_refl.
  - apply machine_deflate_body.
Qed.

Lemma machine_deflate_finish st : respects R (deflate_finish st).
Proof.
  unfold deflate_finish.
  apply respects_bind; [apply R_trans| |intro].
  { apply respects_if; [|apply respects_ret, R_refl].
    apply respects_modify. intros s. apply R_error. discriminate. }
  apply respects_bind; [apply R_trans| |intro].
  { apply respects_get, R_refl. }
  apply respects_bind; [apply R_trans| |intro].
  { apply respects_if; [|apply respects_ret, R_refl].
    apply respects_modify. intros s. apply R_error. discriminate. }
  apply respects_bind; [apply R_trans| |intro].
  { apply respects_get, R_refl. }
  apply respects_if; [|apply respects_ret, R_refl].
  apply respects_modify. intros s. apply R_error. discriminate.
Qed.

Lemma machine_handle_flash_deflated_data data length :
  respects R (handle_flash_deflated_data data length).
Proof.
  unfold handle_flash_deflated_data.
  apply respects_bind; [apply R_trans| |intro].
  - apply machine_deflate_loop.
  - apply machine_deflate_finish.
Qed.

Lemma machine_do_op o : 0 <= op_length o -> respects R (do_op o).
Proof.
  intros Hlen. destruct o; simpl in *.
  - apply R_plain; assumption.
  - apply R_encrypted; assumption.
  - apply machine_handle_flash_deflated_data.
Qed.

Lemma machine_data_phase ops :
  Forall (fun o => 0 <= op_length o) ops -> respects R (data_phase ops).
Proof.
  intros H. induction H as [|o rest Ho Hrest IH]; simpl.
  - apply respects_ret, R_refl.
  - apply respects_bind; [apply R_trans| |intros _; exact IH].
    apply machine_do_op; assumption.
Qed.

End MachineRelations.

Section ProgramTiling.
Context {T : Target}.

Lemma program_rel_data_phase ops :
  Forall (fun o => 0 <= op_length o) ops -> respects program_rel (data_phase ops).
Proof.
  apply machine_data_phase.
  - apply program_rel_refl.
  - apply program_rel_trans.
  - apply program_rel_start_next_erase.
  - apply program_rel_handle_flash_data.
  - apply program_rel_handle_flash_encrypt_data.
  - intros r s. apply program_rel_still; try reflexivity. intros H; exact H.
  - intros s. apply program_rel_still; try reflexivity. intros H; exact H.
  - intros s e He. apply program_rel_still; try reflexivity.
    intros _. simpl. exact He.
Qed.

End ProgramTiling.

(** * The erase schedule *)

Section ErasePlan.
Context {T : Target}.

Lemma latched_app t1 t2 : latched (t1 ++ t2) = latched t2 ++ latched t1.
Proof.
  induction t1 as [|e t1 IH]; simpl.
  - rewrite app_nil_r. reflexivity.
  - destruct e as [r v|r v|c ret out]; try exact IH.
    destruct r; try exact IH. rewrite IH, app_assoc. reflexivity.
Qed.

Lemma latched_no_latch seg : Forall no_latch seg -> latched seg = [].
Proof.
  induction 1 as [|e seg He _ IH]; simpl; [reflexivity|].
  destruct e as [r v|r v|c ret out]; try exact IH.
  destruct r; try exact IH. contradiction.
Qed.

Lemma no_latch_of_quiet e : quiet e -> no_latch e.
Proof. destruct e as [r v|r v|c ret out]; simpl; auto. destruct r; auto. Qed.

Lemma latched_emitted_quiet s s' :
  emitted quiet s s' -> latched (hw s') = latched (hw s).
Proof.
  intros (seg & -> & Q). rewrite latched_app.
  rewrite (latched_no_latch seg);
    [apply app_nil_r|].
  eapply Forall_impl; [|exact Q]. apply no_latch_of_quiet.
Qed.

Lemma erase_address_mod f :
  erase_address f = (next_erase_sector f mod 4096) * FLASH_SECTOR_SIZE.
Proof.
  unfold erase_address, u32, FLASH_SECTOR_SIZE.
  change 16777215 with (Z.ones 24). rewrite Z.land_ones by lia.
  change 4294967296 with (2 ^ 24 * 256).
  rewrite <- (Z.mul_mod_distr_r _ 4096 4096) by lia.
  change (4096 * 4096) with (2 ^ 24).
  set (x := next_erase_sector f * 4096).
  pose proof (Z.mod_pos_bound x (2 ^ 24 * 256) ltac:(lia)).
  pose proof (Z.mod_pos_bound x (2 ^ 24) ltac:(lia)).
  pose proof (Z.mod_pos_bound (x mod (2 ^ 24 * 256)) (2 ^ 24) ltac:(lia)).
  Z.div_mod_to_equations. lia.
Qed.

Lemma erase_run_app n r a1 n1 r1 a2 n2 r2 :
  erase_run n r a1 n1 r1 -> erase_run n1 r1 a2 n2 r2 ->
  erase_run n r (a1 ++ a2) n2 r2.
Proof.
  revert n r. induction a1 as [|a a1 IH]; intros n r H1 H2; simpl in *.
  - destruct H1 as (-> & ->). exact H2.
  - destruct H1 as (Hp & Ha & H1). split; [exact Hp|]. split; [exact Ha|].
    eapply IH; eauto.
Qed.

Lemma erase_run_window n r addrs n' r' :
  erase_run n r addrs n' r' -> 0 <= r ->
  0 <= r' <= r /\ n' + r' = n + r.
Proof.
  revert n r. induction addrs as [|a addrs IH]; intros n r H Hr; simpl in *.
  - destruct H as (-> & ->). lia.
  - destruct H as (Hp & _ & H). unfold SECTORS_PER_BLOCK in *.
    destruct (Z.leb_spec 16 r); simpl in H.
    + destruct (n mod 16 =? 0); apply IH in H; lia.
    + apply IH in H; lia.
Qed.

Lemma erase_plan_rel_refl s : erase_plan_rel s s.
Proof. intros _. exists []. rewrite app_nil_r. simpl. auto. Qed.

Lemma erase_plan_rel_trans s1 s2 s3 :
  erase_plan_rel s1 s2 -> erase_plan_rel s2 s3 -> erase_plan_rel s1 s3.
Proof.
  intros H12 H23 W1.
  destruct (H12 W1) as (a1 & L1 & R1).
  assert (W2 : window_open (fs s2)).
  { destruct W1 as (E & HE & (Hr & Hn & Hs)).
    destruct (erase_run_window _ _ _ _ _ R1 Hr) as (Hr2 & Hs2).
    exists E. split; [exact HE|]. unfold erase_window.
    assert (next_erase_sector (fs s1) <= next_erase_sector (fs s2)) by lia.
    lia. }
  destruct (H23 W2) as (a2 & L2 & R2).
  exists (a1 ++ a2). rewrite L2, L1, app_assoc. split; [reflexivity|].
  eapply erase_run_app; eauto.
Qed.

Lemma erase_plan_rel_still s s' :
  next_erase_sector (fs s') = next_erase_sector (fs s) ->
  remaining_erase_sector (fs s') = remaining_erase_sector (fs s) ->
  latched (hw s') = latched (hw s) ->
  erase_plan_rel s s'.
Proof.
  intros N R L _. exists []. rewrite app_nil_r. simpl. auto.
Qed.

Lemma erase_plan_rel_start_next_erase : respects erase_plan_rel start_next_erase.
Proof.
  intros n s [] s' H.
  destruct (start_next_erase_inv _ _ _ H)
    as [(_ & ->) | [(_ & Hp) | (Hnz & _ & F & B & O & G)]].
  - apply erase_plan_rel_refl.
  - pose proof (soft_spiflash_is_ready _ _ _ _ Hp) as (Fs & _).
    apply erase_plan_rel_still; try (rewrite Fs; reflexivity).
    apply latched_emitted_quiet. exact (quiet_spiflash_is_ready _ _ _ _ Hp).
  - intros (E & HE & W).
    destruct (erased_counters E _ HE W Hnz) as (K1 & K2 & K3).
    cbv zeta in K1, K2, K3.
    destruct W as (Hr & Hn & Hs).
    destruct G as (pre & post & Eh & Qpre & Qpost).
    exists [erase_address (fs s)]. split.
    + assert (Lpre : latched pre = []).
      { apply latched_no_latch. eapply Forall_impl; [|exact Qpre].
        apply no_latch_of_quiet. }
      assert (Lpost : latched post = []).
      { apply latched_no_latch. eapply Forall_impl; [|exact Qpost].
        intros e He. apply no_latch_of_quiet, quiet_of_poll, He. }
      rewrite Eh, latched_app. cbn [latched].
      rewrite latched_app, Lpre, Lpost, !app_nil_r. reflexivity.
    + cbn [erase_run]. split; [lia|]. split; [apply erase_address_mod|].
      rewrite F, K1, K2. unfold erase_block.
      rewrite Z.rem_mod_nonneg by (unfold SECTORS_PER_BLOCK; lia).
      split; reflexivity.
Qed.

Lemma erase_plan_rel_erase_ahead last : respects erase_plan_rel (erase_ahead last).
Proof.
  unfold erase_ahead, spin. apply respects_while.
  - apply erase_plan_rel_refl.
  - apply erase_plan_rel_trans.
  - intros _. apply respects_bind; [apply erase_plan_rel_trans| |intro].
    + apply respects_get, erase_plan_rel_refl.
    + apply respects_ret, erase_plan_rel_refl.
  - intros _. apply erase_plan_rel_start_next_erase.
Qed.

Lemma erase_plan_rel_handle_flash_data data length :
  respects erase_plan_rel (handle_flash_data data length).
Proof.
  intros n s [] s' H.
  destruct (handle_flash_data_inv _ _ _ _ _ H)
    as [(_ & ->) | (Hnz & s1 & s2 & ret & out & E1 & E2 & ->)].
  { apply erase_plan_rel_refl. }
  eapply erase_plan_rel_trans; [exact (erase_plan_rel_erase_ahead _ _ _ _ _ E1)|].
  pose proof (soft_wait_flash_idle _ _ _ _ E2) as (F2 & _ & _).
  apply erase_plan_rel_still.
  - simpl. unfold programmed. destruct (ret =? 0); simpl; rewrite F2; reflexivity.
  - simpl. unfold programmed. destruct (ret =? 0); simpl; rewrite F2; reflexivity.
  - simpl. apply latched_emitted_quiet. exact (quiet_wait_flash_idle _ _ _ _ E2).
Qed.

Lemma latched_latch c seg : latch c seg -> latched seg = [].
Proof.
  unfold latch. destruct ESP32S2_OR_LATER.
  - intros (ret & out & ->). reflexivity.
  - intros ->. reflexivity.
Qed.

Lemma erase_plan_rel_handle_flash_encrypt_data data length :
  respects erase_plan_rel (handle_flash_encrypt_data data length).
Proof.
  intros n s [] s' H.
  destruct (handle_flash_encrypt_data_bracket _ _ _ _ _ H)
    as (en & Len & [(Hz & ->) | (Hnz & s1 & s2 & ret & out & dis & E1 & E2 & Ldis & ->)]).
  - apply erase_plan_rel_still; try reflexivity.
    simpl. rewrite latched_app, (latched_latch _ _ Len), app_nil_r. reflexivity.
  - eapply erase_plan_rel_trans.
    { apply (erase_plan_rel_still s (set_hw (en ++ hw s) s)); try reflexivity.
      simpl. rewrite latched_app, (latched_latch _ _ Len), app_nil_r.
      reflexivity. }
    eapply erase_plan_rel_trans;
      [exact (erase_plan_rel_erase_ahead _ _ _ _ _ E1)|].
    pose proof (soft_wait_flash_idle _ _ _ _ E2) as (F2 & _ & _).
    apply erase_plan_rel_still.
    + simpl. unfold programmed. destruct (ret =? 0); simpl; rewrite F2; reflexivity.
    + simpl. unfold programmed. destruct (ret =? 0); simpl; rewrite F2; reflexivity.
    + cbn [hw]. rewrite latched_app, (latched_latch _ _ Ldis), app_nil_r.
      cbn [latched].
      apply latched_emitted_quiet. exact (quiet_wait_flash_idle _ _ _ _ E2).
Qed.

Lemma erase_plan_rel_data_phase ops :
  Forall (fun o => 0 <= op_length o) ops ->
  respects erase_plan_rel (data_phase ops).
Proof.
  apply machine_data_phase.
  - apply erase_plan_rel_refl.
  - apply erase_plan_rel_trans.
  - apply erase_plan_rel_start_next_erase.
  - intros. apply erase_plan_rel_handle_flash_data.
  - intros. apply erase_plan_rel_handle_flash_encrypt_data.
  - intros r s. apply erase_plan_rel_still; reflexivity.
  - intros s. apply erase_plan_rel_still; reflexivity.
  - intros s e He. apply erase_plan_rel_still; reflexivity.
Qed.

End ErasePlan.

Section IdleScheduler.
Context {T : Target}.

Lemma erase_ahead_idle last n s s1 :
  erase_needed last s = false ->
  erase_ahead last n s = Some (tt, s1) -> s1 = s.
Proof.
  unfold erase_ahead, spin, while_, erase_needed. intros Hc H.
  destruct n as [|k]; [discriminate|].
  rewrite iter_S in H. cbv beta in H.
  unfold bind, get, ret in H. rewrite Hc in H. inversion H. reflexivity.
Qed.

End IdleScheduler.

(** * Sequences of plain and encrypted writes *)

Section PlainWrites.
Context {T : Target}.

Lemma mode_kept_invariant : data_invariant mode_kept.
Proof.
  split; unfold mode_kept.
  - auto.
  - intros f1 f2 f3 H1 H2. congruence.
  - intros f _. reflexivity.
  - intros f length ret _ _. unfold programmed.
    destruct (ret =? 0); reflexivity.
  - intros f e _. reflexivity.
  - intros f d v. reflexivity.
Qed.

Lemma write_outcome_refl s : write_outcome s s.
Proof. exists []. rewrite app_nil_r. auto. Qed.

Lemma write_outcome_trans s1 s2 s3 :
  write_outcome s1 s2 -> write_outcome s2 s3 -> write_outcome s1 s3.
Proof.
  intros (ps & P1 & L1) (qs & P2 & L2). exists (ps ++ qs).
  rewrite P2, P1, app_assoc. split; [reflexivity|].
  rewrite L2, L1. unfold all_succeeded. rewrite forallb_app.
  destruct (forallb _ ps), (forallb _ qs); reflexivity.
Qed.

Lemma write_outcome_still s s' :
  last_error (fs s') = last_error (fs s) ->
  programs (hw s') = programs (hw s) -> write_outcome s s'.
Proof. intros L P. exists []. rewrite app_nil_r. auto. Qed.

Lemma write_outcome_programmed len ret c out (s s2 s' : stub) a :
  erase_frame s s2 ->
  program_of (Rom c ret out) = Some (a, len, ret) ->
  hw s' = Rom c ret out :: hw s2 ->
  fs s' = programmed len ret (fs s2) ->
  write_outcome s s'.
Proof.
  intros ((_ & _ & _ & Le & _) & _ & _ & (seg & G & Q)) Hp Eh Ef.
  exists [(a, len, ret)]. split.
  - rewrite Eh. cbn [programs]. rewrite Hp.
    rewrite G, programs_app, (programs_no_rom _ Q), app_nil_r. reflexivity.
  - rewrite Ef. destruct (programmed_fields len ret (fs s2)) as (-> & _).
    simpl. rewrite Le. destruct (ret =? 0); reflexivity.
Qed.

Lemma written_programmed len ret length (s s2 s' : stub) :
  0 <= length -> 0 <= remaining (fs s) < 4294967296 ->
  len = clamp length s ->
  next_write (fs s2) = next_write (fs s) ->
  remaining (fs s2) = remaining (fs s) ->
  fs s' = programmed len ret (fs s2) ->
  written length s s'.
Proof.
  intros Hlen Hr -> Nw Rm Ef.
  destruct (programmed_fields (clamp length s) ret (fs s2)) as (_ & A & B).
  unfold written. rewrite Ef, A, B, Nw, Rm. unfold clamp.
  destruct (Z.ltb_spec (remaining (fs s)) length).
  - rewrite Z.sub_diag. change (u32 0) with 0. split; [lia|].
    f_equal. lia.
  - rewrite u32_small by lia. split; [lia|]. f_equal. lia.
Qed.

Lemma written_nothing length (s s' : stub) :
  0 <= length -> 0 <= remaining (fs s) < 4294967296 ->
  0 <= next_write (fs s) < 4294967296 ->
  clamp length s = 0 -> fs s' = fs s -> written length s s'.
Proof.
  intros Hlen Hr Hn Hz F. unfold written. rewrite F. unfold clamp in Hz.
  destruct (Z.ltb_spec (remaining (fs s)) length).
  - rewrite Hz. split; [lia|]. rewrite Z.min_l by lia.
    rewrite Z.add_0_r. symmetry. apply u32_small. exact Hn.
  - subst length. split; [lia|]. rewrite Z.min_r by lia.
    rewrite Z.add_0_r. symmetry. apply u32_small. exact Hn.
Qed.

(** One plain or encrypted write. *)
Lemma undeflated_op o n s s' :
  undeflated o -> 0 <= op_length o ->
  do_op o n s = Some (tt, s') ->
  write_outcome s s'
  /\ (0 <= remaining (fs s) < 4294967296 ->
      0 <= next_write (fs s) < 4294967296 ->
      written (op_length o) s s').
Proof.
  intros Hu Hlen H. destruct o as [data length|data length|data length];
    [| |contradiction]; simpl in *.
  - destruct (handle_flash_data_inv _ _ _ _ _ H)
      as [(Hz & ->) | (Hnz & _)].
    { split; [apply write_outcome_refl|].
      intros Hr Hn. apply written_nothing; auto. }
    destruct (handle_flash_data_effect _ _ _ _ _ H Hnz)
      as (s2 & ret & out & F & Eh & Ef & _).
    split.
    + eapply write_outcome_programmed; eauto. reflexivity.
    + intros Hr Hn. destruct F as ((_ & Nw & Rm & _) & _).
      eapply written_programmed; eauto.
  - destruct (handle_flash_encrypt_data_bracket _ _ _ _ _ H)
      as (en & Len & [(Hz & ->) |
            (Hnz & s1 & s2 & ret & out & dis & E1 & E2 & Ldis & ->)]).
    { split.
      - apply write_outcome_still; [reflexivity|]. simpl.
        rewrite programs_app,
          (latch_no_program SPI_Write_Encrypt_Enable _ eq_refl Len).
        apply app_nil_r.
      - intros Hr Hn. apply written_nothing; auto. }
    set (s0 := set_hw (en ++ hw s) s) in *.
    pose proof (erase_frame_erase_ahead _ _ _ _ _ E1) as F1.
    pose proof (erase_frame_of_soft _ _ (soft_wait_flash_idle _ _ _ _ E2)
                  (quiet_wait_flash_idle _ _ _ _ E2)) as F2.
    pose proof (erase_frame_trans _ _ _ F1 F2) as F.
    split.
    + eapply write_outcome_trans.
      { apply (write_outcome_still s s0); [reflexivity|]. simpl.
        rewrite programs_app,
          (latch_no_program SPI_Write_Encrypt_Enable _ eq_refl Len).
        apply app_nil_r. }
      eapply write_outcome_trans.
      { eapply (write_outcome_programmed (clamp length s) ret _ out s0 s2
                  (mk_stub (programmed (clamp length s) ret (fs s2))
                     (out_buf s2) (next_out s2)
                     (Rom (encrypt_primitive (next_write (fs s2))
                             (firstn (Z.to_nat (clamp length s)) data)
                             (clamp length s)) ret out :: hw s2)));
          [exact F|apply program_of_encrypt_primitive|reflexivity|reflexivity]. }
      apply write_outcome_still; [reflexivity|]. cbn [hw].
      rewrite (programs_app dis),
        (latch_no_program SPI_Write_Encrypt_Disable _ eq_refl Ldis).
      apply app_nil_r.
    + intros Hr Hn. destruct F as ((_ & Nw & Rm & _) & _).
      eapply (written_programmed (clamp length s) ret length s s2); eauto.
Qed.

Lemma written_ranges len s s' :
  0 <= len -> 0 <= remaining (fs s) < 4294967296 -> written len s s' ->
  0 <= remaining (fs s') < 4294967296
  /\ 0 <= next_write (fs s') < 4294967296.
Proof.
  intros Hl Hr (A & B). rewrite A, B. split; [lia|apply u32_range].
Qed.

Lemma written_trans a b s1 s2 s3 :
  0 <= a -> 0 <= b -> 0 <= remaining (fs s1) ->
  written a s1 s2 -> written b s2 s3 -> written (a + b) s1 s3.
Proof.
  intros Ha Hb Hr (A1 & B1) (A2 & B2). unfold written.
  rewrite A2, B2, A1, B1. split; [lia|].
  unfold u32. rewrite Zplus_mod_idemp_l. f_equal. lia.
Qed.

Lemma requested_nonneg ops :
  Forall (fun o => 0 <= op_length o) ops -> 0 <= requested ops.
Proof. induction 1; simpl; lia. Qed.

Lemma undeflated_phase ops :
  Forall undeflated ops -> Forall (fun o => 0 <= op_length o) ops ->
  forall n s s',
    data_phase ops n s = Some (tt, s') ->
    write_outcome s s'
    /\ (0 <= remaining (fs s) < 4294967296 ->
        0 <= next_write (fs s) < 4294967296 ->
        written (requested ops) s s').
Proof.
  intros Hu. induction Hu as [|o ops Ho Hops IH]; intros Hlen n s s' H.
  - simpl in H. unfold ret in H. inversion H; subst.
    split; [apply write_outcome_refl|].
    intros Hr Hn. simpl. apply written_nothing; auto; try lia.
    unfold clamp. destruct (remaining (fs s') <? 0) eqn:E; [|reflexivity].
    apply Z.ltb_lt in E. lia.
  - inversion Hlen as [|o' ops' Hl Hls]; subst.
    simpl in H. bind_inv H as u s1 E1. destruct u.
    destruct (undeflated_op _ _ _ _ Ho Hl E1) as (O1 & W1).
    destruct (IH Hls _ _ _ H) as (O2 & W2).
    split; [eapply write_outcome_trans; eauto|].
    intros Hr Hn. simpl.
    pose proof (W1 Hr Hn) as W1'.
    destruct (written_ranges _ _ _ Hl Hr W1') as (Hr1 & Hn1).
    eapply written_trans; eauto; try lia.
    apply requested_nonneg, Hls.
Qed.

End PlainWrites.

(** * The input cursor of the decompression loop *)

Section DeflateInput.
Context {T : Target}.

Lemma handle_flash_data_keeps_engine data length n s s' :
  handle_flash_data data length n s = Some (tt, s') ->
  remaining_compressed (fs s') = remaining_compressed (fs s)
  /\ inflator (fs s') = inflator (fs s).
Proof.
  intros H. destruct (Z.eq_dec (clamp length s) 0) as [Hz|Hnz].
  - destruct (handle_flash_data_inv _ _ _ _ _ H) as [(_ & ->) | (Hnz & _)];
      [auto|contradiction].
  - destruct (handle_flash_data_effect _ _ _ _ _ H Hnz)
      as (s2 & ret & out & ((_ & _ & _ & _ & Hi & Hc) & _) & _ & Ef & _).
    rewrite Ef. unfold programmed. destruct (ret =? 0); simpl; auto.
Qed.

Lemma consumed_inv_body data length rc0 l n s l1 s1 :
  tinfl_contract -> length < 4294967296 ->
  consumed_inv data length rc0 l s ->
  deflate_body l n s = Some (l1, s1) ->
  consumed_inv data length rc0 l1 s1.
Proof.
  intros engine Hmax (Hl & Hd & Hc & Ho) E.
  pose proof (deflate_body_next_out _ _ _ _ _ engine (proj1 Hl) Ho E) as Ho1.
  destruct (deflate_body_inv _ _ _ _ _ E) as (se & Ee & Hbody).
  cbv zeta in Hbody. destruct Hbody as (El & Hcases).
  pose proof (erase_frame_start_next_erase _ _ _ _ Ee)
    as ((_ & _ & _ & _ & _ & Rc) & _ & Ose & _).
  destruct (engine (inflator (fs se)) (l_data l) (l_length l) (out_buf se)
              (next_out se) (OUT_BUF_SIZE - next_out s)
              (if l_length l <? remaining_compressed (fs s)
               then Z.lor TINFL_FLAG_PARSE_ZLIB_HEADER TINFL_FLAG_HAS_MORE_INPUT
               else TINFL_FLAG_PARSE_ZLIB_HEADER))
    as (Cin & _ & _); [lia|lia|].
  fold (inflate_call l s se) in Cin.
  set (r := inflate_call l s se) in *.
  assert (Erc : remaining_compressed (fs s1)
                = u32 (remaining_compressed (fs s) - t_in r)).
  { destruct Hcases as [(_ & sf & Ef & ->) | (_ & ->)].
    - destruct (handle_flash_data_keeps_engine _ _ _ _ _ Ef) as (K & _).
      cbn [fs]. rewrite K. unfold inflated. cbn [fs remaining_compressed
        set_remaining_compressed]. rewrite Rc. reflexivity.
    - unfold inflated. cbn [fs remaining_compressed set_remaining_compressed].
      rewrite Rc. reflexivity. }
  subst l1. unfold consumed_inv. cbn [l_length l_data].
  rewrite (u32_small (l_length l - t_in r)) by lia.
  split; [lia|]. split; [|split; [|exact Ho1]].
  - rewrite Hd, skipn_skipn. f_equal. lia.
  - rewrite Erc. unfold u32 in *. rewrite Z.mod_mod by lia.
    rewrite <- Zminus_mod_idemp_l, Hc, Zminus_mod_idemp_l. f_equal. lia.
Qed.

Lemma deflate_loop_consumed data length n s l s' :
  tinfl_contract -> 0 <= length < 4294967296 ->
  0 <= next_out s < OUT_BUF_SIZE ->
  deflate_loop data length n s = Some (l, s') ->
  consumed_inv data length (remaining_compressed (fs s)) l s'
  /\ deflate_continues l s' = false.
Proof.
  intros engine Hlen Ho H. unfold deflate_loop, while_ in H.
  apply (iter_inv (consumed_inv data length (remaining_compressed (fs s)))) in H.
  - destruct H as (s0 & HI & Hc). rewrite deflate_cond_run in Hc.
    inversion Hc; subst. auto.
  - intros l0 s0 t s1 HI Hc. rewrite deflate_cond_run in Hc.
    inversion Hc; subst. exact HI.
  - intros l0 s0 l1 s1 HI Hb.
    eapply consumed_inv_body; eauto. lia.
  - unfold consumed_inv. cbn [l_length l_data].
    rewrite Z.sub_diag, Z.sub_0_r. simpl. repeat split; auto; lia.
Qed.

End DeflateInput.

Section LazyErase.
Context {T : Target}.

Lemma start_next_erase_step n s s' :
  window_open (fs s) ->
  start_next_erase n s = Some (tt, s') ->
  window_open (fs s')
  /\ next_erase_sector (fs s) <= next_erase_sector (fs s')
     <= next_erase_sector (fs s) + SECTORS_PER_BLOCK.
Proof.
  intros W H.
  destruct (start_next_erase_inv _ _ _ H)
    as [(_ & ->) | [(_ & Hp) | (Hnz & _ & F & _)]].
  - split; [exact W|]. unfold SECTORS_PER_BLOCK. lia.
  - pose proof (soft_spiflash_is_ready _ _ _ _ Hp) as (Fs & _).
    rewrite Fs. split; [exact W|]. unfold SECTORS_PER_BLOCK. lia.
  - destruct W as (E & HE & W).
    destruct (erased_counters E _ HE W Hnz) as (K1 & K2 & K3).
    destruct (erased_window E _ HE W Hnz) as (W' & _).
    cbv zeta in K1, K3. rewrite F.
    split; [exists E; auto|]. rewrite K1.
    unfold SECTORS_PER_BLOCK in *. destruct (erase_block (fs s)); lia.
Qed.

Lemma erase_ahead_lazy last n s s' :
  window_open (fs s) ->
  erase_ahead last n s = Some (tt, s') ->
  next_erase_sector (fs s) <= next_erase_sector (fs s')
  /\ next_erase_sector (fs s')
     <= Z.max (next_erase_sector (fs s)) (last + SECTORS_PER_BLOCK).
Proof.
  unfold erase_ahead, spin, while_. generalize n at 1. intros k. revert s.
  induction k as [|k IH]; intros s W H; [discriminate|].
  rewrite iter_S in H. cbv beta in H.
  unfold bind at 1, get at 1, ret at 1 in H.
  destruct ((0 <? remaining_erase_sector (fs s))
            && (next_erase_sector (fs s) <=? last)) eqn:Hc.
  - destruct (start_next_erase n s) as [[[] s1]|] eqn:E1; [|discriminate].
    destruct (start_next_erase_step _ _ _ W E1) as (W1 & Hs).
    destruct (IH _ W1 H) as (A & B).
    apply andb_true_iff in Hc. destruct Hc as (_ & Hc). apply Z.leb_le in Hc.
    lia.
  - inversion H; subst. lia.
Qed.


End LazyErase.

Section Undeflated.
Context {T : Target}.
Hypothesis live : Responsive.

Lemma returns_undeflated_phase ops :
  Forall undeflated ops -> forall s, returns (data_phase ops) s.
Proof.
  induction 1 as [|o ops Ho _ IH]; intros s; simpl.
  - apply returns_ret.
  - apply returns_bind;
      [apply mono_do_op | intro; apply mono_data_phase | | intros ? ? ? _; apply IH].
    destruct o; [| |contradiction]; simpl.
    + apply returns_handle_flash_data, live.
    + apply returns_handle_flash_encrypt_data, live.
Qed.

End Undeflated.

(** * Facts about the simulated target *)

Lemma run_spec {T : Target} {A} (d : A) (m : M A) fuel s :
  finishes m fuel s = true ->
  m fuel s = Some (value d m fuel s, run m fuel s).
Proof.
  unfold finishes, value, run. destruct (m fuel s) as [[a s']|]; [|discriminate].
  reflexivity.
Qed.

Lemma run_unit {T : Target} (m : M unit) fuel s :
  finishes m fuel s = true -> m fuel s = Some (tt, run m fuel s).
Proof.
  intros H. rewrite (run_spec tt m fuel s H).
  destruct (value tt m fuel s). reflexivity.
Qed.

Lemma sim_responsive unlock_ok write_ok : @Responsive (sim unlock_ok write_ok).
Proof.
  intros s. split; [|split]; exists 2%nat; eexists; reflexivity.
Qed.

(** The toy inflate engine keeps the contract. *)
Lemma toy_scan_spec input :
  forall room acc c st c' out,
    toy_scan input room acc c = (st, c', out) ->
    c <= c' <= c + Z.of_nat (length input)
    /\ (length out <= length acc + room)%nat
    /\ (st = 2 -> length out = (length acc + room)%nat)
    /\ (st = 1 \/ st = 2 \/ st = 0 \/ st = -1).
Proof.
  induction input as [|b rest IH]; intros room acc c st c' out H; simpl in H.
  - inversion H; subst. rewrite length_rev. simpl.
    repeat split; lia.
  - destruct (b =? 0).
    { inversion H; subst. rewrite length_rev. simpl length.
      repeat split; lia. }
    destruct (b =? 255).
    { inversion H; subst. rewrite length_rev. simpl length.
      repeat split; lia. }
    destruct room as [|room].
    { inversion H; subst. rewrite length_rev. simpl length.
      repeat split; lia. }
    apply IH in H. simpl length in *. destruct H as (A & B & C & D).
    repeat split; try lia.
Qed.

Lemma sim_tinfl_contract unlock_ok write_ok :
  @tinfl_contract (sim unlock_ok write_ok).
Proof.
  unfold tinfl_contract. simpl. intros d input in_bytes buf off out_bytes flags Hi Ho.
  unfold toy_decompress.
  destruct (d =? 1); [simpl; lia|].
  destruct (d =? 2); [simpl; lia|].
  destruct (toy_scan (firstn (Z.to_nat in_bytes) input) (Z.to_nat out_bytes) [] 0)
    as [[st c] out] eqn:E.
  apply toy_scan_spec in E. destruct E as (A & B & C & D).
  pose proof (firstn_le_length (Z.to_nat in_bytes) input) as Hl.
  simpl in *.
  destruct D as [-> | [-> | [-> | ->]]]; simpl;
    try specialize (C eq_refl); repeat split; lia.
Qed.

Lemma session_9000_in_session : @in_session (sim true true) 9000 0 session_9000.
Proof.
  eapply (@handle_flash_begin_in_session (sim true true)).
  - unfold valid_region, FLASH_SECTOR_SIZE. simpl. lia.
  - apply (run_spec ESP_OK). vm_compute. reflexivity.
Qed.

Lemma sim_with_responsive s2 : @Responsive (sim_with s2 (fun _ => 0)).
Proof.
  intros s. split; [|split]; exists 2%nat; eexists; reflexivity.
Qed.

Lemma sim_with_tinfl_contract s2 status : @tinfl_contract (sim_with s2 status).
Proof. exact (sim_tinfl_contract true true). Qed.

Lemma two_writes_nonneg : Forall (fun o => 0 <= op_length o) two_writes.
Proof. repeat constructor; simpl; lia. Qed.

Lemma two_writes_undeflated : Forall undeflated two_writes.
Proof. repeat constructor. Qed.

Lemma two_writes_run :
  @data_phase (sim true true) two_writes 5%nat session_9000
  = Some (tt, session_9000_done).
Proof. unfold session_9000_done. apply run_unit. vm_compute. reflexivity. Qed.

Lemma session_9000_remaining : remaining (fs session_9000) = 9000.
Proof. vm_compute. reflexivity. Qed.

Lemma session_9000_next_write : next_write (fs session_9000) = 0.
Proof. vm_compute. reflexivity. Qed.

Lemma session_9000_next_out : next_out session_9000 = 0.
Proof. vm_compute. reflexivity. Qed.

Lemma session_9000_window : @window_open (sim true true) (fs session_9000).
Proof.
  assert (R3 : remaining_erase_sector (fs session_9000) = 3)
    by (vm_compute; reflexivity).
  assert (N3 : next_erase_sector (fs session_9000) = 0)
    by (vm_compute; reflexivity).
  exists 3. split; [lia|]. unfold erase_window. rewrite R3, N3. lia.
Qed.

Lemma session_9000_well_typed : @well_typed (sim true true) session_9000.
Proof.
  unfold well_typed. rewrite session_9000_remaining, session_9000_next_out.
  unfold OUT_BUF_SIZE. lia.
Qed.

Lemma clamp_5000 : clamp 5000 session_9000 = 5000.
Proof. vm_compute. reflexivity. Qed.

Lemma first_write_run :
  @handle_flash_data (sim true true) image_9000 5000 5%nat session_9000
  = Some (tt, session_9000_written).
Proof. unfold session_9000_written. apply run_unit. vm_compute. reflexivity. Qed.

Lemma clamp_100 : clamp 100 session_9000_written = 100.
Proof. vm_compute. reflexivity. Qed.

Lemma frontier_ahead :
  @erase_needed (sim true true)
    (last_sector session_9000_written (clamp 100 session_9000_written))
    session_9000_written = false.
Proof. vm_compute. reflexivity. Qed.

Lemma session_9000_remaining_ranged :
  0 <= remaining (fs session_9000) < 4294967296.
Proof. rewrite session_9000_remaining. lia. Qed.

Lemma session_9000_next_write_ranged :
  0 <= next_write (fs session_9000) < 4294967296.
Proof. rewrite session_9000_next_write. lia. Qed.

Lemma session_9000_next_out_ranged :
  0 <= next_out session_9000 < OUT_BUF_SIZE.
Proof. rewrite session_9000_next_out. unfold OUT_BUF_SIZE. lia. Qed.

Lemma deflated_2_next_out : next_out deflated_2 = 0.
Proof. vm_compute. reflexivity. Qed.

Lemma deflated_2_remaining : remaining (fs deflated_2) = 2.
Proof. vm_compute. reflexivity. Qed.

Lemma deflated_2_next_out_ranged : 0 <= next_out deflated_2 < OUT_BUF_SIZE.
Proof. rewrite deflated_2_next_out. unfold OUT_BUF_SIZE. lia. Qed.

Lemma deflated_2_remaining_ranged :
  0 <= remaining (fs deflated_2) < 4294967296.
Proof. rewrite deflated_2_remaining. lia. Qed.

Lemma deflated_2_run :
  @handle_flash_deflated_data (sim true true) [7; 8; 0] 3 5%nat deflated_2
  = Some (tt, deflated_2_done).
Proof. unfold deflated_2_done. apply run_unit. vm_compute. reflexivity. Qed.

Lemma clamp_s2_boot : clamp 1 boot_s2 = 0.
Proof. vm_compute. reflexivity. Qed.

Lemma clamp_s2_session : clamp 3 session_s2 <> 0.
Proof. vm_compute. discriminate. Qed.

Lemma session_empty_active : is_in_flash_mode session_empty = true.
Proof. vm_compute. reflexivity. Qed.

Lemma session_empty_remaining : remaining (fs session_empty) = 0.
Proof. vm_compute. reflexivity. Qed.

(** * The properties of the session engine *)

(** C1 (as amended).  In a session begun on a region that does not wrap
    the 32-bit arithmetic, every call of [handle_flash_data] or
    [handle_flash_encrypt_data] with a non-zero clamped length issues its
    program primitive only after the erase loop, and after that loop (in
    [s1]) and when the primitive is issued (in [s2]) the erase frontier
    covers the write: [remaining_erase_sector] is 0 or
    [next_erase_sector] is past the last sector the write touches, and
    [next_erase_sector * FLASH_SECTOR_SIZE] is at least the end of the
    write, hence at least [next_write].  The session invariant holds again
    after the call.  On responsive hardware both calls return. *)
Theorem write_stays_behind_erase_frontier {T : Target} total_size offset data length s :
  in_session total_size offset s -> 0 <= length -> clamp length s <> 0 ->
  (forall n s',
      handle_flash_data data length n s = Some (tt, s') ->
      exists s1 s2 ret out,
        erase_ahead (last_sector s (clamp length s)) n s = Some (tt, s1)
        /\ wait_flash_idle n s1 = Some (tt, s2)
        /\ frontier_covers (clamp length s) s1
        /\ frontier_covers (clamp length s) s2
        /\ hw s' = Rom (SPIWrite (next_write (fs s))
                          (firstn (Z.to_nat (clamp length s)) data)
                          (clamp length s)) ret out :: hw s2
        /\ next_erase_sector (fs s') = next_erase_sector (fs s2)
        /\ remaining_erase_sector (fs s') = remaining_erase_sector (fs s2)
        /\ in_session total_size offset s')
  /\ (forall n s',
      handle_flash_encrypt_data data length n s = Some (tt, s') ->
      exists s0 s1 s2 ret out post,
        same_soft s s0
        /\ erase_ahead (last_sector s (clamp length s)) n s0 = Some (tt, s1)
        /\ wait_flash_idle n s1 = Some (tt, s2)
        /\ frontier_covers (clamp length s) s1
        /\ frontier_covers (clamp length s) s2
        /\ hw s' = post ++ Rom (encrypt_primitive (next_write (fs s))
                                  (firstn (Z.to_nat (clamp length s)) data)
                                  (clamp length s)) ret out :: hw s2
        /\ next_erase_sector (fs s') = next_erase_sector (fs s2)
        /\ remaining_erase_sector (fs s') = remaining_erase_sector (fs s2)
        /\ in_session total_size offset s')
  /\ (Responsive ->
      returns (handle_flash_data data length) s
      /\ returns (handle_flash_encrypt_data data length) s).
Proof.
  intros IS Hlen Hnz. split; [|split].
  - intros n s' H. eapply handle_flash_data_session; eauto.
  - intros n s' H. eapply handle_flash_encrypt_data_session; eauto.
  - intros live. split.
    + apply returns_handle_flash_data, live.
    + apply returns_handle_flash_encrypt_data, live.
Qed.

Lemma write_stays_behind_erase_frontier_witness :
  @in_session (sim true true) 9000 0 session_9000
  /\ 0 <= 9000
  /\ @clamp (sim true true) 9000 session_9000 <> 0
  /\ exists s2 s',
      @handle_flash_data (sim true true) image_9000 9000 5%nat session_9000
      = Some (tt, s')
      /\ @frontier_covers (sim true true) 9000 s2
      /\ next_erase_sector (fs s') = next_erase_sector (fs s2)
      /\ @in_session (sim true true) 9000 0 s'.
Proof.
  assert (Ec : @clamp (sim true true) 9000 session_9000 = 9000)
    by (vm_compute; reflexivity).
  split; [exact session_9000_in_session|].
  split; [lia|].
  split; [rewrite Ec; discriminate|].
  destruct (@write_stays_behind_erase_frontier (sim true true) 9000 0 image_9000
              9000 session_9000 session_9000_in_session)
    as (Hplain & _ & _); [lia | rewrite Ec; discriminate |].
  assert (E : @handle_flash_data (sim true true) image_9000 9000 5%nat session_9000
              = Some (tt, run (handle_flash_data image_9000 9000) 5 session_9000)).
  { apply run_unit. vm_compute. reflexivity. }
  destruct (Hplain _ _ E)
    as (s1 & s2 & ret & out & _ & _ & _ & FC & _ & En & _ & IS).
  rewrite Ec in FC.
  exists s2. eexists. split; [exact E|].
  split; [exact FC|]. split; [exact En|exact IS].
Defined.

(** C1, counterexample.  [handle_flash_begin(4294967295, 1)] succeeds and
    leaves an active session; the first one-byte write has clamped length
    1, its erase loop returns at once, and then
    [next_erase_sector * FLASH_SECTOR_SIZE = 0 < 1 = next_write]: the
    program primitive is issued at address 1 although no erase command
    was ever issued. *)
Lemma wrapped_session_writes_unerased_flash :
  @finishes (sim true true) _ (handle_flash_begin 4294967295 1) 4
            (boot true true) = true
  /\ @value (sim true true) _ ESP_FAILED_SPI_UNLOCK
            (handle_flash_begin 4294967295 1) 4 (boot true true) = ESP_OK
  /\ is_in_flash_mode wrapped_session = true
  /\ clamp 1 wrapped_session = 1
  /\ @finishes (sim true true) _ (erase_ahead (last_sector wrapped_session 1)) 4
               wrapped_session = true
  /\ next_erase_sector
       (fs (@run (sim true true) _ (erase_ahead (last_sector wrapped_session 1))
                 4 wrapped_session)) * FLASH_SECTOR_SIZE
     < next_write
         (fs (@run (sim true true) _ (erase_ahead (last_sector wrapped_session 1))
                   4 wrapped_session))
  /\ @finishes (sim true true) _ (handle_flash_data [90] 1) 4 wrapped_session
     = true
  /\ hd_error (hw (@run (sim true true) _ (handle_flash_data [90] 1) 4
                        wrapped_session))
     = Some (Rom (SPIWrite 1 [90] 1) 0 0)
  /\ existsb (fun e => match e with WrReg SPI_ADDR_REG _ => true | _ => false end)
             (hw (@run (sim true true) _ (handle_flash_data [90] 1) 4
                       wrapped_session))
     = false.
Proof. repeat split; vm_compute; reflexivity. Qed.

(** C2 (as amended).  When [SPIUnlock] returns nonzero during begin,
    [handle_flash_begin] returns [ESP_FAILED_SPI_UNLOCK]; the six
    assignments made before the unlock stand, so the session is active:
    [is_in_flash_mode] answers true.  On responsive hardware
    [handle_flash_begin] returns. *)
Theorem failed_unlock_is_reported_and_session_stays_open {T : Target} total_size offset s :
  (forall n r s1,
      SPIUnlock n (set_fs (begin_fs total_size offset) s) = Some (r, s1) ->
      r <> 0 ->
      handle_flash_begin total_size offset n s
      = Some (ESP_FAILED_SPI_UNLOCK, s1)
      /\ is_in_flash_mode s1 = true
      /\ fs s1 = begin_fs total_size offset (fs s))
  /\ (Responsive -> returns (handle_flash_begin total_size offset) s).
Proof.
  split.
  - intros n r s1 E Hr.
    pose proof (soft_SPIUnlock _ _ _ _ E) as (F & _ & _).
    split; [|split].
    + unfold handle_flash_begin. unfold bind at 1. unfold modify at 1.
      rewrite (bind_run _ _ _ _ _ _ E).
      apply Z.eqb_neq in Hr. rewrite Hr. reflexivity.
    + unfold is_in_flash_mode. rewrite F. reflexivity.
    + exact F.
  - intros live. apply returns_handle_flash_begin, live.
Qed.

Lemma failed_unlock_is_reported_and_session_stays_open_witness :
  @handle_flash_begin (sim false true) 100 0 4%nat (boot false true)
  = Some (ESP_FAILED_SPI_UNLOCK, @run (sim false true) _ SPIUnlock 4 begun_100)
  /\ is_in_flash_mode (@run (sim false true) _ SPIUnlock 4 begun_100) = true.
Proof.
  destruct (@failed_unlock_is_reported_and_session_stays_open
              (sim false true) 100 0 (boot false true)) as (H & _).
  destruct (H 4%nat (@value (sim false true) _ 0 SPIUnlock 4 begun_100)
              (@run (sim false true) _ SPIUnlock 4 begun_100))
    as (H1 & H2 & _).
  - apply run_spec. vm_compute. reflexivity.
  - vm_compute. discriminate.
  - split; assumption.
Defined.

(** C2, counterexample.  With a failing unlock [handle_flash_begin]
    returns [ESP_FAILED_SPI_UNLOCK], yet the session that was inactive
    before the call is active afterwards. *)
Lemma failed_begin_leaves_flash_mode_on :
  is_in_flash_mode (boot false true) = false
  /\ @finishes (sim false true) _ (handle_flash_begin 100 0) 4 (boot false true)
     = true
  /\ @value (sim false true) _ ESP_OK (handle_flash_begin 100 0) 4
            (boot false true) = ESP_FAILED_SPI_UNLOCK
  /\ is_in_flash_mode
       (@run (sim false true) _ (handle_flash_begin 100 0) 4 (boot false true))
     = true.
Proof. repeat split; vm_compute; reflexivity. Qed.

(** C3 (as amended).  For 32-bit [total_size] and [offset] whose sector
    count does not wrap
    ([offset mod FLASH_SECTOR_SIZE + total_size + FLASH_SECTOR_SIZE - 1 < 2^32]),
    after [handle_flash_begin(total_size, offset)] (successful or not) the
    session is active, [next_write = offset],
    [next_erase_sector = offset / FLASH_SECTOR_SIZE],
    [remaining = total_size], [remaining_erase_sector] is the ceiling of
    [(offset mod FLASH_SECTOR_SIZE + total_size) / FLASH_SECTOR_SIZE] and
    [last_error] is [ESP_OK]; the statics of the deflate path are
    untouched.  On responsive hardware the call returns. *)
Theorem begin_initialises_session {T : Target} total_size offset s :
  0 <= total_size < 4294967296 -> 0 <= offset < 4294967296 ->
  offset mod FLASH_SECTOR_SIZE + total_size + FLASH_SECTOR_SIZE - 1
    < 4294967296 ->
  (forall n e s',
      handle_flash_begin total_size offset n s = Some (e, s') ->
      is_in_flash_mode s' = true
      /\ next_write (fs s') = offset
      /\ next_erase_sector (fs s') = offset / FLASH_SECTOR_SIZE
      /\ remaining (fs s') = total_size
      /\ is_ceil_div (remaining_erase_sector (fs s'))
                     (offset mod FLASH_SECTOR_SIZE + total_size)
                     FLASH_SECTOR_SIZE
      /\ get_flash_error s' = ESP_OK
      /\ out_buf s' = out_buf s /\ next_out s' = next_out s)
  /\ (Responsive -> returns (handle_flash_begin total_size offset) s).
Proof.
  intros Ht Ho Hw. split.
  - intros n e s' H.
    destruct (handle_flash_begin_inv _ _ _ _ _ _ H) as (r & _ & _ & F & B & O).
    unfold is_in_flash_mode, get_flash_error, is_ceil_div. rewrite F. simpl.
    unfold FLASH_SECTOR_SIZE in *.
    assert (Em : u32 (offset mod 4096) = offset mod 4096).
    { apply u32_small. Z.div_mod_to_equations. lia. }
    rewrite Em.
    rewrite (u32_small (offset mod 4096 + total_size + 4096 - 1))
      by (Z.div_mod_to_equations; lia).
    rewrite !i32_small by (Z.div_mod_to_equations; lia).
    repeat split; try assumption; Z.div_mod_to_equations; lia.
  - intros live. apply returns_handle_flash_begin, live.
Qed.

Lemma begin_initialises_session_witness :
  0 <= 9000 < 4294967296 /\ 0 <= 0 < 4294967296
  /\ 0 mod FLASH_SECTOR_SIZE + 9000 + FLASH_SECTOR_SIZE - 1 < 4294967296
  /\ is_in_flash_mode session_9000 = true
  /\ next_write (fs session_9000) = 0
  /\ next_erase_sector (fs session_9000) = 0 / FLASH_SECTOR_SIZE
  /\ remaining (fs session_9000) = 9000
  /\ is_ceil_div (remaining_erase_sector (fs session_9000))
                 (0 mod FLASH_SECTOR_SIZE + 9000) FLASH_SECTOR_SIZE
  /\ get_flash_error session_9000 = ESP_OK.
Proof.
  assert (H1 : 0 <= 9000 < 4294967296) by lia.
  assert (H2 : 0 <= 0 < 4294967296) by lia.
  assert (H3 : 0 mod FLASH_SECTOR_SIZE + 9000 + FLASH_SECTOR_SIZE - 1
               < 4294967296) by (vm_compute; reflexivity).
  split; [exact H1|]. split; [exact H2|]. split; [exact H3|].
  destruct (@begin_initialises_session (sim true true) 9000 0 (boot true true)
              H1 H2 H3) as (H & _).
  destruct (H 4%nat (@value (sim true true) _ ESP_OK (handle_flash_begin 9000 0)
                            4 (boot true true)) session_9000)
    as (A & B & C & D & E & F & _).
  - apply run_spec. vm_compute. reflexivity.
  - split; [exact A|]. split; [exact B|]. split; [exact C|].
    split; [exact D|]. split; [exact E|exact F].
Defined.

(** C3, counterexample.  [handle_flash_begin(4294967295, 0)] succeeds and
    sets [remaining_erase_sector] to 0, which is not the ceiling of
    [(0 + 4294967295) / 4096] = 1048576. *)
Lemma begin_sector_count_wraps :
  @finishes (sim true true) _ (handle_flash_begin 4294967295 0) 4
            (boot true true) = true
  /\ @value (sim true true) _ ESP_FAILED_SPI_UNLOCK
            (handle_flash_begin 4294967295 0) 4 (boot true true) = ESP_OK
  /\ remaining_erase_sector
       (fs (@run (sim true true) _ (handle_flash_begin 4294967295 0) 4
                 (boot true true))) = 0
  /\ ~ is_ceil_div
         (remaining_erase_sector
            (fs (@run (sim true true) _ (handle_flash_begin 4294967295 0) 4
                      (boot true true))))
         (0 mod FLASH_SECTOR_SIZE + 4294967295) FLASH_SECTOR_SIZE.
Proof.
  split; [vm_compute; reflexivity|]. split; [vm_compute; reflexivity|].
  assert (E : remaining_erase_sector
                (fs (@run (sim true true) _ (handle_flash_begin 4294967295 0) 4
                          (boot true true))) = 0)
    by (vm_compute; reflexivity).
  split; [exact E|].
  rewrite E. unfold is_ceil_div, FLASH_SECTOR_SIZE. simpl. lia.
Qed.

(** C4.  [handle_flash_end] returns [ESP_NOT_IN_FLASH_MODE] when no
    session is active, [ESP_NOT_ENOUGH_DATA] when bytes remain (both
    without touching the machine), and otherwise clears [in_flash_mode]
    and returns the latched [last_error]; it needs no fuel.  Hence
    [handle_flash_begin(100, 0)] followed directly by [handle_flash_end]
    yields [ESP_NOT_ENOUGH_DATA], and on responsive hardware that sequence
    returns. *)
Theorem handle_flash_end_outcomes {T : Target} n s :
  (in_flash_mode (fs s) = false ->
   handle_flash_end n s = Some (ESP_NOT_IN_FLASH_MODE, s))
  /\ (in_flash_mode (fs s) = true -> 0 < remaining (fs s) ->
      handle_flash_end n s = Some (ESP_NOT_ENOUGH_DATA, s))
  /\ (in_flash_mode (fs s) = true -> remaining (fs s) <= 0 ->
      handle_flash_end n s
      = Some (last_error (fs s), set_fs (set_in_flash_mode false) s)
      /\ is_in_flash_mode (set_fs (set_in_flash_mode false) s) = false)
  /\ (forall s0 e s1,
         handle_flash_begin 100 0 n s0 = Some (e, s1) ->
         handle_flash_end n s1 = Some (ESP_NOT_ENOUGH_DATA, s1)
         /\ (_ <- handle_flash_begin 100 0 ;; handle_flash_end) n s0
            = Some (ESP_NOT_ENOUGH_DATA, s1))
  /\ (Responsive ->
      returns (_ <- handle_flash_begin 100 0 ;; handle_flash_end) s).
Proof.
  split; [|split; [|split; [|split]]].
  - apply handle_flash_end_idle.
  - apply handle_flash_end_short.
  - intros E Hr. split; [apply handle_flash_end_closes; assumption|].
    reflexivity.
  - intros s0 e s1 H.
    destruct (handle_flash_begin_inv _ _ _ _ _ _ H) as (r & _ & _ & F & _).
    assert (E : handle_flash_end n s1 = Some (ESP_NOT_ENOUGH_DATA, s1)).
    { unfold handle_flash_end, bind, get, modify, ret. rewrite F. reflexivity. }
    split; [exact E|].
    rewrite (bind_run _ _ _ _ _ _ H). exact E.
  - intros live.
    apply returns_bind;
      [solve [mono_tac] | intro; apply mono_handle_flash_end | | intros ? ? ? _].
    + apply returns_handle_flash_begin, live.
    + apply returns_handle_flash_end.
Qed.

Lemma handle_flash_end_outcomes_witness :
  @handle_flash_end (sim true true) 4%nat (boot true true)
  = Some (ESP_NOT_IN_FLASH_MODE, boot true true)
  /\ @handle_flash_end (sim true true) 4%nat session_9000
     = Some (ESP_NOT_ENOUGH_DATA, session_9000)
  /\ (_ <- @handle_flash_begin (sim true true) 100 0 ;; handle_flash_end) 4%nat
       (boot true true)
     = Some (ESP_NOT_ENOUGH_DATA,
             @run (sim true true) _ (handle_flash_begin 100 0) 4 (boot true true)).
Proof.
  destruct (@handle_flash_end_outcomes (sim true true) 4%nat (boot true true))
    as (H1 & _ & _ & H4 & _).
  destruct (@handle_flash_end_outcomes (sim true true) 4%nat session_9000)
    as (_ & H2 & _).
  split; [|split].
  - exact (H1 eq_refl).
  - apply H2; vm_compute; reflexivity.
  - refine (proj2 (H4 (boot true true)
                      (@value (sim true true) _ ESP_OK (handle_flash_begin 100 0)
                              4 (boot true true)) _ _)).
    apply run_spec. vm_compute. reflexivity.
Defined.



(** C6 (as amended).  A failing program primitive sets [last_error] to
    [ESP_FAILED_SPI_OP], a succeeding one leaves it as it was; no
    data-phase call, plain, encrypted or deflated, alone or in a sequence,
    sets a latched error back to [ESP_OK] (a later failure may replace it
    by its own code); a plain or encrypted call advances [next_write] and
    [remaining] by the clamped length whatever the outcome of the
    primitive and whatever is latched; [handle_flash_end], once nothing
    remains, returns the latched value, which [get_flash_error] still
    reports; [handle_flash_begin] resets it to [ESP_OK].  On responsive
    hardware with an inflate engine that keeps its contract every
    data-phase call returns. *)
Theorem sticky_error_is_latched_until_begin {T : Target} :
  (forall o n s s',
      0 <= op_length o -> do_op o n s = Some (tt, s') ->
      get_flash_error s <> ESP_OK -> get_flash_error s' <> ESP_OK)
  /\ (forall ops n s s',
      Forall (fun o => 0 <= op_length o) ops ->
      data_phase ops n s = Some (tt, s') ->
      get_flash_error s <> ESP_OK -> get_flash_error s' <> ESP_OK)
  /\ (forall data length n s s',
      clamp length s <> 0 ->
      handle_flash_data data length n s = Some (tt, s') ->
      exists s2 ret out,
        hw s' = Rom (SPIWrite (next_write (fs s))
                       (firstn (Z.to_nat (clamp length s)) data)
                       (clamp length s)) ret out :: hw s2
        /\ get_flash_error s'
           = (if ret =? 0 then get_flash_error s else ESP_FAILED_SPI_OP)
        /\ next_write (fs s') = u32 (next_write (fs s) + clamp length s)
        /\ remaining (fs s') = u32 (remaining (fs s) - clamp length s))
  /\ (forall data length n s s',
      clamp length s <> 0 ->
      handle_flash_encrypt_data data length n s = Some (tt, s') ->
      exists s2 ret out post,
        hw s' = post ++ Rom (encrypt_primitive (next_write (fs s))
                               (firstn (Z.to_nat (clamp length s)) data)
                               (clamp length s)) ret out :: hw s2
        /\ get_flash_error s'
           = (if ret =? 0 then get_flash_error s else ESP_FAILED_SPI_OP)
        /\ next_write (fs s') = u32 (next_write (fs s) + clamp length s)
        /\ remaining (fs s') = u32 (remaining (fs s) - clamp length s))
  /\ (forall n s,
      in_flash_mode (fs s) = true -> remaining (fs s) <= 0 ->
      exists s',
        handle_flash_end n s = Some (get_flash_error s, s')
        /\ get_flash_error s' = get_flash_error s
        /\ is_in_flash_mode s' = false)
  /\ (forall total_size offset n s e s',
      handle_flash_begin total_size offset n s = Some (e, s') ->
      get_flash_error s' = ESP_OK)
  /\ (Responsive -> tinfl_contract ->
      forall o s, well_typed s -> returns (do_op o) s).
Proof.
  split; [|split; [|split; [|split; [|split; [|split]]]]].
  - intros o n s s' Hlen H.
    exact (do_op_respects _ o error_kept_invariant Hlen _ _ _ _ H).
  - intros ops n s s' Hlen H.
    exact (data_phase_respects _ ops error_kept_invariant Hlen _ _ _ _ H).
  - intros data length n s s' Hnz H.
    destruct (handle_flash_data_effect _ _ _ _ _ H Hnz)
      as (s2 & ret & out & ((_ & Nw & Rm & Le & _) & _) & Ehw & Efs & _).
    exists s2, ret, out. split; [exact Ehw|].
    unfold get_flash_error. rewrite Efs.
    destruct (programmed_fields (clamp length s) ret (fs s2)) as (A & B & C).
    rewrite A, B, C, Nw, Rm, Le. repeat split.
  - intros data length n s s' Hnz H.
    destruct (handle_flash_encrypt_data_effect _ _ _ _ _ H Hnz)
      as (s2 & ret & out & post & (_ & Nw & Rm & Le & _) & Ehw & Efs & _).
    exists s2, ret, out, post. split; [exact Ehw|].
    unfold get_flash_error. rewrite Efs.
    destruct (programmed_fields (clamp length s) ret (fs s2)) as (A & B & C).
    rewrite A, B, C, Nw, Rm, Le. repeat split.
  - intros n s Ha Hr.
    exists (set_fs (set_in_flash_mode false) s).
    split; [|split; reflexivity].
    apply handle_flash_end_closes; assumption.
  - intros total_size offset n s e s' H.
    destruct (handle_flash_begin_inv _ _ _ _ _ _ H) as (r & _ & _ & F & _).
    unfold get_flash_error. rewrite F. reflexivity.
  - intros live engine o s WT. apply returns_do_op; assumption.
Qed.

Lemma sticky_error_is_latched_until_begin_witness :
  get_flash_error session_10 = ESP_OK
  /\ get_flash_error session_10_written = ESP_FAILED_SPI_OP
  /\ next_write (fs session_10_written) = 10
  /\ remaining (fs session_10_written) = 0
  /\ exists s',
      @handle_flash_end (sim true false) 0%nat session_10_written
      = Some (ESP_FAILED_SPI_OP, s')
      /\ get_flash_error s' = ESP_FAILED_SPI_OP.
Proof.
  destruct (@sticky_error_is_latched_until_begin (sim true false))
    as (_ & _ & Hplain & _ & Hend & Hbegin & _).
  assert (E0 : get_flash_error session_10 = ESP_OK).
  { refine (Hbegin 10 0 4%nat (boot true false)
                   (@value (sim true false) _ ESP_OK (handle_flash_begin 10 0) 4
                           (boot true false)) session_10 _).
    unfold session_10. apply run_spec. vm_compute. reflexivity. }
  assert (Ec : @clamp (sim true false) 10 session_10 = 10)
    by (vm_compute; reflexivity).
  assert (Ew : get_flash_error session_10_written = ESP_FAILED_SPI_OP)
    by (vm_compute; reflexivity).
  assert (Erun : @handle_flash_data (sim true false) (repeat 90 10%nat) 10 5%nat
                   session_10 = Some (tt, session_10_written)).
  { unfold session_10_written. apply run_unit. vm_compute. reflexivity. }
  assert (Hnz : @clamp (sim true false) 10 session_10 <> 0)
    by (rewrite Ec; discriminate).
  destruct (Hplain _ _ _ _ _ Hnz Erun) as (s2 & ret & out & _ & _ & Nw & Rm).
  rewrite Ec in Nw, Rm.
  assert (N0 : next_write (fs session_10) = 0) by (vm_compute; reflexivity).
  assert (R0 : remaining (fs session_10) = 10) by (vm_compute; reflexivity).
  rewrite N0 in Nw. rewrite R0 in Rm.
  assert (Ha : in_flash_mode (fs session_10_written) = true)
    by (vm_compute; reflexivity).
  assert (Hr : remaining (fs session_10_written) <= 0)
    by (rewrite Rm; vm_compute; discriminate).
  destruct (Hend 0%nat session_10_written Ha Hr) as (s' & He & Hg & _).
  rewrite Ew in He, Hg.
  split; [exact E0|]. split; [exact Ew|]. split; [exact Nw|].
  split; [exact Rm|]. exists s'. split; assumption.
Defined.

(** C6, counterexample.  The flush of the first data call fails and
    latches [ESP_FAILED_SPI_OP]; a later data call of the same session
    overwrites it with [ESP_TOO_MUCH_DATA], and that is what
    [handle_flash_end] returns. *)
Lemma later_data_call_overwrites_latched_error :
  @finishes (sim true false) _ (handle_flash_deflated_begin 1 2 0) 4
            (boot true false) = true
  /\ @finishes (sim true false) _ (handle_flash_deflated_data [7; 0] 2) 5
               deflated_1 = true
  /\ get_flash_error deflated_1_done = ESP_FAILED_SPI_OP
  /\ @finishes (sim true false) _ (handle_flash_deflated_data [9] 1) 5
               deflated_1_done = true
  /\ get_flash_error deflated_1_extra = ESP_TOO_MUCH_DATA
  /\ @value (sim true false) _ ESP_OK handle_flash_end 0 deflated_1_extra
     = ESP_TOO_MUCH_DATA.
Proof. repeat split; vm_compute; reflexivity. Qed.

(** C7.  When [start_next_erase] has work to do
    ([remaining_erase_sector <> 0], counters in their session range) and
    the flash reports ready, it starts exactly one erase: after status
    polling it writes one write enable, then latches the address of
    [next_erase_sector] and writes one erase command, then only polls.
    The command is the 64 KiB block erase, and both counters move by
    [SECTORS_PER_BLOCK], if [remaining_erase_sector >= SECTORS_PER_BLOCK]
    and [next_erase_sector] is block-aligned; otherwise it is the 4 KiB
    sector erase and the counters move by 1.  On responsive hardware
    [start_next_erase] returns, and when the flash reports ready the run
    that returns has moved the counters by the block or by one sector. *)
Theorem start_next_erase_tie_break {T : Target} E s :
  E < 2147483648 -> erase_window E (fs s) ->
  remaining_erase_sector (fs s) <> 0 ->
  (forall n s1 s',
      spiflash_is_ready n s = Some (true, s1) ->
      start_next_erase n s = Some (tt, s') ->
      (SECTORS_PER_BLOCK <= remaining_erase_sector (fs s)
       /\ next_erase_sector (fs s) mod SECTORS_PER_BLOCK = 0 ->
       next_erase_sector (fs s') = next_erase_sector (fs s) + SECTORS_PER_BLOCK
       /\ remaining_erase_sector (fs s')
          = remaining_erase_sector (fs s) - SECTORS_PER_BLOCK
       /\ exists pre post,
           hw s' = post ++ WrReg SPI_CMD_REG SPI_FLASH_BE
                        :: WrReg SPI_ADDR_REG
                             (Z.land (u32 (next_erase_sector (fs s)
                                           * FLASH_SECTOR_SIZE)) 16777215)
                        :: pre ++ hw s
           /\ Forall quiet pre /\ Forall is_poll post
           /\ exists before after,
               pre = after ++ WrReg SPI_CMD_REG SPI_FLASH_WREN :: before
               /\ Forall status_poll before /\ Forall is_poll after)
      /\ (~ (SECTORS_PER_BLOCK <= remaining_erase_sector (fs s)
             /\ next_erase_sector (fs s) mod SECTORS_PER_BLOCK = 0) ->
          next_erase_sector (fs s') = next_erase_sector (fs s) + 1
          /\ remaining_erase_sector (fs s') = remaining_erase_sector (fs s) - 1
          /\ exists pre post,
              hw s' = post ++ WrReg SPI_CMD_REG SPI_FLASH_SE
                           :: WrReg SPI_ADDR_REG
                                (Z.land (u32 (next_erase_sector (fs s)
                                              * FLASH_SECTOR_SIZE)) 16777215)
                           :: pre ++ hw s
              /\ Forall quiet pre /\ Forall is_poll post
              /\ exists before after,
                  pre = after ++ WrReg SPI_CMD_REG SPI_FLASH_WREN :: before
                  /\ Forall status_poll before /\ Forall is_poll after)
      /\ same_but_erase (fs s) (fs s'))
  /\ (Responsive -> returns start_next_erase s)
  /\ (Responsive ->
      forall n s1,
        spiflash_is_ready n s = Some (true, s1) ->
        exists m s',
          start_next_erase m s = Some (tt, s')
          /\ let k := if (SECTORS_PER_BLOCK <=? remaining_erase_sector (fs s))
                         && (next_erase_sector (fs s) mod SECTORS_PER_BLOCK =? 0)
                      then SECTORS_PER_BLOCK else 1 in
             next_erase_sector (fs s') = next_erase_sector (fs s) + k
             /\ remaining_erase_sector (fs s')
                = remaining_erase_sector (fs s) - k).
Proof.
  intros HE W Hnz.
  assert (Hrun : forall n s1 s',
             spiflash_is_ready n s = Some (true, s1) ->
             start_next_erase n s = Some (tt, s') ->
             fs s' = erased (fs s)
             /\ exists pre post,
                 hw s' = post ++ WrReg SPI_CMD_REG (erase_command (fs s))
                              :: WrReg SPI_ADDR_REG (erase_address (fs s))
                              :: pre ++ hw s
                 /\ Forall quiet pre /\ Forall is_poll post
                 /\ exists before after,
                     pre = after ++ WrReg SPI_CMD_REG SPI_FLASH_WREN :: before
                     /\ Forall status_poll before /\ Forall is_poll after).
  { intros n s1 s' Hrdy H.
    destruct (start_next_erase_inv _ _ _ H)
      as [(Hz & _) | [(_ & Hp) | (_ & _ & F & _)]].
    { contradiction. }
    { rewrite Hrdy in Hp. discriminate. }
    split; [exact F|].
    destruct (start_next_erase_history _ _ _ Hnz (ex_intro _ s1 Hrdy) H)
      as (before & after & post & Eh & Qb & Qa & Qp).
    exists (after ++ WrReg SPI_CMD_REG SPI_FLASH_WREN :: before), post.
    split; [exact Eh|]. split; [|split; [exact Qp|]].
    - apply Forall_app. split.
      + eapply Forall_impl; [|exact Qa]. apply quiet_of_poll.
      + constructor; [simpl; auto|].
        eapply Forall_impl; [|exact Qb]. apply quiet_of_status_poll.
    - exists before, after. auto. }
  assert (Hblk : erase_block (fs s) = true <->
                 (SECTORS_PER_BLOCK <= remaining_erase_sector (fs s)
                  /\ next_erase_sector (fs s) mod SECTORS_PER_BLOCK = 0)).
  { destruct W as (_ & Wn & _). unfold erase_block.
    rewrite andb_true_iff, Z.leb_le, Z.eqb_eq.
    rewrite Z.rem_mod_nonneg by (unfold SECTORS_PER_BLOCK; lia).
    tauto. }
  pose proof (erased_counters E _ HE W Hnz) as (K1 & K2 & _).
  cbv zeta in K1, K2.
  split; [|split].
  - intros n s1 s' Hrdy H.
    destruct (Hrun _ _ _ Hrdy H) as (F & G).
    rewrite <- F in K1, K2.
    unfold erase_command, erase_address in G.
    split; [|split].
    + intros Hc. apply Hblk in Hc. rewrite Hc in *. auto.
    + intros Hc. destruct (erase_block (fs s)) eqn:Eb.
      * exfalso. apply Hc, Hblk. reflexivity.
      * auto.
    + rewrite F. apply same_but_erase_erased.
  - intros live. apply returns_start_next_erase, live.
  - intros live n s1 Hrdy.
    destruct (returns_start_next_erase live s) as (m & [[] s'] & Hm).
    pose proof (mono_start_next_erase m (Nat.max m n) s _
                  (Nat.le_max_l _ _) Hm) as Hm'.
    pose proof (mono_spiflash_is_ready n (Nat.max m n) s _
                  (Nat.le_max_r _ _) Hrdy) as Hrdy'.
    exists (Nat.max m n), s'. split; [exact Hm'|].
    destruct (Hrun _ _ _ Hrdy' Hm') as (F & _).
    cbv zeta. rewrite F, K1, K2. unfold erase_block.
    destruct W as (_ & Wn & _).
    rewrite Z.rem_mod_nonneg by (unfold SECTORS_PER_BLOCK; lia).
    split; reflexivity.
Qed.

Lemma start_next_erase_tie_break_witness :
  remaining_erase_sector (fs session_block) = 16
  /\ next_erase_sector
       (fs (@run (sim true true) _ start_next_erase 4 session_block)) = 16
  /\ remaining_erase_sector
       (fs (@run (sim true true) _ start_next_erase 4 session_block)) = 0
  /\ next_erase_sector
       (fs (@run (sim true true) _ start_next_erase 4 session_9000)) = 1
  /\ remaining_erase_sector
       (fs (@run (sim true true) _ start_next_erase 4 session_9000)) = 2
  /\ @returns (sim true true) _ start_next_erase session_block
  /\ @returns (sim true true) _ start_next_erase session_9000.
Proof.
  assert (R16 : remaining_erase_sector (fs session_block) = 16)
    by (vm_compute; reflexivity).
  assert (N16 : next_erase_sector (fs session_block) = 0)
    by (vm_compute; reflexivity).
  assert (R3 : remaining_erase_sector (fs session_9000) = 3)
    by (vm_compute; reflexivity).
  assert (N3 : next_erase_sector (fs session_9000) = 0)
    by (vm_compute; reflexivity).
  split; [exact R16|].
  destruct (@start_next_erase_tie_break (sim true true) 16 session_block)
    as (Hb & Hbret & _).
  { lia. }
  { unfold erase_window. rewrite R16, N16. lia. }
  { rewrite R16. discriminate. }
  destruct (Hb 4%nat
              (@run (sim true true) _ spiflash_is_ready 4 session_block)
              (@run (sim true true) _ start_next_erase 4 session_block))
    as (Hblock & _).
  { apply (run_spec true). vm_compute. reflexivity. }
  { apply run_unit. vm_compute. reflexivity. }
  destruct (@start_next_erase_tie_break (sim true true) 3 session_9000)
    as (Hs & Hsret & _).
  { lia. }
  { unfold erase_window. rewrite R3, N3. lia. }
  { rewrite R3. discriminate. }
  destruct (Hs 4%nat
              (@run (sim true true) _ spiflash_is_ready 4 session_9000)
              (@run (sim true true) _ start_next_erase 4 session_9000))
    as (_ & Hsector & _).
  { apply (run_spec true). vm_compute. reflexivity. }
  { apply run_unit. vm_compute. reflexivity. }
  destruct Hblock as (A1 & A2 & _).
  { rewrite R16, N16. unfold SECTORS_PER_BLOCK. split; [lia|reflexivity]. }
  destruct Hsector as (B1 & B2 & _).
  { rewrite R3, N3. unfold SECTORS_PER_BLOCK. lia. }
  rewrite R16, N16 in *. rewrite R3, N3 in *.
  split; [exact A1|]. split; [exact A2|]. split; [exact B1|].
  split; [exact B2|].
  split; [apply Hbret|apply Hsret]; apply sim_responsive.
Defined.

(** C8 (as amended).  After the loop of a call of
    [handle_flash_deflated_data] ended with status [st] and [rem] bytes
    still expected, the call leaves [remaining] as it is and sets
    [last_error] to [ESP_TOO_MUCH_DATA] if [st] is not DONE and [rem] is
    0, else to [ESP_NOT_ENOUGH_DATA] if [st] is DONE and [rem > 0], else
    to [ESP_INFLATE_ERROR] if [st < DONE], else leaves it.  "Not enough
    data" excludes both other conditions, but an inflate error and "too
    much data" apply together whenever [st < DONE] and [rem = 0], and
    then [ESP_TOO_MUCH_DATA] is what stays latched.  On responsive
    hardware with an inflate engine that keeps its contract the call
    returns. *)
Theorem deflate_terminal_bookkeeping {T : Target} data length s :
  (forall n s',
      handle_flash_deflated_data data length n s = Some (tt, s') ->
      exists l s1,
        deflate_loop data length n s = Some (l, s1)
        /\ remaining (fs s') = remaining (fs s1)
        /\ get_flash_error s'
           = (if data_surplus (l_status l) (remaining (fs s1))
              then ESP_TOO_MUCH_DATA
              else if data_missing (l_status l) (remaining (fs s1))
              then ESP_NOT_ENOUGH_DATA
              else if inflate_failed (l_status l)
              then ESP_INFLATE_ERROR
              else get_flash_error s1))
  /\ (forall st rem,
      data_missing st rem = true ->
      inflate_failed st = false /\ data_surplus st rem = false)
  /\ (forall st rem,
      inflate_failed st = true -> rem = 0 -> data_surplus st rem = true)
  /\ (Responsive -> tinfl_contract -> well_typed s ->
      returns (handle_flash_deflated_data data length) s).
Proof.
  split; [|split; [|split]].
  - intros n s' H. unfold handle_flash_deflated_data in H.
    bind_inv H as l s1 E. rewrite deflate_finish_run in H.
    injection H as <-.
    exists l, s1. split; [exact E|].
    unfold get_flash_error. simpl.
    destruct (data_surplus (l_status l) (remaining (fs s1))); [auto|].
    destruct (data_missing (l_status l) (remaining (fs s1))); [auto|].
    destruct (inflate_failed (l_status l)); auto.
  - intros st rem H. unfold data_missing, inflate_failed, data_surplus in *.
    apply andb_true_iff in H. destruct H as (H1 & H2).
    rewrite H1. apply Z.eqb_eq in H1. split; [|reflexivity].
    apply Z.ltb_ge. lia.
  - intros st rem H ->. unfold inflate_failed, data_surplus in *.
    apply Z.ltb_lt in H.
    assert (E : (st =? TINFL_STATUS_DONE) = false) by (apply Z.eqb_neq; lia).
    rewrite E. reflexivity.
  - intros live engine (Hrem & Hout).
    apply returns_handle_flash_deflated_data; assumption.
Qed.

Lemma deflate_terminal_bookkeeping_witness :
  exists l s1,
    @deflate_loop (sim true true) [7; 7; 0] 3 5%nat deflated_2 = Some (l, s1)
    /\ remaining
         (fs (@run (sim true true) _ (handle_flash_deflated_data [7; 7; 0] 3) 5
                   deflated_2)) = remaining (fs s1)
    /\ get_flash_error
         (@run (sim true true) _ (handle_flash_deflated_data [7; 7; 0] 3) 5
               deflated_2) = ESP_OK.
Proof.
  destruct (@deflate_terminal_bookkeeping (sim true true) [7; 7; 0] 3 deflated_2)
    as (H & _).
  assert (Erun : @handle_flash_deflated_data (sim true true) [7; 7; 0] 3 5%nat
                   deflated_2
                 = Some (tt, @run (sim true true) _
                                  (handle_flash_deflated_data [7; 7; 0] 3) 5
                                  deflated_2)).
  { apply run_unit. vm_compute. reflexivity. }
  destruct (H _ _ Erun) as (l & s1 & E & Hrem & _).
  exists l, s1. split; [exact E|]. split; [exact Hrem|].
  vm_compute. reflexivity.
Defined.

(** C8, counterexample.  One call of [handle_flash_deflated_data] on the
    stream (literal 7, corrupt code): the loop ends with a failure status
    and nothing remaining, so the inflate-error condition and the
    too-much-data condition both apply in this call; [last_error] ends as
    [ESP_TOO_MUCH_DATA], not [ESP_INFLATE_ERROR]. *)
Lemma inflate_error_and_surplus_in_one_call :
  @finishes (sim true true) _ (deflate_loop [7; 255] 2) 5 deflated_bad = true
  /\ l_status (@value (sim true true) _ (mk_locals [] 0 0)
                      (deflate_loop [7; 255] 2) 5 deflated_bad) = -1
  /\ remaining (fs (@run (sim true true) _ (deflate_loop [7; 255] 2) 5
                         deflated_bad)) = 0
  /\ @inflate_failed (sim true true) (-1) = true
  /\ @data_surplus (sim true true) (-1) 0 = true
  /\ @finishes (sim true true) _ (handle_flash_deflated_data [7; 255] 2) 5
               deflated_bad = true
  /\ get_flash_error
       (@run (sim true true) _ (handle_flash_deflated_data [7; 255] 2) 5
             deflated_bad) = ESP_TOO_MUCH_DATA.
Proof. repeat split; vm_compute; reflexivity. Qed.

(** C9, the failing run.  After a session that stopped in mid-stream,
    [handle_flash_deflated_begin] leaves [next_out] at offset 2, past the
    two bytes of the old session; the first chunk of the new session
    (literal 9, end of stream) then programs those two stale bytes at the
    new offset, and the session ends with [ESP_OK]. *)
Lemma stale_output_survives_deflated_begin :
  @finishes (sim true true) _
            (_ <- handle_flash_deflated_begin 8 4 0 ;;
             handle_flash_deflated_data [7; 7] 2) 5 (boot true true) = true
  /\ next_out abandoned = 2
  /\ @finishes (sim true true) _ (handle_flash_deflated_begin 2 2 4096) 4
               abandoned = true
  /\ inflator (fs begun_again) = 0
  /\ remaining_compressed (fs begun_again) = 2
  /\ next_out begun_again = 2
  /\ @finishes (sim true true) _ (handle_flash_deflated_data [9; 0] 2) 5
               begun_again = true
  /\ hd_error (hw (@run (sim true true) _ (handle_flash_deflated_data [9; 0] 2) 5
                        begun_again))
     = Some (Rom (SPIWrite 4096 [7; 7] 2) 0 0)
  /\ @value (sim true true) _ ESP_FAILED_SPI_OP handle_flash_end 0
            (@run (sim true true) _ (handle_flash_deflated_data [9; 0] 2) 5
                  begun_again) = ESP_OK.
Proof. repeat split; vm_compute; reflexivity. Qed.

(** C10 (as amended).  [handle_flash_begin(total_size, offset)] establishes
    [next_write + remaining = offset + total_size]; every data operation
    keeps the sum in the 32-bit arithmetic of the code, a plain or
    encrypted one by adding to [next_write] exactly the clamped length it
    subtracts from [remaining]; so after begin and any sequence of data
    operations the sum is still [offset + total_size] modulo 2^32, and
    exactly that when the region ends below 2^32, in which case
    [remaining = 0] puts the write cursor at [offset + total_size].  On
    responsive hardware with an inflate engine that keeps its contract
    the whole sequence returns. *)
Theorem byte_accounting_is_invariant {T : Target} total_size offset :
  0 <= total_size < 4294967296 -> 0 <= offset < 4294967296 ->
  (forall n s e s1,
      handle_flash_begin total_size offset n s = Some (e, s1) ->
      next_write (fs s1) + remaining (fs s1) = offset + total_size)
  /\ (forall o n s s',
      0 <= op_length o -> do_op o n s = Some (tt, s') ->
      u32 (next_write (fs s') + remaining (fs s'))
      = u32 (next_write (fs s) + remaining (fs s)))
  /\ (forall data length n s s',
      clamp length s <> 0 ->
      handle_flash_data data length n s = Some (tt, s')
      \/ handle_flash_encrypt_data data length n s = Some (tt, s') ->
      next_write (fs s') = u32 (next_write (fs s) + clamp length s)
      /\ remaining (fs s') = u32 (remaining (fs s) - clamp length s))
  /\ (forall ops n s s',
      Forall (fun o => 0 <= op_length o) ops ->
      flash_session total_size offset ops n s = Some (tt, s') ->
      u32 (next_write (fs s') + remaining (fs s')) = u32 (offset + total_size)
      /\ (remaining (fs s') = 0 ->
          next_write (fs s') = u32 (offset + total_size))
      /\ (offset + total_size < 4294967296 ->
          next_write (fs s') + remaining (fs s') = offset + total_size
          /\ (remaining (fs s') = 0 ->
              next_write (fs s') = offset + total_size)))
  /\ (Responsive -> tinfl_contract ->
      forall ops s,
        Forall (fun o => 0 <= op_length o) ops ->
        0 <= next_out s < OUT_BUF_SIZE ->
        returns (flash_session total_size offset ops) s).
Proof.
  intros Ht Ho.
  assert (Hbegin : forall n s e s1,
             handle_flash_begin total_size offset n s = Some (e, s1) ->
             next_write (fs s1) = offset /\ remaining (fs s1) = total_size).
  { intros n s e s1 H.
    destruct (handle_flash_begin_inv _ _ _ _ _ _ H) as (r & _ & _ & F & _).
    rewrite F. split; reflexivity. }
  split; [|split; [|split; [|split]]].
  - intros n s e s1 H. destruct (Hbegin _ _ _ _ H) as (-> & ->). reflexivity.
  - intros o n s s' Hlen H.
    exact (proj1 (do_op_respects _ o bytes_kept_invariant Hlen _ _ _ _ H)).
  - intros data length n s s' Hnz [H|H].
    + destruct (handle_flash_data_effect _ _ _ _ _ H Hnz)
        as (s2 & ret & out & ((_ & Nw & Rm & _) & _) & _ & Efs & _).
      rewrite Efs.
      destruct (programmed_fields (clamp length s) ret (fs s2)) as (_ & B & C).
      rewrite B, C, Nw, Rm. split; reflexivity.
    + destruct (handle_flash_encrypt_data_effect _ _ _ _ _ H Hnz)
        as (s2 & ret & out & post & (_ & Nw & Rm & _) & _ & Efs & _).
      rewrite Efs.
      destruct (programmed_fields (clamp length s) ret (fs s2)) as (_ & B & C).
      rewrite B, C, Nw, Rm. split; reflexivity.
  - intros ops n s s' Hops H. unfold flash_session in H.
    bind_inv H as e s1 E1.
    destruct (Hbegin _ _ _ _ E1) as (Nw1 & Rm1).
    destruct (data_phase_respects _ ops bytes_kept_invariant Hops _ _ _ _ H)
      as (Hsum & Hrange).
    rewrite Nw1, Rm1 in Hsum. rewrite Nw1 in Hrange.
    specialize (Hrange Ho).
    split; [exact Hsum|]. split.
    + intros Hz. rewrite Hz, Z.add_0_r in Hsum.
      rewrite <- Hsum. symmetry. apply u32_small. exact Hrange.
    + intros Hfit.
      assert (Hacc : accounted total_size offset (fs s')).
      { apply (data_phase_respects _ ops
                 (accounting_kept_invariant total_size offset (proj1 Ho) Hfit)
                 Hops _ _ _ _ H).
        unfold accounted. rewrite Nw1, Rm1. lia. }
      destruct Hacc as (A & B & C). split; [exact C|]. intros Hz. lia.
  - intros live engine ops s Hops Hout.
    apply returns_flash_session; assumption.
Qed.

Lemma byte_accounting_is_invariant_witness :
  0 <= 9000 < 4294967296 /\ 0 <= 0 < 4294967296
  /\ next_write
       (fs (@run (sim true true) _ (flash_session 9000 0 two_writes) 5
                 (boot true true)))
     + remaining
         (fs (@run (sim true true) _ (flash_session 9000 0 two_writes) 5
                   (boot true true))) = 0 + 9000
  /\ next_write
       (fs (@run (sim true true) _ (flash_session 9000 0 two_writes) 5
                 (boot true true))) = 0 + 9000.
Proof.
  assert (H1 : 0 <= 9000 < 4294967296) by lia.
  assert (H2 : 0 <= 0 < 4294967296) by lia.
  split; [exact H1|]. split; [exact H2|].
  destruct (@byte_accounting_is_invariant (sim true true) 9000 0 H1 H2)
    as (_ & _ & _ & Hseq & _).
  assert (Erun : @flash_session (sim true true) 9000 0 two_writes 5%nat
                   (boot true true)
                 = Some (tt, @run (sim true true) _
                                  (flash_session 9000 0 two_writes) 5
                                  (boot true true))).
  { apply run_unit. vm_compute. reflexivity. }
  assert (Hops : Forall (fun o => 0 <= op_length o) two_writes).
  { repeat constructor; simpl; lia. }
  destruct (Hseq _ _ _ _ Hops Erun) as (_ & _ & Hexact).
  destruct Hexact as (Hsum & Hend); [lia|].
  split; [exact Hsum|]. apply Hend. vm_compute. reflexivity.
Defined.

(** C10, counterexample.  [handle_flash_begin(16, 4294967280)] followed
    by one 16-byte write returns; the write is programmed at 4294967280
    and the cursor wraps: [next_write = 0] and [remaining = 0], so
    [next_write + remaining] is 0, not [offset + total_size] = 2^32, and
    with nothing remaining the cursor does not sit at
    [offset + total_size]. *)
Lemma cursor_wraps_at_the_top_of_the_address_space :
  @finishes (sim true true) _
            (flash_session 16 4294967280 [PlainData (repeat 90 16) 16]) 5
            (boot true true) = true
  /\ hd_error (hw session_top)
     = Some (Rom (SPIWrite 4294967280 (repeat 90 16) 16) 0 0)
  /\ next_write (fs session_top) = 0
  /\ remaining (fs session_top) = 0
  /\ next_write (fs session_top) + remaining (fs session_top)
     <> 4294967280 + 16
  /\ next_write (fs session_top) <> 4294967280 + 16.
Proof.
  assert (Nw : next_write (fs session_top) = 0) by (vm_compute; reflexivity).
  assert (Rm : remaining (fs session_top) = 0) by (vm_compute; reflexivity).
  split; [vm_compute; reflexivity|]. split; [vm_compute; reflexivity|].
  split; [exact Nw|]. split; [exact Rm|].
  rewrite Nw, Rm. split; discriminate.
Qed.

(** * Further properties of the engine *)



(** X2.  [spi_wait_ready] returns only after a read of [SPI_EXT2_REG]
    with the [SPI_ST] bits clear, every earlier read having them set; on
    ESP32 and later the same then holds for [SPI0_EXT2_REG], which
    earlier chips never read.  Nothing is written.  On responsive
    hardware it returns. *)
Theorem spi_wait_ready_exits_on_idle_state_machine {T : Target} s :
  (forall n s',
      spi_wait_ready n s = Some (tt, s') ->
      exists seg0 seg1,
        hw s' = seg1 ++ seg0 ++ hw s
        /\ polls_until SPI_EXT2_REG (fun v => Z.land v SPI_ST =? 0) seg0
        /\ (if ESP32_OR_LATER
            then polls_until SPI0_EXT2_REG (fun v => Z.land v SPI_ST =? 0) seg1
            else seg1 = [])
        /\ same_soft s s')
  /\ (Responsive -> returns spi_wait_ready s).
Proof.
  split.
  - intros n s'. apply spi_wait_ready_shape.
  - intros live. apply (proj1 (live s)).
Qed.

Lemma spi_wait_ready_exits_on_idle_state_machine_witness :
  (exists seg0 seg1,
      hw (@run sim_slow _ spi_wait_ready 4 busy_9000)
      = seg1 ++ seg0 ++ hw busy_9000
      /\ polls_until SPI_EXT2_REG (fun v => Z.land v 7 =? 0) seg0
      /\ polls_until SPI0_EXT2_REG (fun v => Z.land v 7 =? 0) seg1
      /\ @same_soft sim_slow busy_9000
           (@run sim_slow _ spi_wait_ready 4 busy_9000))
  /\ @returns (sim true true) _ spi_wait_ready session_9000.
Proof.
  split.
  - apply (proj1 (@spi_wait_ready_exits_on_idle_state_machine sim_slow
                    busy_9000) 4%nat).
    apply run_unit. vm_compute. reflexivity.
  - apply (proj2 (@spi_wait_ready_exits_on_idle_state_machine (sim true true)
                    session_9000)).
    apply sim_responsive.
Defined.

(** X3.  [spi_write_enable] writes the WREN command right after a
    status read with the write-in-progress bit clear; before it there is
    status polling only, after it polls of [SPI_CMD_REG] that end on a
    read of 0.  On responsive hardware it returns. *)
Theorem write_enable_only_when_flash_idle {T : Target} s :
  (forall n s',
      spi_write_enable n s = Some (tt, s') ->
      exists v pre post,
        hw s' = post ++ WrReg SPI_CMD_REG SPI_FLASH_WREN
                :: RdReg SPI_RD_STATUS_REG v :: pre ++ hw s
        /\ Z.testbit v 0 = false
        /\ Forall status_poll pre
        /\ polls_until SPI_CMD_REG (fun w => w =? 0) post
        /\ same_soft s s')
  /\ (Responsive -> returns spi_write_enable s).
Proof.
  split.
  - intros n s'. apply spi_write_enable_shape.
  - intros live. apply returns_spi_write_enable, live.
Qed.

Lemma write_enable_only_when_flash_idle_witness :
  (exists v pre post,
      hw (@run sim_slow _ spi_write_enable 4 busy_9000)
      = post ++ WrReg SPI_CMD_REG 1073741824
        :: RdReg SPI_RD_STATUS_REG v :: pre ++ hw busy_9000
      /\ Z.testbit v 0 = false
      /\ Forall (@status_poll sim_slow) pre
      /\ polls_until SPI_CMD_REG (fun w => w =? 0) post
      /\ @same_soft sim_slow busy_9000
           (@run sim_slow _ spi_write_enable 4 busy_9000))
  /\ @returns (sim true true) _ spi_write_enable session_9000.
Proof.
  split.
  - apply (proj1 (@write_enable_only_when_flash_idle sim_slow busy_9000)
             4%nat).
    apply run_unit. vm_compute. reflexivity.
  - apply (proj2 (@write_enable_only_when_flash_idle (sim true true)
                    session_9000)).
    apply sim_responsive.
Defined.



(** X5.  [handle_flash_begin] puts only the unlock sequence on the bus:
    it latches no address and calls no program primitive, so no erase
    and no write is started before the data phase; it returns [ESP_OK]
    or [ESP_FAILED_SPI_UNLOCK].  On responsive hardware it returns. *)
Theorem begin_starts_no_erase_and_no_program {T : Target}
        total_size offset s :
  (forall n e s',
      handle_flash_begin total_size offset n s = Some (e, s') ->
      emitted unlock_traffic s s'
      /\ latched (hw s') = latched (hw s)
      /\ programs (hw s') = programs (hw s)
      /\ (e = ESP_OK \/ e = ESP_FAILED_SPI_UNLOCK))
  /\ (Responsive -> returns (handle_flash_begin total_size offset) s).
Proof.
  split; [|intros live; apply returns_handle_flash_begin, live].
  intros n e s' H.
  destruct (handle_flash_begin_traffic _ _ _ _ _ _ H) as (G & He).
  split; [exact G|]. destruct G as (seg & Eh & Q).
  split; [|split; [|exact He]].
  - rewrite Eh, latched_app, (latched_no_latch seg); [apply app_nil_r|].
    eapply Forall_impl; [|exact Q].
    intros [r v|r v|c ret out]; simpl; auto. destruct r; auto.
  - rewrite Eh, programs_app.
    assert (P : programs seg = []).
    { clear Eh. induction Q as [|x seg Hx _ IH]; simpl; [reflexivity|].
      rewrite IH. destruct x as [r v|r v|c ret out]; simpl; try reflexivity.
      destruct c; simpl in *; try reflexivity; contradiction. }
    rewrite P. apply app_nil_r.
Qed.

Lemma begin_starts_no_erase_and_no_program_witness :
  latched (hw session_9000) = latched (hw (boot true true))
  /\ programs (hw session_9000) = programs (hw (boot true true))
  /\ @returns (sim true true) _ (handle_flash_begin 9000 0) (boot true true).
Proof.
  assert (Erun : @handle_flash_begin (sim true true) 9000 0 4%nat (boot true true)
                 = Some (ESP_OK, session_9000))
    by (unfold session_9000; apply (run_spec ESP_FAILED_SPI_UNLOCK);
        vm_compute; reflexivity).
  destruct (@begin_starts_no_erase_and_no_program (sim true true) 9000 0
              (boot true true)) as (Hrun & Hret).
  destruct (Hrun _ _ _ Erun) as (_ & A & B & _).
  split; [exact A|]. split; [exact B|].
  apply Hret, sim_responsive.
Defined.

(** X6.  [start_next_erase] with nothing left to erase returns at once
    and leaves the machine, history included, as it was.  With sectors
    left but a busy chip it does one status read, which shows the
    write-in-progress bit set, and nothing else: no write enable, no
    erase, counters unchanged.  On responsive hardware it returns. *)
Theorem start_next_erase_does_nothing_when_idle_or_busy {T : Target} s :
  (remaining_erase_sector (fs s) = 0 ->
   forall n, start_next_erase n s = Some (tt, s))
  /\ (forall n s1,
        remaining_erase_sector (fs s) <> 0 ->
        spiflash_is_ready n s = Some (false, s1) ->
        start_next_erase n s = Some (tt, s1)
        /\ same_soft s s1
        /\ exists v seg,
            hw s1 = seg ++ hw s /\ status_read v seg
            /\ Z.testbit v 0 = true)
  /\ (Responsive -> returns start_next_erase s).
Proof.
  split; [|split].
  - intros Hz n. unfold start_next_erase, bind, get, ret. rewrite Hz.
    reflexivity.
  - intros n s1 Hnz Hp. split; [apply start_next_erase_busy; assumption|].
    destruct (spiflash_is_ready_shape _ _ _ _ Hp)
      as (v & seg & Eh & Sr & Er & Hs).
    split; [exact Hs|]. exists v, seg. repeat split; auto.
    destruct (Z.testbit v 0); [reflexivity|discriminate].
  - intros live. apply returns_start_next_erase, live.
Qed.

Lemma start_next_erase_does_nothing_when_idle_or_busy_witness :
  @start_next_erase (sim true true) 4%nat (boot true true)
  = Some (tt, boot true true)
  /\ @start_next_erase sim_slow 4%nat busy_9000
     = Some (tt, @run sim_slow _ spiflash_is_ready 4 busy_9000)
  /\ @returns (sim true true) _ start_next_erase (boot true true).
Proof.
  destruct (@start_next_erase_does_nothing_when_idle_or_busy (sim true true)
              (boot true true)) as (Hidle & _ & Hret).
  destruct (@start_next_erase_does_nothing_when_idle_or_busy sim_slow
              busy_9000) as (_ & Hbusy & _).
  split; [apply Hidle; reflexivity|]. split.
  - assert (Erun : @spiflash_is_ready sim_slow 4%nat busy_9000
                   = Some (false, @run sim_slow _ spiflash_is_ready 4 busy_9000))
      by (apply (run_spec true); vm_compute; reflexivity).
    assert (Hnz : remaining_erase_sector (fs busy_9000) <> 0)
      by (vm_compute; discriminate).
    exact (proj1 (Hbusy _ _ Hnz Erun)).
  - apply Hret, sim_responsive.
Defined.

(** X7.  For all 32-bit arguments of [handle_flash_begin] and every
    sequence of data calls after it, the two [int] erase counters stay in
    range: [next_erase_sector] never decreases, [remaining_erase_sector]
    never increases and never goes negative, and their sum stays what
    begin made it, below 2^31.  On responsive hardware with an inflate
    engine that keeps its contract the whole session returns. *)
Theorem erase_counters_stay_in_range {T : Target} total_size offset ops :
  0 <= total_size < 4294967296 -> 0 <= offset < 4294967296 ->
  Forall (fun o => 0 <= op_length o) ops ->
  (forall n m s e s1 s',
      handle_flash_begin total_size offset n s = Some (e, s1) ->
      data_phase ops m s1 = Some (tt, s') ->
      0 <= next_erase_sector (fs s1) <= next_erase_sector (fs s')
      /\ 0 <= remaining_erase_sector (fs s')
         <= remaining_erase_sector (fs s1)
      /\ next_erase_sector (fs s') + remaining_erase_sector (fs s')
         = next_erase_sector (fs s1) + remaining_erase_sector (fs s1)
      /\ next_erase_sector (fs s1) + remaining_erase_sector (fs s1)
         < 2147483648)
  /\ (Responsive -> tinfl_contract ->
      forall s, 0 <= next_out s < OUT_BUF_SIZE ->
        returns (flash_session total_size offset ops) s).
Proof.
  intros Ht Ho Hops. split.
  - intros n m s e s1 s' Hb H.
    destruct (handle_flash_begin_inv _ _ _ _ _ _ Hb) as (r & _ & _ & F & _).
    pose proof (begin_opens_erase_window total_size offset (fs s) Ht Ho) as W.
    rewrite <- F in W.
    destruct (erase_plan_rel_data_phase ops Hops _ _ _ _ H W)
      as (addrs & _ & R).
    destruct W as (E & HE & (Hr & Hn & Hs)).
    destruct (erase_run_window _ _ _ _ _ R Hr) as (Hr' & Hs').
    lia.
  - intros live engine s Hout. apply returns_flash_session; assumption.
Qed.

Lemma erase_counters_stay_in_range_witness :
  0 <= next_erase_sector (fs session_9000)
    <= next_erase_sector (fs session_9000_done)
  /\ 0 <= remaining_erase_sector (fs session_9000_done)
       <= remaining_erase_sector (fs session_9000)
  /\ next_erase_sector (fs session_9000_done)
     + remaining_erase_sector (fs session_9000_done)
     = next_erase_sector (fs session_9000)
       + remaining_erase_sector (fs session_9000)
  /\ next_erase_sector (fs session_9000)
     + remaining_erase_sector (fs session_9000) < 2147483648.
Proof.
  assert (H1 : 0 <= 9000 < 4294967296) by lia.
  assert (H2 : 0 <= 0 < 4294967296) by lia.
  assert (Erun : @handle_flash_begin (sim true true) 9000 0 4%nat (boot true true)
                 = Some (ESP_OK, session_9000))
    by (unfold session_9000; apply (run_spec ESP_FAILED_SPI_UNLOCK);
        vm_compute; reflexivity).
  exact (proj1 (@erase_counters_stay_in_range (sim true true) 9000 0 two_writes
                  H1 H2 two_writes_nonneg)
           4%nat 5%nat (boot true true) ESP_OK session_9000 session_9000_done
           Erun two_writes_run).
Defined.

(** X8.  In a data phase the addresses latched in [SPI_ADDR_REG] are
    exactly those of the erase schedule run from the erase counters: each
    erase starts at the sector where the one before it ended, latches
    that sector's byte address modulo 16 MiB, and covers a block or a
    sector by the tie-break; the counters end where the schedule ends.
    On responsive hardware with an inflate engine that keeps its
    contract the data phase returns. *)
Theorem erases_follow_the_schedule {T : Target} ops s :
  window_open (fs s) ->
  Forall (fun o => 0 <= op_length o) ops ->
  (forall n s',
      data_phase ops n s = Some (tt, s') ->
      exists addrs,
        latched (hw s') = latched (hw s) ++ addrs
        /\ erase_run (next_erase_sector (fs s))
                     (remaining_erase_sector (fs s)) addrs
                     (next_erase_sector (fs s'))
                     (remaining_erase_sector (fs s')))
  /\ (Responsive -> tinfl_contract -> well_typed s ->
      returns (data_phase ops) s).
Proof.
  intros W Hops. split.
  - intros n s' H. exact (erase_plan_rel_data_phase ops Hops _ _ _ _ H W).
  - intros live engine WT. apply returns_data_phase; assumption.
Qed.

Lemma erases_follow_the_schedule_witness :
  (exists addrs,
      latched (hw session_9000_done) = latched (hw session_9000) ++ addrs
      /\ erase_run (next_erase_sector (fs session_9000))
           (remaining_erase_sector (fs session_9000)) addrs
           (next_erase_sector (fs session_9000_done))
           (remaining_erase_sector (fs session_9000_done)))
  /\ @returns (sim true true) _ (data_phase two_writes) session_9000.
Proof.
  destruct (@erases_follow_the_schedule (sim true true) two_writes session_9000
              session_9000_window two_writes_nonneg) as (Hrun & Hret).
  split; [exact (Hrun _ _ two_writes_run)|].
  apply Hret;
    [apply sim_responsive|apply sim_tinfl_contract|exact session_9000_well_typed].
Defined.

(** X9.  On both write paths the program primitive is called right
    after a read of the flash status register with the
    write-in-progress bit clear: no write is issued to a busy chip.  On
    responsive hardware both calls return. *)
Theorem program_only_when_flash_idle {T : Target} data length s :
  clamp length s <> 0 ->
  (forall n s',
      handle_flash_data data length n s = Some (tt, s') ->
      exists v rest ret out,
        hw s' = Rom (SPIWrite (next_write (fs s))
                       (firstn (Z.to_nat (clamp length s)) data)
                       (clamp length s)) ret out
                :: RdReg SPI_RD_STATUS_REG v :: rest
        /\ Z.testbit v 0 = false)
  /\ (forall n s',
      handle_flash_encrypt_data data length n s = Some (tt, s') ->
      exists v rest ret out dis,
        hw s' = dis ++ Rom (encrypt_primitive (next_write (fs s))
                              (firstn (Z.to_nat (clamp length s)) data)
                              (clamp length s)) ret out
                :: RdReg SPI_RD_STATUS_REG v :: rest
        /\ latch SPI_Write_Encrypt_Disable dis
        /\ Z.testbit v 0 = false)
  /\ (Responsive ->
      returns (handle_flash_data data length) s
      /\ returns (handle_flash_encrypt_data data length) s).
Proof.
  intros Hnz. split; [|split].
  - intros n s' H.
    destruct (handle_flash_data_inv _ _ _ _ _ H)
      as [(Hz & _) | (_ & s1 & s2 & ret & out & E1 & E2 & ->)];
      [contradiction|].
    pose proof (erase_frame_erase_ahead _ _ _ _ _ E1) as ((_ & Nw & _) & _).
    destruct (wait_flash_idle_shape _ _ _ E2)
      as (v & pre & Eh & Bv & _ & (F2 & _)).
    exists v, (pre ++ hw s1), ret, out. simpl.
    rewrite F2, Nw, Eh. auto.
  - intros n s' H.
    destruct (handle_flash_encrypt_data_bracket _ _ _ _ _ H)
      as (en & Len & [(Hz & _) |
            (_ & s1 & s2 & ret & out & dis & E1 & E2 & Ldis & ->)]);
      [contradiction|].
    pose proof (erase_frame_erase_ahead _ _ _ _ _ E1) as ((_ & Nw & _) & _).
    destruct (wait_flash_idle_shape _ _ _ E2)
      as (v & pre & Eh & Bv & _ & (F2 & _)).
    exists v, (pre ++ hw s1), ret, out, dis. simpl.
    rewrite F2, Nw, Eh. auto.
  - intros live. split.
    + apply returns_handle_flash_data, live.
    + apply returns_handle_flash_encrypt_data, live.
Qed.

Lemma program_only_when_flash_idle_witness :
  (exists v rest ret out,
      hw session_9000_written
      = Rom (SPIWrite (next_write (fs session_9000))
               (firstn (Z.to_nat (clamp 5000 session_9000)) image_9000)
               (clamp 5000 session_9000)) ret out
        :: RdReg SPI_RD_STATUS_REG v :: rest
      /\ Z.testbit v 0 = false)
  /\ @returns (sim true true) _ (handle_flash_data image_9000 5000)
       session_9000.
Proof.
  assert (Hnz : clamp 5000 session_9000 <> 0)
    by (rewrite clamp_5000; discriminate).
  destruct (@program_only_when_flash_idle (sim true true) image_9000 5000
              session_9000 Hnz) as (Hrun & _ & Hret).
  split; [exact (Hrun _ _ first_write_run)|].
  apply Hret, sim_responsive.
Defined.

(** X10.  A write that ends in a sector behind the erase cursor, or
    that comes when nothing is left to erase, starts no erase: before
    the program primitive there is status polling only, and the erase
    counters are unchanged.  On responsive hardware the call returns. *)
Theorem no_erase_when_frontier_is_ahead {T : Target} data length s :
  clamp length s <> 0 ->
  erase_needed (last_sector s (clamp length s)) s = false ->
  (forall n s',
      handle_flash_data data length n s = Some (tt, s') ->
      next_erase_sector (fs s') = next_erase_sector (fs s)
      /\ remaining_erase_sector (fs s') = remaining_erase_sector (fs s)
      /\ exists v pre ret out,
          hw s' = Rom (SPIWrite (next_write (fs s))
                         (firstn (Z.to_nat (clamp length s)) data)
                         (clamp length s)) ret out
                  :: RdReg SPI_RD_STATUS_REG v :: pre ++ hw s
          /\ Forall status_poll pre)
  /\ (Responsive -> returns (handle_flash_data data length) s).
Proof.
  intros Hnz Hc. split; [|intros live; apply returns_handle_flash_data, live].
  intros n s' H.
  destruct (handle_flash_data_inv _ _ _ _ _ H)
    as [(Hz & _) | (_ & s1 & s2 & ret & out & E1 & E2 & ->)]; [contradiction|].
  apply (erase_ahead_idle _ _ _ _ Hc) in E1. subst s1.
  destruct (wait_flash_idle_shape _ _ _ E2)
    as (v & pre & Eh & Bv & Fp & (F2 & _)).
  simpl. unfold programmed.
  split; [destruct (ret =? 0); simpl; rewrite F2; reflexivity|].
  split; [destruct (ret =? 0); simpl; rewrite F2; reflexivity|].
  exists v, pre, ret, out. rewrite F2, Eh. auto.
Qed.

Lemma no_erase_when_frontier_is_ahead_witness :
  next_erase_sector
    (fs (@run (sim true true) _ (handle_flash_data image_9000 100) 5
              session_9000_written))
  = next_erase_sector (fs session_9000_written)
  /\ remaining_erase_sector
       (fs (@run (sim true true) _ (handle_flash_data image_9000 100) 5
                 session_9000_written))
     = remaining_erase_sector (fs session_9000_written)
  /\ @returns (sim true true) _ (handle_flash_data image_9000 100)
       session_9000_written.
Proof.
  assert (Hnz : clamp 100 session_9000_written <> 0)
    by (rewrite clamp_100; discriminate).
  assert (Erun : @handle_flash_data (sim true true) image_9000 100 5%nat
                   session_9000_written
                 = Some (tt, @run (sim true true) _
                               (handle_flash_data image_9000 100) 5
                               session_9000_written))
    by (apply run_unit; vm_compute; reflexivity).
  destruct (@no_erase_when_frontier_is_ahead (sim true true) image_9000 100
              session_9000_written Hnz frontier_ahead) as (Hrun & Hret).
  destruct (Hrun _ _ Erun) as (A & B & _).
  split; [exact A|]. split; [exact B|].
  apply Hret, sim_responsive.
Defined.

(** X11.  In a data phase of plain, encrypted and deflated calls the
    calls of the program primitives tile the flash: each starts at the
    address where the one before it ended (the first at [next_write]),
    writes a positive number of bytes and never more than are still
    expected, so the bytes written in total never exceed [remaining];
    the cursors end where the tiling ends, and a call that failed leaves
    [last_error] set.  On responsive hardware with an inflate engine
    that keeps its contract the data phase returns. *)
Theorem program_calls_tile_the_flash {T : Target} ops s :
  0 <= remaining (fs s) < 4294967296 ->
  Forall (fun o => 0 <= op_length o) ops ->
  (forall n s',
      data_phase ops n s = Some (tt, s') ->
      exists ps,
        programs (hw s') = programs (hw s) ++ ps
        /\ tiled (next_write (fs s)) (remaining (fs s)) ps
                 (next_write (fs s')) (remaining (fs s'))
        /\ (Exists failed ps -> get_flash_error s' <> ESP_OK))
  /\ (Responsive -> tinfl_contract -> 0 <= next_out s < OUT_BUF_SIZE ->
      returns (data_phase ops) s).
Proof.
  intros Hr Hops. split.
  - intros n s' H.
    destruct (program_rel_data_phase ops Hops _ _ _ _ H Hr)
      as (_ & ps & A & B & C).
    exists ps. auto.
  - intros live engine Hout. apply returns_data_phase; try assumption.
    split; assumption.
Qed.

Lemma program_calls_tile_the_flash_witness :
  (exists ps,
      programs (hw session_9000_done) = programs (hw session_9000) ++ ps
      /\ tiled (next_write (fs session_9000)) (remaining (fs session_9000)) ps
           (next_write (fs session_9000_done))
           (remaining (fs session_9000_done))
      /\ (Exists failed ps -> get_flash_error session_9000_done <> ESP_OK))
  /\ @returns (sim true true) _ (data_phase two_writes) session_9000.
Proof.
  destruct (@program_calls_tile_the_flash (sim true true) two_writes
              session_9000 session_9000_remaining_ranged two_writes_nonneg)
    as (Hrun & Hret).
  split; [exact (Hrun _ _ two_writes_run)|].
  apply Hret;
    [apply sim_responsive|apply sim_tinfl_contract
    |exact session_9000_next_out_ranged].
Defined.

(** X12.  After a sequence of plain and encrypted writes [last_error]
    is [ESP_FAILED_SPI_OP] if one of the program calls of the sequence
    returned nonzero, and is what it was before if all returned 0.  On
    responsive hardware the sequence returns. *)
Theorem error_iff_a_program_call_failed {T : Target} ops :
  Forall undeflated ops -> Forall (fun o => 0 <= op_length o) ops ->
  (forall n s s',
      data_phase ops n s = Some (tt, s') ->
      exists ps,
        programs (hw s') = programs (hw s) ++ ps
        /\ get_flash_error s'
           = (if all_succeeded ps then get_flash_error s
              else ESP_FAILED_SPI_OP))
  /\ (Responsive -> forall s, returns (data_phase ops) s).
Proof.
  intros Hu Hlen. split.
  - intros n s s' H. exact (proj1 (undeflated_phase ops Hu Hlen _ _ _ H)).
  - intros live s. apply returns_undeflated_phase; assumption.
Qed.

Lemma error_iff_a_program_call_failed_witness :
  (exists ps,
      programs (hw session_9000_done) = programs (hw session_9000) ++ ps
      /\ get_flash_error session_9000_done
         = (if all_succeeded ps then get_flash_error session_9000
            else ESP_FAILED_SPI_OP))
  /\ @returns (sim true true) _ (data_phase two_writes) session_9000.
Proof.
  destruct (@error_iff_a_program_call_failed (sim true true) two_writes
              two_writes_undeflated two_writes_nonneg) as (Hrun & Hret).
  split; [exact (Hrun _ _ _ two_writes_run)|].
  apply Hret, sim_responsive.
Defined.

(** X13.  A sequence of plain and encrypted writes that asks for
    [requested] bytes in all leaves [remaining] at
    [max 0 (remaining - requested)] and moves [next_write] by
    [min remaining requested]: what exceeds the declared size is
    dropped.  In an active session [handle_flash_end] then closes the
    session if the bytes asked for reach [remaining] and answers
    [ESP_NOT_ENOUGH_DATA] otherwise.  On responsive hardware the
    sequence returns. *)
Theorem plain_writes_closed_form {T : Target} ops s :
  Forall undeflated ops -> Forall (fun o => 0 <= op_length o) ops ->
  0 <= remaining (fs s) < 4294967296 ->
  0 <= next_write (fs s) < 4294967296 ->
  (forall n s',
      data_phase ops n s = Some (tt, s') ->
      remaining (fs s') = Z.max 0 (remaining (fs s) - requested ops)
      /\ next_write (fs s')
         = u32 (next_write (fs s) + Z.min (remaining (fs s)) (requested ops))
      /\ (is_in_flash_mode s = true ->
          forall m,
            handle_flash_end m s'
            = if remaining (fs s) <=? requested ops
              then Some (get_flash_error s',
                         set_fs (set_in_flash_mode false) s')
              else Some (ESP_NOT_ENOUGH_DATA, s')))
  /\ (Responsive -> returns (data_phase ops) s).
Proof.
  intros Hu Hlen Hr Hn. split.
  - intros n s' H.
    destruct (proj2 (undeflated_phase ops Hu Hlen _ _ _ H) Hr Hn) as (A & B).
    split; [exact A|]. split; [exact B|].
    intros Hm m.
    pose proof (data_phase_respects _ ops mode_kept_invariant Hlen _ _ _ _ H)
      as Hk.
    unfold lifted, mode_kept in Hk. unfold is_in_flash_mode in Hm.
    rewrite Hm in Hk.
    destruct (Z.leb_spec (remaining (fs s)) (requested ops)).
    + apply handle_flash_end_closes; [exact Hk|]. rewrite A. lia.
    + apply handle_flash_end_short; [exact Hk|]. rewrite A. lia.
  - intros live. apply returns_undeflated_phase; assumption.
Qed.

Lemma plain_writes_closed_form_witness :
  remaining (fs session_9000_done)
  = Z.max 0 (remaining (fs session_9000) - requested two_writes)
  /\ next_write (fs session_9000_done)
     = u32 (next_write (fs session_9000)
            + Z.min (remaining (fs session_9000)) (requested two_writes))
  /\ @returns (sim true true) _ (data_phase two_writes) session_9000.
Proof.
  destruct (@plain_writes_closed_form (sim true true) two_writes session_9000
              two_writes_undeflated two_writes_nonneg
              session_9000_remaining_ranged session_9000_next_write_ranged)
    as (Hrun & Hret).
  destruct (Hrun _ _ two_writes_run) as (A & B & _).
  split; [exact A|]. split; [exact B|].
  apply Hret, sim_responsive.
Defined.

(** X14.  No data call opens or closes a session: after any sequence of
    plain, encrypted and deflated calls [is_in_flash_mode] answers what
    it answered before.  On responsive hardware with an inflate engine
    that keeps its contract the sequence returns. *)
Theorem data_phase_keeps_flash_mode {T : Target} ops :
  Forall (fun o => 0 <= op_length o) ops ->
  (forall n s s',
      data_phase ops n s = Some (tt, s') ->
      is_in_flash_mode s' = is_in_flash_mode s)
  /\ (Responsive -> tinfl_contract ->
      forall s, well_typed s -> returns (data_phase ops) s).
Proof.
  intros Hlen. split.
  - intros n s s' H.
    exact (data_phase_respects _ ops mode_kept_invariant Hlen _ _ _ _ H).
  - intros live engine s WT. apply returns_data_phase; assumption.
Qed.

Lemma data_phase_keeps_flash_mode_witness :
  is_in_flash_mode session_9000_done = is_in_flash_mode session_9000
  /\ @returns (sim true true) _ (data_phase two_writes) session_9000.
Proof.
  destruct (@data_phase_keeps_flash_mode (sim true true) two_writes
              two_writes_nonneg) as (Hrun & Hret).
  split; [exact (Hrun _ _ _ two_writes_run)|].
  apply Hret;
    [apply sim_responsive|apply sim_tinfl_contract
    |exact session_9000_well_typed].
Defined.

(** X15.  One call of [handle_flash_deflated_data] with [length] bytes
    consumes a prefix of its input: the loop ends with
    [l_length <= length] bytes left over, its data pointer advanced by
    what was consumed, and [remaining_compressed] lowered by exactly that
    amount (modulo 2^32).  Input is left over only if nothing remains to
    be written or the stream ended or failed.  The output cursor ends
    inside the buffer.  On responsive hardware the call returns. *)
Theorem deflated_data_consumes_its_input {T : Target} data length s :
  tinfl_contract -> 0 <= length < 4294967296 ->
  0 <= next_out s < OUT_BUF_SIZE ->
  (forall n s',
      handle_flash_deflated_data data length n s = Some (tt, s') ->
      exists l s1,
        deflate_loop data length n s = Some (l, s1)
        /\ 0 <= l_length l <= length
        /\ l_data l = skipn (Z.to_nat (length - l_length l)) data
        /\ u32 (remaining_compressed (fs s'))
           = u32 (remaining_compressed (fs s) - (length - l_length l))
        /\ (l_length l = 0 \/ remaining (fs s') <= 0
            \/ l_status l <= TINFL_STATUS_DONE)
        /\ 0 <= next_out s' < OUT_BUF_SIZE)
  /\ (Responsive -> 0 <= remaining (fs s) < 4294967296 ->
      returns (handle_flash_deflated_data data length) s).
Proof.
  intros engine Hlen Ho. split.
  2:{ intros live Hr. apply returns_handle_flash_deflated_data; assumption. }
  intros n s' H. unfold handle_flash_deflated_data in H.
  bind_inv H as l s1 E1. exists l, s1. split; [exact E1|].
  destruct (deflate_loop_consumed _ _ _ _ _ _ engine Hlen Ho E1)
    as ((Hl & Hd & Hc & Ho1) & Hstop).
  rewrite deflate_finish_run in H. inversion H; subst; clear H.
  split; [exact Hl|]. split; [exact Hd|].
  set (g := fun f : flash_state =>
              if data_surplus (l_status l) (remaining f)
              then set_last_error ESP_TOO_MUCH_DATA f
              else if data_missing (l_status l) (remaining f)
              then set_last_error ESP_NOT_ENOUGH_DATA f
              else if inflate_failed (l_status l)
              then set_last_error ESP_INFLATE_ERROR f
              else f).
  assert (Eg : remaining_compressed (g (fs s1)) = remaining_compressed (fs s1)
               /\ remaining (g (fs s1)) = remaining (fs s1)).
  { unfold g.
    destruct (data_surplus _ _); [split; reflexivity|].
    destruct (data_missing _ _); [split; reflexivity|].
    destruct (inflate_failed _); split; reflexivity. }
  destruct Eg as (Erc & Erm). unfold set_fs. cbn [fs next_out].
  rewrite Erc, Erm.
  split; [exact Hc|]. split; [|exact Ho1].
  unfold deflate_continues in Hstop.
  apply andb_false_iff in Hstop. destruct Hstop as [Hstop|Hstop].
  - apply andb_false_iff in Hstop. destruct Hstop as [Hstop|Hstop].
    + left. apply Z.ltb_ge in Hstop. lia.
    + right. left. apply Z.ltb_ge in Hstop. exact Hstop.
  - right. right. apply Z.ltb_ge in Hstop. exact Hstop.
Qed.

Lemma deflated_data_consumes_its_input_witness :
  (exists l s1,
      @deflate_loop (sim true true) [7; 8; 0] 3 5%nat deflated_2 = Some (l, s1)
      /\ 0 <= l_length l <= 3
      /\ l_data l = skipn (Z.to_nat (3 - l_length l)) [7; 8; 0]
      /\ u32 (remaining_compressed (fs deflated_2_done))
         = u32 (remaining_compressed (fs deflated_2) - (3 - l_length l))
      /\ (l_length l = 0 \/ remaining (fs deflated_2_done) <= 0
          \/ l_status l <= 0)
      /\ 0 <= next_out deflated_2_done < OUT_BUF_SIZE)
  /\ @returns (sim true true) _ (handle_flash_deflated_data [7; 8; 0] 3)
       deflated_2.
Proof.
  assert (Hlen : 0 <= 3 < 4294967296) by lia.
  destruct (@deflated_data_consumes_its_input (sim true true) [7; 8; 0] 3
              deflated_2 (sim_tinfl_contract true true) Hlen
              deflated_2_next_out_ranged) as (Hrun & Hret).
  split; [exact (Hrun _ _ deflated_2_run)|].
  apply Hret; [apply sim_responsive|exact deflated_2_remaining_ranged].
Defined.

(** X16.  [handle_flash_deflated_data] with no input, or called when
    nothing remains to be written, does not run its loop: it returns
    without touching the inflate engine or the hardware.  If bytes are
    still expected the machine is unchanged; if none are, [last_error]
    becomes [ESP_TOO_MUCH_DATA] whatever it was and whatever the chunk
    holds. *)
Theorem deflated_data_without_input_or_room {T : Target} data length n s :
  TINFL_STATUS_DONE < TINFL_STATUS_NEEDS_MORE_INPUT ->
  0 <= remaining (fs s) ->
  length <= 0 \/ remaining (fs s) = 0 ->
  (0 < n)%nat ->
  handle_flash_deflated_data data length n s
  = Some (tt, if remaining (fs s) =? 0
              then set_fs (set_last_error ESP_TOO_MUCH_DATA) s else s).
Proof.
  intros Hst Hr Hcase Hn. destruct n as [|k]; [lia|].
  unfold handle_flash_deflated_data, deflate_loop, while_.
  unfold bind at 1. rewrite iter_S. cbv beta. rewrite deflate_cond_run.
  assert (Hc : deflate_continues
                 (mk_locals data length TINFL_STATUS_NEEDS_MORE_INPUT) s = false).
  { unfold deflate_continues. cbn [l_length l_status].
    destruct Hcase as [Hl|Hz].
    - apply Z.ltb_ge in Hl. rewrite Hl. reflexivity.
    - rewrite Hz. rewrite andb_false_r. reflexivity. }
  rewrite Hc. rewrite deflate_finish_run. cbn [l_status].
  unfold data_surplus, data_missing, inflate_failed.
  assert (E1 : (TINFL_STATUS_NEEDS_MORE_INPUT =? TINFL_STATUS_DONE) = false)
    by (apply Z.eqb_neq; lia).
  assert (E2 : (TINFL_STATUS_NEEDS_MORE_INPUT <? TINFL_STATUS_DONE) = false)
    by (apply Z.ltb_ge; lia).
  rewrite E1, E2. simpl. unfold set_fs.
  destruct (remaining (fs s) =? 0); [reflexivity|].
  destruct s; reflexivity.
Qed.

Lemma deflated_data_without_input_or_room_witness :
  @handle_flash_deflated_data (sim true true) [] 0 1%nat deflated_2
  = Some (tt, if remaining (fs deflated_2) =? 0
              then set_fs (set_last_error ESP_TOO_MUCH_DATA) deflated_2
              else deflated_2)
  /\ @handle_flash_deflated_data (sim true true) [7] 1 1%nat (boot true true)
     = Some (tt, if remaining (fs (boot true true)) =? 0
                 then set_fs (set_last_error ESP_TOO_MUCH_DATA) (boot true true)
                 else boot true true).
Proof.
  split.
  - apply (@deflated_data_without_input_or_room (sim true true) [] 0 1%nat
             deflated_2).
    + simpl. lia.
    + rewrite deflated_2_remaining. lia.
    + left. lia.
    + lia.
  - apply (@deflated_data_without_input_or_room (sim true true) [7] 1 1%nat
             (boot true true)).
    + simpl. lia.
    + simpl. lia.
    + right. reflexivity.
    + lia.
Defined.

(** X17.  With an inflate engine that keeps its contract the output
    cursor never leaves [out_buf]: [handle_flash_begin] and every
    sequence of data calls keep [0 <= next_out < sizeof(out_buf)] and
    [remaining] a 32-bit value.  On responsive hardware every such
    sequence returns. *)
Theorem output_cursor_stays_in_buffer {T : Target} :
  tinfl_contract ->
  (forall total_size offset n s e s1,
      0 <= total_size < 4294967296 -> 0 <= next_out s < OUT_BUF_SIZE ->
      handle_flash_begin total_size offset n s = Some (e, s1) ->
      well_typed s1)
  /\ (forall ops n s s',
      Forall (fun o => 0 <= op_length o) ops -> well_typed s ->
      data_phase ops n s = Some (tt, s') -> well_typed s')
  /\ (Responsive ->
      forall ops s,
        Forall (fun o => 0 <= op_length o) ops -> well_typed s ->
        returns (data_phase ops) s).
Proof.
  intros engine. split; [|split].
  - intros total_size offset n s e s1 Ht Ho H.
    destruct (handle_flash_begin_inv _ _ _ _ _ _ H) as (r & _ & _ & F & _ & O).
    split; [rewrite F; exact Ht|rewrite O; exact Ho].
  - intros ops n s s' Hops. revert n s s'.
    induction Hops as [|o ops Ho _ IH]; intros n s s' W H; simpl in H.
    + unfold ret in H. inversion H; subst. exact W.
    + bind_inv H as u s1 E1. destruct u.
      eapply IH; [|exact H].
      eapply well_typed_do_op; eauto.
  - intros live ops s Hops WT. apply returns_data_phase; assumption.
Qed.

Lemma output_cursor_stays_in_buffer_witness :
  @well_typed (sim true true) session_9000
  /\ @well_typed (sim true true) session_9000_done
  /\ @returns (sim true true) _ (data_phase two_writes) session_9000.
Proof.
  destruct (@output_cursor_stays_in_buffer (sim true true)
              (sim_tinfl_contract true true)) as (Hbegin & Hdata & Hret).
  assert (Erun : @handle_flash_begin (sim true true) 9000 0 4%nat (boot true true)
                 = Some (ESP_OK, session_9000))
    by (unfold session_9000; apply (run_spec ESP_FAILED_SPI_UNLOCK);
        vm_compute; reflexivity).
  assert (W : @well_typed (sim true true) session_9000).
  { apply (Hbegin 9000 0 4%nat (boot true true) ESP_OK session_9000);
      [lia|simpl; unfold OUT_BUF_SIZE; lia|exact Erun]. }
  split; [exact W|]. split.
  - exact (Hdata two_writes 5%nat session_9000 session_9000_done
             two_writes_nonneg W two_writes_run).
  - apply Hret; [apply sim_responsive|exact two_writes_nonneg|exact W].
Defined.

(** X18.  [handle_flash_encrypt_data] on ESP32-S2 and later calls
    [SPI_Write_Encrypt_Enable] first, whatever the length.  With a
    clamped length of zero it returns right after that call:
    [SPI_Write_Encrypt_Disable] is not called.  Otherwise the program
    primitive follows register traffic only and
    [SPI_Write_Encrypt_Disable] is the last thing on the bus.  On
    earlier chips neither routine is called, and a zero clamped length
    leaves the machine as it was.  On responsive hardware the call
    returns. *)
Theorem encrypted_write_latch_bracket {T : Target} data length s :
  (forall n s',
      handle_flash_encrypt_data data length n s = Some (tt, s') ->
      (ESP32S2_OR_LATER = true ->
       exists r o,
         (clamp length s = 0 ->
          s' = set_hw (Rom SPI_Write_Encrypt_Enable r o :: hw s) s)
         /\ (clamp length s <> 0 ->
             exists mid ret out r' o',
               hw s' = Rom SPI_Write_Encrypt_Disable r' o'
                       :: Rom (encrypt_primitive (next_write (fs s))
                                 (firstn (Z.to_nat (clamp length s)) data)
                                 (clamp length s)) ret out
                       :: mid ++ Rom SPI_Write_Encrypt_Enable r o :: hw s
               /\ Forall no_rom mid))
      /\ (ESP32S2_OR_LATER = false ->
          (clamp length s = 0 -> s' = s)
          /\ (clamp length s <> 0 ->
              exists mid ret out,
                hw s' = Rom (encrypt_primitive (next_write (fs s))
                               (firstn (Z.to_nat (clamp length s)) data)
                               (clamp length s)) ret out
                        :: mid ++ hw s
                /\ Forall no_rom mid)))
  /\ (Responsive -> returns (handle_flash_encrypt_data data length) s).
Proof.
  split; [|intros live; apply returns_handle_flash_encrypt_data, live].
  intros n s' H.
  destruct (handle_flash_encrypt_data_bracket _ _ _ _ _ H)
    as (en & Len & Hcases).
  assert (Hmid : forall s1 s2,
             erase_ahead (last_sector s (clamp length s)) n
               (set_hw (en ++ hw s) s) = Some (tt, s1) ->
             wait_flash_idle n s1 = Some (tt, s2) ->
             next_write (fs s2) = next_write (fs s)
             /\ exists mid, hw s2 = mid ++ en ++ hw s /\ Forall no_rom mid).
  { intros s1 s2 E1 E2.
    pose proof (erase_frame_erase_ahead _ _ _ _ _ E1) as F1.
    pose proof (erase_frame_of_soft _ _ (soft_wait_flash_idle _ _ _ _ E2)
                  (quiet_wait_flash_idle _ _ _ _ E2)) as F2.
    destruct (erase_frame_trans _ _ _ F1 F2)
      as ((_ & Nw & _) & _ & _ & (mid & G & Q)).
    split; [exact Nw|]. exists mid. split; [exact G|exact Q]. }
  unfold latch in *. split; intros HS2; rewrite HS2 in *.
  - destruct Len as (r & o & ->). exists r, o. split.
    + intros Hz. destruct Hcases as [(_ & ->) | (Hnz & _)];
        [reflexivity|contradiction].
    + intros Hnz.
      destruct Hcases as [(Hz & _) |
        (_ & s1 & s2 & ret & out & dis & E1 & E2 & (r' & o' & ->) & ->)];
        [contradiction|].
      destruct (Hmid _ _ E1 E2) as (Nw & mid & G & Q).
      exists mid, ret, out, r', o'. simpl. rewrite Nw, G. auto.
  - subst en. split.
    + intros Hz. destruct Hcases as [(_ & ->) | (Hnz & _)];
        [destruct s; reflexivity|contradiction].
    + intros Hnz.
      destruct Hcases as [(Hz & _) |
        (_ & s1 & s2 & ret & out & dis & E1 & E2 & -> & ->)];
        [contradiction|].
      destruct (Hmid _ _ E1 E2) as (Nw & mid & G & Q).
      exists mid, ret, out. simpl. rewrite Nw, G. auto.
Qed.

Lemma encrypted_write_latch_bracket_witness :
  (exists r o,
      @run sim_s2 _ (handle_flash_encrypt_data [1] 1) 4 boot_s2
      = set_hw (Rom SPI_Write_Encrypt_Enable r o :: hw boot_s2) boot_s2)
  /\ (exists r o mid ret out r' o',
        hw (@run sim_s2 _ (handle_flash_encrypt_data [1; 2; 3] 3) 5 session_s2)
        = Rom SPI_Write_Encrypt_Disable r' o'
          :: Rom (@encrypt_primitive sim_s2 (next_write (fs session_s2))
                    (firstn (Z.to_nat (clamp 3 session_s2)) [1; 2; 3])
                    (clamp 3 session_s2)) ret out
          :: mid ++ Rom SPI_Write_Encrypt_Enable r o :: hw session_s2
        /\ Forall no_rom mid)
  /\ @returns sim_s2 _ (handle_flash_encrypt_data [1; 2; 3] 3) session_s2.
Proof.
  assert (E0 : @handle_flash_encrypt_data sim_s2 [1] 1 4%nat boot_s2
               = Some (tt, @run sim_s2 _ (handle_flash_encrypt_data [1] 1) 4
                             boot_s2))
    by (apply run_unit; vm_compute; reflexivity).
  assert (E1 : @handle_flash_encrypt_data sim_s2 [1; 2; 3] 3 5%nat session_s2
               = Some (tt, @run sim_s2 _
                             (handle_flash_encrypt_data [1; 2; 3] 3) 5
                             session_s2))
    by (apply run_unit; vm_compute; reflexivity).
  destruct (@encrypted_write_latch_bracket sim_s2 [1] 1 boot_s2) as (H0 & _).
  destruct (@encrypted_write_latch_bracket sim_s2 [1; 2; 3] 3 session_s2)
    as (H1 & Hret).
  split; [|split].
  - destruct (proj1 (H0 _ _ E0) eq_refl) as (r & o & Hz & _).
    exists r, o. exact (Hz clamp_s2_boot).
  - destruct (proj1 (H1 _ _ E1) eq_refl) as (r & o & _ & Hnz).
    destruct (Hnz clamp_s2_session) as (mid & ret & out & r' & o' & Eh & Q).
    exists r, o, mid, ret, out, r', o'. split; [exact Eh|exact Q].
  - apply Hret. apply sim_with_responsive.
Defined.

(** X19.  Once [handle_flash_end] has closed a session (it was active
    and nothing remained), [is_in_flash_mode] answers false,
    [get_flash_error] still reports the error the session ended with, a
    second [handle_flash_end] answers [ESP_NOT_IN_FLASH_MODE] and
    changes nothing, and every plain data call is a no-op; all of this
    for any fuel. *)
Theorem closed_session_ignores_plain_data {T : Target} s :
  is_in_flash_mode s = true -> remaining (fs s) = 0 ->
  let s1 := set_fs (set_in_flash_mode false) s in
  (forall n, handle_flash_end n s = Some (get_flash_error s, s1))
  /\ is_in_flash_mode s1 = false
  /\ get_flash_error s1 = get_flash_error s
  /\ (forall m, handle_flash_end m s1 = Some (ESP_NOT_IN_FLASH_MODE, s1))
  /\ (forall data length m,
        0 <= length -> handle_flash_data data length m s1 = Some (tt, s1)).
Proof.
  intros Hm Hz s1. unfold is_in_flash_mode in Hm.
  split; [intros n; apply handle_flash_end_closes; [exact Hm|lia]|].
  split; [reflexivity|]. split; [reflexivity|].
  split.
  - intros m. apply handle_flash_end_idle. reflexivity.
  - intros data length m Hlen.
    unfold handle_flash_data, bind, get, ret. cbv zeta.
    assert (Hc : clamp length s1 = 0).
    { unfold clamp, s1. cbn [fs set_fs remaining set_in_flash_mode].
      rewrite Hz. destruct (Z.ltb_spec 0 length); lia. }
    rewrite Hc. reflexivity.
Qed.

Lemma closed_session_ignores_plain_data_witness :
  @handle_flash_end (sim true true) 0%nat session_empty
  = Some (get_flash_error session_empty,
          set_fs (set_in_flash_mode false) session_empty)
  /\ @handle_flash_end (sim true true) 0%nat
       (set_fs (set_in_flash_mode false) session_empty)
     = Some (ESP_NOT_IN_FLASH_MODE,
             set_fs (set_in_flash_mode false) session_empty)
  /\ @handle_flash_data (sim true true) [1; 2] 2 0%nat
       (set_fs (set_in_flash_mode false) session_empty)
     = Some (tt, set_fs (set_in_flash_mode false) session_empty).
Proof.
  destruct (@closed_session_ignores_plain_data (sim true true) session_empty
              session_empty_active session_empty_remaining)
    as (A & _ & _ & B & C).
  split; [exact (A 0%nat)|]. split; [exact (B 0%nat)|].
  apply C. lia.
Defined.



(** X21.  The erase loop of [handle_flash_data] is lazy: with the erase
    counters in their session range, a write never moves
    [next_erase_sector] back and never moves it further than one block
    past the sector the write ends in (or leaves it where it was, if it
    was already further).  On responsive hardware the call returns. *)
Theorem erase_ahead_is_lazy {T : Target} data length s :
  window_open (fs s) ->
  (forall n s',
      handle_flash_data data length n s = Some (tt, s') ->
      next_erase_sector (fs s) <= next_erase_sector (fs s')
      /\ next_erase_sector (fs s')
         <= Z.max (next_erase_sector (fs s))
                  (last_sector s (clamp length s) + SECTORS_PER_BLOCK))
  /\ (Responsive -> returns (handle_flash_data data length) s).
Proof.
  intros W. split; [|intros live; apply returns_handle_flash_data, live].
  intros n s' H.
  destruct (handle_flash_data_inv _ _ _ _ _ H)
    as [(_ & ->) | (_ & s1 & s2 & ret & out & E1 & E2 & ->)]; [lia|].
  destruct (erase_ahead_lazy _ _ _ _ W E1) as (A & B).
  pose proof (soft_wait_flash_idle _ _ _ _ E2) as (F2 & _).
  assert (En : next_erase_sector (programmed (clamp length s) ret (fs s2))
               = next_erase_sector (fs s1)).
  { unfold programmed. destruct (ret =? 0); simpl; rewrite F2; reflexivity. }
  cbn [fs]. rewrite En. auto.
Qed.

Lemma erase_ahead_is_lazy_witness :
  next_erase_sector (fs session_9000)
  <= next_erase_sector (fs session_9000_written)
  /\ next_erase_sector (fs session_9000_written)
     <= Z.max (next_erase_sector (fs session_9000))
              (last_sector session_9000 (clamp 5000 session_9000)
               + SECTORS_PER_BLOCK)
  /\ @returns (sim true true) _ (handle_flash_data image_9000 5000)
       session_9000.
Proof.
  destruct (@erase_ahead_is_lazy (sim true true) image_9000 5000 session_9000
              session_9000_window) as (Hrun & Hret).
  destruct (Hrun _ _ first_write_run) as (A & B).
  split; [exact A|]. split; [exact B|].
  apply Hret, sim_responsive.
Defined.
